(** * Behaviour layer of the landing page: a shallow embedding

    The repository ships the same page behaviours twice: once as a flat
    file of global functions ([script.js], modules named [Script] below)
    and once as a controller class [PatreonLandingApp] (modules named
    [App]).  The first part of the file embeds each subsystem; the second
    part states and proves the properties.

    Conventions of the embedding:
    - a JavaScript [null]/[undefined] lookup result is an [option];
    - a statement that can throw returns a [completion], which carries the
      state reached when the exception left the function;
    - closures handed to [setTimeout]/[requestAnimationFrame] are
      defunctionalised into a [task] type, one constructor per closure;
    - JavaScript strings are the UTF-8 byte strings of the source text. *)

From Stdlib Require Import QArith Qminmax Ascii String.
From stdpp Require Import gmap strings list fin_maps.

Local Open Scope string_scope.

(** ** Exceptions and completions *)

Inductive exn :=
  | TypeError (msg : string)
  | NotFoundError
  | Error (msg : string).

(** [Normal w]: the call returned in state [w].
    [Throw e w]: the call threw [e]; [w] holds the mutations done so far. *)
Inductive completion (W : Type) :=
  | Normal (w : W)
  | Throw (e : exn) (w : W).
Arguments Normal {W} w.
Arguments Throw {W} e w.

Definition bind {W} (c : completion W) (k : W -> completion W) : completion W :=
  match c with
  | Normal w => k w
  | Throw e w => Throw e w
  end.

Notation "c >>= k" := (bind c k) (at level 60, right associativity).

Definition state_of {W} (c : completion W) : W :=
  match c with Normal w => w | Throw _ w => w end.

Definition throws {W} (c : completion W) : bool :=
  match c with Normal _ => false | Throw _ _ => true end.

(** ** Numbers

    A JavaScript number is kept as an exact rational or one of the three
    IEEE special values; rounding of finite results to binary64 is not
    modelled.  [Fin 0] is positive zero (the only zero the scroll code can
    produce: [x - x] and a scroll offset of zero are both [+0]). *)

Inductive number :=
  | NaN
  | PosInf
  | NegInf
  | Fin (q : Q).

Definition Qsign (q : Q) : comparison := (q ?= 0)%Q.

Definition num_sub (a b : number) : number :=
  match a, b with
  | NaN, _ | _, NaN => NaN
  | PosInf, PosInf | NegInf, NegInf => NaN
  | PosInf, _ | _, NegInf => PosInf
  | NegInf, _ | _, PosInf => NegInf
  | Fin x, Fin y => Fin (x - y)
  end.

Definition num_div (a b : number) : number :=
  match a, b with
  | NaN, _ | _, NaN => NaN
  | Fin x, Fin y =>
      match Qsign y with
      | Eq => match Qsign x with Eq => NaN | Gt => PosInf | Lt => NegInf end
      | _ => Fin (x / y)
      end
  | Fin _, _ => Fin 0
  | _, Fin y =>
      match a, Qsign y with
      | PosInf, Lt | NegInf, (Eq | Gt) => NegInf
      | _, _ => PosInf
      end
  | _, _ => NaN
  end.

Definition num_mul (a b : number) : number :=
  match a, b with
  | NaN, _ | _, NaN => NaN
  | Fin x, Fin y => Fin (x * y)
  | Fin x, inf | inf, Fin x =>
      match Qsign x, inf with
      | Eq, _ => NaN
      | Gt, i => i
      | Lt, PosInf => NegInf
      | Lt, _ => PosInf
      end
  | PosInf, PosInf | NegInf, NegInf => PosInf
  | _, _ => NegInf
  end.

(** [Math.min]: [NaN] if either argument is [NaN]. *)
Definition Math_min (a b : number) : number :=
  match a, b with
  | NaN, _ | _, NaN => NaN
  | NegInf, _ | _, NegInf => NegInf
  | PosInf, x | x, PosInf => x
  | Fin x, Fin y => Fin (Qmin x y)
  end.

(** The relational operator [a > b]; any comparison with [NaN] is false. *)
Definition num_gt (a b : number) : bool :=
  match a, b with
  | NaN, _ | _, NaN => false
  | PosInf, PosInf | NegInf, _ | _, PosInf => false
  | PosInf, _ | _, NegInf => true
  | Fin x, Fin y => match (x ?= y)%Q with Gt => true | _ => false end
  end.

(** What the spec calls [clamp(x, lo, hi)]. *)
Definition clamp (x lo hi : Q) : Q := Qmax lo (Qmin x hi).

(** ** Scroll reactor *)

Module Scroll.

(** The text assigned to [style.width]: the empty initial value or the
    template literal [`${n}%`]. *)
Inductive width_text :=
  | WidthUnset
  | Percent (n : number).

Record scroll_options := { top : Q; behavior : string }.

(** The window metrics the handler reads, the two optional controls it
    looks up with [querySelector], and the calls made to
    [window.scrollTo]. *)
Record page := {
  pageYOffset : number;
  scrollHeight : number;           (* document.documentElement.scrollHeight *)
  innerHeight : number;            (* window.innerHeight *)
  scroll_button : option string;   (* style.display of '.scroll-to-top' *)
  progress_bar : option width_text;(* style.width of '.reading-progress' *)
  scrollTo_calls : list scroll_options
}.

Definition set_scroll_button (d : option string) (p : page) : page :=
  {| pageYOffset := pageYOffset p; scrollHeight := scrollHeight p;
     innerHeight := innerHeight p; scroll_button := d;
     progress_bar := progress_bar p; scrollTo_calls := scrollTo_calls p |}.

Definition set_progress_bar (b : option width_text) (p : page) : page :=
  {| pageYOffset := pageYOffset p; scrollHeight := scrollHeight p;
     innerHeight := innerHeight p; scroll_button := scroll_button p;
     progress_bar := b; scrollTo_calls := scrollTo_calls p |}.

Definition window_scrollTo (o : scroll_options) (p : page) : page :=
  {| pageYOffset := pageYOffset p; scrollHeight := scrollHeight p;
     innerHeight := innerHeight p; scroll_button := scroll_button p;
     progress_bar := progress_bar p;
     scrollTo_calls := scrollTo_calls p ++ [o] |}.

Definition smooth_top : scroll_options := {| top := 0; behavior := "smooth" |}.

Module App.

Definition updateScrollButton (p : page) : page :=
  match scroll_button p with
  | Some _ =>
      set_scroll_button
        (Some (if num_gt (pageYOffset p) (Fin 300) then "block" else "none")) p
  | None => p
  end.

Definition updateProgressBar (p : page) : page :=
  match progress_bar p with
  | Some _ =>
      let scrolled :=
        num_mul (num_div (pageYOffset p)
                         (num_sub (scrollHeight p) (innerHeight p)))
                (Fin 100) in
      set_progress_bar (Some (Percent (Math_min scrolled (Fin 100)))) p
  | None => p
  end.

Definition onScroll (p : page) : page :=
  updateProgressBar (updateScrollButton p).

Definition scrollToTop (p : page) : page := window_scrollTo smooth_top p.

(** [handleClicks], as far as this part of the page goes: [action] is
    the [data-action] of the closest tagged ancestor of the click
    target, if any.  The other actions belong to other subsystems
    and leave the scroll state alone. *)
Definition handleClicks (action : option string) (p : page) : page :=
  match action with
  | Some a => if String.eqb a "scroll-to-top" then scrollToTop p else p
  | None => p
  end.

End App.

Module Script.

(** The anonymous listener registered for the window's scroll event. *)
Definition scroll_listener (p : page) : page :=
  match scroll_button p with
  | Some _ =>
      if num_gt (pageYOffset p) (Fin 300)
      then set_scroll_button (Some "block") p
      else set_scroll_button (Some "none") p
  | None => p
  end.

Definition scrollToTop (p : page) : page := window_scrollTo smooth_top p.

End Script.

(** A page scrolled to [s] with document height [H] and viewport [V]. *)
Definition at_offset (s H V : Q) (p : page) : page :=
  {| pageYOffset := Fin s; scrollHeight := Fin H; innerHeight := Fin V;
     scroll_button := scroll_button p; progress_bar := progress_bar p;
     scrollTo_calls := scrollTo_calls p |}.

(** A control counts as visible when its inline display is not ['none']. *)
Definition visible (d : string) : bool := negb (String.eqb d "none").

(** Sample pages: one exactly as tall as the viewport, one taller. *)
Definition short_page : page :=
  {| pageYOffset := Fin 0; scrollHeight := Fin 800; innerHeight := Fin 800;
     scroll_button := None; progress_bar := Some WidthUnset;
     scrollTo_calls := [] |}.

Definition long_page : page :=
  {| pageYOffset := Fin 0; scrollHeight := Fin 2000; innerHeight := Fin 800;
     scroll_button := Some ""; progress_bar := Some WidthUnset;
     scrollTo_calls := [] |}.

End Scroll.

(** ** Throttle wrapper ([PatreonLandingApp.throttle]) *)

Module Throttle.

Section Wrapper.
Context {S A : Type}.

(** The wrapped function: it receives its receiver and arguments [A],
    works on whatever state [S] it closes over, and may throw. *)
Variable func : A -> S -> completion S.
Variable limit : nat.

(** One wrapper instance: the closure variable [inThrottle]
    ([None] is [undefined]), the due times of the pending
    [() => inThrottle = false] timers, the clock, and the state the
    wrapped function works on. *)
Record cell := {
  inThrottle : option bool;
  resets : list nat;
  clock : nat;
  target : S
}.

Definition truthy (f : option bool) : bool :=
  match f with Some true => true | _ => false end.

(** The function returned by [throttle(func, limit)]. *)
Definition throttled (a : A) (c : cell) : completion cell :=
  if negb (truthy (inThrottle c)) then
    match func a (target c) with
    | Normal s =>
        Normal {| inThrottle := Some true;
                  resets := resets c ++ [(clock c + limit)%nat];
                  clock := clock c; target := s |}
    | Throw e s =>
        Throw e {| inThrottle := inThrottle c; resets := resets c;
                   clock := clock c; target := s |}
    end
  else Normal c.

(** Deterministic timers: moving the clock to [t] runs every reset
    whose due time has been reached. *)
Definition advance_to (t : nat) (c : cell) : cell :=
  {| inThrottle :=
       if existsb (λ d, (d <=? t)%nat) (resets c) then Some false else inThrottle c;
     resets := filter (λ d, (t < d)%nat) (resets c);
     clock := clock c `max` t;
     target := target c |}.

(** A call arriving at time [t]: due timers run first.  An exception
    of the wrapped function ends that event only. *)
Definition call_at (t : nat) (a : A) (c : cell) : cell :=
  state_of (throttled a (advance_to t c)).

Definition calls (evs : list (nat * A)) (c : cell) : cell :=
  foldl (λ c ev, call_at ev.1 ev.2 c) c evs.

(** The state in which a window is open until [due]. *)
Definition in_window (due : nat) (s : S) (c : cell) : Prop :=
  inThrottle c = Some true ∧ resets c = [due] ∧ target c = s.

(** The two shapes a wrapper instance can have: no window open and no
    timer pending, or one window with its one timer. *)
Definition settled (c : cell) : Prop :=
  (truthy (inThrottle c) = false ∧ resets c = [])
  ∨ ∃ due, in_window due (target c) c.

(** The instance as [throttle] creates it. *)
Definition fresh (now : nat) (s : S) : cell :=
  {| inThrottle := None; resets := []; clock := now; target := s |}.

End Wrapper.

(** A counter as the wrapped function: each run adds one. *)
Definition count_run (_ : unit) (n : nat) : completion nat := Normal (S n).

Definition idle_cell : cell :=
  {| inThrottle := None; resets := [];
     clock := 100; target := 0%nat |}.

End Throttle.

(** ** Intersection watchers: reveal animation and lazy images *)

Module Watcher.

Definition ref := nat.

Record element := {
  opacity : string;
  transform : string;
  transition : string;
  src : string;
  data_src : option string;     (* dataset.src *)
  classList : list string
}.

Record entry := { target : ref; isIntersecting : bool }.

(** The elements of the page and the targets one [IntersectionObserver]
    currently observes. *)
Record state := {
  elements : gmap ref element;
  observed : gset ref
}.

Definition update (r : ref) (f : element → element) (s : state) : state :=
  {| elements := alter f r (elements s); observed := observed s |}.

Definition observe (r : ref) (s : state) : state :=
  {| elements := elements s; observed := observed s ∪ {[r]} |}.

Definition unobserve (r : ref) (s : state) : state :=
  {| elements := elements s; observed := observed s ∖ {[r]} |}.

Definition forEach {X} (f : X → state → state) (l : list X) (s : state) : state :=
  foldl (λ s x, f x s) s l.

(** The browser's side: it reports entries only for targets that are
    observed when the notification is assembled, then runs the
    callback on them. *)
Definition deliver (callback : list entry → state → state)
    (es : list entry) (s : state) : state :=
  callback (filter (λ e, target e ∈ observed s) es) s.

Definition set_revealed (e : element) : element :=
  {| opacity := "1"; transform := "translateY(0)";
     transition := transition e; src := src e; data_src := data_src e;
     classList := classList e |}.

Definition set_hidden (e : element) : element :=
  {| opacity := "0"; transform := "translateY(30px)";
     transition := "opacity 0.6s ease, transform 0.6s ease";
     src := src e; data_src := data_src e; classList := classList e |}.

(** [img.src = img.dataset.src]: an absent attribute is assigned as the
    text of [undefined]. *)
Definition assign_src (e : element) : element :=
  {| opacity := opacity e; transform := transform e;
     transition := transition e;
     src := default "undefined" (data_src e);
     data_src := data_src e; classList := classList e |}.

Definition classList_remove (c : string) (e : element) : element :=
  {| opacity := opacity e; transform := transform e;
     transition := transition e; src := src e; data_src := data_src e;
     classList := filter (λ x, x ≠ c) (classList e) |}.

Definition classList_add (c : string) (e : element) : element :=
  {| opacity := opacity e; transform := transform e;
     transition := transition e; src := src e; data_src := data_src e;
     classList := if decide (c ∈ classList e) then classList e
                  else classList e ++ [c] |}.

Module Script.

(** [observer], lines 41-48. *)
Definition observer (es : list entry) (s : state) : state :=
  forEach (λ en s,
    if isIntersecting en then update (target en) set_revealed s else s) es s.

(** [imageObserver], lines 86-95. *)
Definition imageObserver (es : list entry) (s : state) : state :=
  forEach (λ en s,
    if isIntersecting en then
      let img := target en in
      unobserve img
        (update img (classList_remove "lazy") (update img assign_src s))
    else s) es s.

(** The DOMContentLoaded listener, lines 51-60. *)
Definition animate_setup (els : list ref) (s : state) : state :=
  forEach (λ el s, observe el (update el set_hidden s)) els s.

End Script.

Module App.

Definition animateElement (el : ref) (s : state) : state :=
  update el set_revealed s.

Definition loadImage (img : ref) (s : state) : state :=
  update img (classList_add "loaded")
    (update img (classList_remove "lazy") (update img assign_src s)).

(** The callback installed by [setupIntersectionObserver]. *)
Definition observer (es : list entry) (s : state) : state :=
  forEach (λ en s,
    if isIntersecting en
    then unobserve (target en) (animateElement (target en) s)
    else s) es s.

(** The callback installed by [setupLazyLoading]. *)
Definition imageObserver (es : list entry) (s : state) : state :=
  forEach (λ en s,
    if isIntersecting en
    then unobserve (target en) (loadImage (target en) s)
    else s) es s.

Definition initializeAnimations (els : list ref) (s : state) : state :=
  forEach (λ el s, observe el (update el set_hidden s)) els s.

End App.

(** What a watcher leaves alone for element [el]: its record, and the
    fact that it is not observed. *)
Definition untouched (el : ref) (e0 : option element) (s : state) : Prop :=
  elements s !! el = e0 ∧ el ∉ observed s.

Definition the_callbacks : list (list entry → state → state) :=
  [Script.observer; Script.imageObserver; App.observer; App.imageObserver].

Definition unobserving : list (list entry → state → state) :=
  [Script.imageObserver; App.observer; App.imageObserver].

Definition card : element :=
  {| opacity := ""; transform := ""; transition := ""; src := "";
     data_src := None; classList := ["benefit-card"] |}.

(** One content card, styled and registered as the page does on load. *)
Definition one_card : state :=
  Script.animate_setup [1%nat] {| elements := {[ 1%nat := card ]}; observed := ∅ |}.

Definition hit : list entry := [{| target := 1%nat; isIntersecting := true |}].

End Watcher.

(** ** Video modal *)

Module VideoModal.

(** The media element: [playable] says whether the browser lets
    [play()] start playback (its promise rejects otherwise). *)
Record media := { paused : bool; currentTime : Q; playable : bool }.

Record document := {
  videoModal : option string;   (* style.display of #videoModal, if present *)
  heroVideo : option media;     (* #heroVideo, if present *)
  body_overflow : string;       (* document.body.style.overflow *)
  console : list string
}.

Definition set_display (d : string) (doc : document) : document :=
  {| videoModal := Some d; heroVideo := heroVideo doc;
     body_overflow := body_overflow doc; console := console doc |}.

Definition set_video (v : media) (doc : document) : document :=
  {| videoModal := videoModal doc; heroVideo := Some v;
     body_overflow := body_overflow doc; console := console doc |}.

Definition set_overflow (o : string) (doc : document) : document :=
  {| videoModal := videoModal doc; heroVideo := heroVideo doc;
     body_overflow := o; console := console doc |}.

Definition console_warn (m : string) (doc : document) : document :=
  {| videoModal := videoModal doc; heroVideo := heroVideo doc;
     body_overflow := body_overflow doc; console := console doc ++ [m] |}.

Definition play (v : media) : media :=
  {| paused := if playable v then false else paused v;
     currentTime := currentTime v; playable := playable v |}.

Definition pause (v : media) : media :=
  {| paused := true; currentTime := currentTime v; playable := playable v |}.

Definition set_currentTime (t : Q) (v : media) : media :=
  {| paused := paused v; currentTime := t; playable := playable v |}.

Definition null_access : exn :=
  TypeError "Cannot read properties of null".

Module Script.

Definition playVideo (doc : document) : completion document :=
  match videoModal doc with
  | None => Throw null_access doc
  | Some _ =>
      let doc := set_display "block" doc in
      match heroVideo doc with
      | None => Throw null_access doc
      | Some video => Normal (set_video (play video) doc)
      end
  end.

Definition closeVideo (doc : document) : completion document :=
  match videoModal doc with
  | None => Throw null_access doc
  | Some _ =>
      let doc := set_display "none" doc in
      match heroVideo doc with
      | None => Throw null_access doc
      | Some video =>
          Normal (set_video (set_currentTime 0 (pause video)) doc)
      end
  end.

End Script.

Module App.

Definition playVideo (doc : document) : completion document :=
  match videoModal doc, heroVideo doc with
  | Some _, Some video =>
      let doc := set_display "block" doc in
      let doc := set_video (play video) doc in
      let doc := if playable video then doc
                 else console_warn "Video play failed:" doc in
      Normal (set_overflow "hidden" doc)
  | _, _ => Normal doc
  end.

Definition closeVideo (doc : document) : completion document :=
  match videoModal doc, heroVideo doc with
  | Some _, Some video =>
      let doc := set_display "none" doc in
      let doc := set_video (set_currentTime 0 (pause video)) doc in
      Normal (set_overflow "" doc)
  | _, _ => Normal doc
  end.

End App.

(** The two states of the spec's state machine, read off the container. *)
Inductive modal_state := CLOSED | OPEN.

Definition modal_state_of (doc : document) : modal_state :=
  match videoModal doc with
  | Some d => if String.eqb d "block" then OPEN else CLOSED
  | None => CLOSED
  end.

(** The part of the state that lives in the DOM (everything except the
    console). *)
Definition dom (doc : document) : option string * option media * string :=
  (videoModal doc, heroVideo doc, body_overflow doc).

(** The CLOSED state as [closeVideo] leaves it: container hidden, page
    scrolling not suppressed. *)
Definition closed (doc : document) : Prop :=
  videoModal doc = Some "none" ∧ body_overflow doc = "".

(** The media reset of [closeVideo]: paused, at position zero. *)
Definition media_reset (v : media) : media :=
  {| paused := true; currentTime := 0; playable := playable v |}.

(** Sample documents. *)
Definition idle_video : media :=
  {| paused := true; currentTime := 0; playable := true |}.

Definition no_modal : document :=
  {| videoModal := None; heroVideo := Some idle_video;
     body_overflow := ""; console := [] |}.

Definition no_video : document :=
  {| videoModal := Some ""; heroVideo := None;
     body_overflow := ""; console := [] |}.

Definition closed_page : document :=
  {| videoModal := Some "none"; heroVideo := Some idle_video;
     body_overflow := ""; console := [] |}.

(** The page as it is loaded: the container carries no inline
    [display] (the style sheet hides it), so [style.display] reads as
    the empty string. *)
Definition initial_page : document :=
  {| videoModal := Some ""; heroVideo := Some idle_video;
     body_overflow := ""; console := [] |}.

End VideoModal.

(** ** Sharing *)

Module Share.

(** The values a property read can produce here: [undefined], a string,
    or one of the built-in objects reachable through [Object.prototype]. *)
Inductive value :=
  | Undefined
  | Str (s : string)
  | Builtin (name : string).

Definition truthy (v : value) : bool :=
  match v with
  | Undefined => false
  | Str s => negb (String.eqb s "")
  | Builtin _ => true
  end.

(** The calls made to [window.open]: url, target, features. *)
Record window := { opened : list (value * string * string) }.

Definition window_open (url : value) (target features : string)
    (w : window) : window :=
  {| opened := opened w ++ [(url, target, features)] |}.

(** *** [encodeURIComponent] on a well-formed string: every UTF-8 byte
    outside the unreserved set becomes [%XX] with upper-case digits. *)

Definition between (lo hi n : nat) : bool := ((lo <=? n) && (n <=? hi))%nat.

Definition unreserved (c : ascii) : bool :=
  let n := nat_of_ascii c in
  between 65 90 n || between 97 122 n || between 48 57 n
  || bool_decide (c ∈ list_ascii_of_string "-_.!~*'()").

Definition hex_digit (n : nat) : ascii :=
  nth n (list_ascii_of_string "0123456789ABCDEF") "0"%char.

Definition percent (c : ascii) : string :=
  let n := nat_of_ascii c in
  String "%"%char (String (hex_digit (n / 16)) (String (hex_digit (n mod 16)) "")).

Fixpoint encodeURIComponent (s : string) : string :=
  match s with
  | "" => ""
  | String c r =>
      if unreserved c then String c (encodeURIComponent r)
      else percent c ++ encodeURIComponent r
  end.

Definition giftUrl : string :=
  "https://www.patreon.com/MesmerizingIndianAILookbook/gift".

(** Property lookup on an object literal: own properties first, then
    the properties every object inherits from [Object.prototype]. *)
Definition Object_prototype : gmap string value :=
  list_to_map
    ((λ k, (k, Builtin k)) <$>
     ["constructor"; "__proto__"; "hasOwnProperty"; "isPrototypeOf";
      "propertyIsEnumerable"; "toLocaleString"; "toString"; "valueOf";
      "__defineGetter__"; "__defineSetter__"; "__lookupGetter__";
      "__lookupSetter__"]).

Definition get (own : gmap string value) (k : string) : value :=
  match own !! k with
  | Some v => v
  | None => default Undefined (Object_prototype !! k)
  end.

Module Script.

Definition text : string :=
  "🎨 Why not gift the world of beautiful AI art? Give someone a special experience!".

Definition shareGift (platform : string) (w : window) : window :=
  let shareUrl :=
    if String.eqb platform "twitter" then
      "https://twitter.com/intent/tweet?text=" ++ encodeURIComponent text
      ++ "&url=" ++ encodeURIComponent giftUrl
    else if String.eqb platform "facebook" then
      "https://www.facebook.com/sharer/sharer.php?u="
      ++ encodeURIComponent giftUrl
    else if String.eqb platform "line" then
      "https://social-plugins.line.me/lineit/share?url="
      ++ encodeURIComponent giftUrl ++ "&text=" ++ encodeURIComponent text
    else "" in
  if truthy (Str shareUrl)
  then window_open (Str shareUrl) "_blank" "width=600,height=400" w
  else w.

End Script.

Module App.

Definition text : string :=
  "ðŸŽ¨ Why not gift the world of beautiful AI art? Give someone a special experience!".

Definition shareUrls : gmap string value :=
  <["twitter" :=
      Str ("https://twitter.com/intent/tweet?text=" ++ encodeURIComponent text
           ++ "&url=" ++ encodeURIComponent giftUrl)]>
  (<["facebook" :=
      Str ("https://www.facebook.com/sharer/sharer.php?u="
           ++ encodeURIComponent giftUrl)]>
  (<["line" :=
      Str ("https://social-plugins.line.me/lineit/share?url="
           ++ encodeURIComponent giftUrl ++ "&text="
           ++ encodeURIComponent text)]> ∅)).

Definition shareGift (platform : string) (w : window) : window :=
  if truthy (get shareUrls platform)
  then window_open (get shareUrls platform) "_blank"
         "width=600,height=400,noopener,noreferrer" w
  else w.

End App.

(** *** Reading a window-features string: comma-separated [name=value]. *)

Fixpoint split (sep : ascii) (s : string) : list string :=
  match s with
  | "" => [""]
  | String c r =>
      if Ascii.eqb c sep then "" :: split sep r
      else match split sep r with
           | x :: xs => String c x :: xs
           | [] => [String c ""]
           end
  end.

Definition name_value (tok : string) : string * string :=
  match split "="%char tok with
  | k :: v :: _ => (k, v)
  | k :: _ => (k, "")
  | [] => ("", "")
  end.

Definition feature (name features : string) : option string :=
  (list_to_map (name_value <$> split ","%char features) : gmap string string) !! name.

(** [sub] occurs in [s]. *)
Definition contains (sub s : string) : Prop :=
  ∃ pre post, s = pre ++ sub ++ post.

(** A character that may appear in percent-encoded output. *)
Definition encoded_char (c : ascii) : bool :=
  unreserved c || Ascii.eqb c "%"%char.

Definition twitter_url (t : string) : string :=
  "https://twitter.com/intent/tweet?text=" ++ encodeURIComponent t
  ++ "&url=" ++ encodeURIComponent giftUrl.

End Share.

(** ** The document, timers, notifications and the clipboard *)

Module Page.

Definition ref := nat.

(** [document.body]. *)
Definition body : ref := 0%nat.

Record element := {
  tagName : string;
  parentNode : option ref;
  className : string;
  textContent : string;
  value : string;
  style : gmap string string    (* inline style declarations *)
}.

Definition set_parent (x : option ref) (e : element) : element :=
  {| tagName := tagName e; parentNode := x; className := className e;
     textContent := textContent e; value := value e; style := style e |}.

Definition set_class (x : string) (e : element) : element :=
  {| tagName := tagName e; parentNode := parentNode e; className := x;
     textContent := textContent e; value := value e; style := style e |}.

Definition set_text (x : string) (e : element) : element :=
  {| tagName := tagName e; parentNode := parentNode e;
     className := className e; textContent := x; value := value e;
     style := style e |}.

Definition set_value (x : string) (e : element) : element :=
  {| tagName := tagName e; parentNode := parentNode e;
     className := className e; textContent := textContent e; value := x;
     style := style e |}.

Definition set_style (x : gmap string string) (e : element) : element :=
  {| tagName := tagName e; parentNode := parentNode e;
     className := className e; textContent := textContent e;
     value := value e; style := x |}.

(** The closures the notification code hands to the timer and frame
    queues; each captures its [notification] node. *)
Inductive task :=
  | Script_exit (n : ref)     (* script.js 224-229: the 3000 ms callback *)
  | Script_remove (n : ref)   (* script.js 226-228: the 300 ms callback *)
  | App_enter (n : ref)       (* app 286-288: the animation-frame callback *)
  | App_exit (n : ref)        (* app 291-298: the 3000 ms callback *)
  | App_remove (n : ref).     (* app 293-297: the 300 ms callback *)

Inductive exec_outcome :=
  | Copy_done        (* returns true, selection copied *)
  | Copy_refused     (* returns false *)
  | Copy_throws.     (* throws *)

Record world := {
  now : nat;   (* virtual clock, in ms *)
  heap : gmap ref element;   (* every element created so far *)
  next_ref : ref;   (* next fresh reference *)
  timers : list (nat * task);   (* pending setTimeout callbacks with their due time *)
  frames : list task;   (* pending requestAnimationFrame callbacks *)
  console : list string;   (* console.error / console.warn lines *)
  uncaught : list exn;   (* exceptions that left a callback of the event loop *)
  clipboard : option bool;   (* navigator.clipboard: absent, or whether writeText resolves *)
  exec_copy : exec_outcome;   (* what document.execCommand('copy') does *)
  system_clipboard : string;   (* text on the system clipboard *)
  selection : option ref;   (* element whose text is selected *)
  activeElement : option ref   (* focused element *)
}.

Definition set_now (x : nat) (w : world) : world :=
  {| now := x; heap := heap w; next_ref := next_ref w; timers := timers w;
     frames := frames w; console := console w; uncaught := uncaught w;
     clipboard := clipboard w; exec_copy := exec_copy w;
     system_clipboard := system_clipboard w; selection := selection w;
     activeElement := activeElement w |}.

Definition set_heap (x : gmap ref element) (w : world) : world :=
  {| now := now w; heap := x; next_ref := next_ref w; timers := timers w;
     frames := frames w; console := console w; uncaught := uncaught w;
     clipboard := clipboard w; exec_copy := exec_copy w;
     system_clipboard := system_clipboard w; selection := selection w;
     activeElement := activeElement w |}.

Definition set_next_ref (x : ref) (w : world) : world :=
  {| now := now w; heap := heap w; next_ref := x; timers := timers w;
     frames := frames w; console := console w; uncaught := uncaught w;
     clipboard := clipboard w; exec_copy := exec_copy w;
     system_clipboard := system_clipboard w; selection := selection w;
     activeElement := activeElement w |}.

Definition set_timers (x : list (nat * task)) (w : world) : world :=
  {| now := now w; heap := heap w; next_ref := next_ref w; timers := x;
     frames := frames w; console := console w; uncaught := uncaught w;
     clipboard := clipboard w; exec_copy := exec_copy w;
     system_clipboard := system_clipboard w; selection := selection w;
     activeElement := activeElement w |}.

Definition set_frames (x : list task) (w : world) : world :=
  {| now := now w; heap := heap w; next_ref := next_ref w;
     timers := timers w; frames := x; console := console w;
     uncaught := uncaught w; clipboard := clipboard w;
     exec_copy := exec_copy w; system_clipboard := system_clipboard w;
     selection := selection w; activeElement := activeElement w |}.

Definition set_console (x : list string) (w : world) : world :=
  {| now := now w; heap := heap w; next_ref := next_ref w;
     timers := timers w; frames := frames w; console := x;
     uncaught := uncaught w; clipboard := clipboard w;
     exec_copy := exec_copy w; system_clipboard := system_clipboard w;
     selection := selection w; activeElement := activeElement w |}.

Definition set_uncaught (x : list exn) (w : world) : world :=
  {| now := now w; heap := heap w; next_ref := next_ref w;
     timers := timers w; frames := frames w; console := console w;
     uncaught := x; clipboard := clipboard w; exec_copy := exec_copy w;
     system_clipboard := system_clipboard w; selection := selection w;
     activeElement := activeElement w |}.

Definition set_clipboard (x : option bool) (w : world) : world :=
  {| now := now w; heap := heap w; next_ref := next_ref w;
     timers := timers w; frames := frames w; console := console w;
     uncaught := uncaught w; clipboard := x; exec_copy := exec_copy w;
     system_clipboard := system_clipboard w; selection := selection w;
     activeElement := activeElement w |}.

Definition set_exec_copy (x : exec_outcome) (w : world) : world :=
  {| now := now w; heap := heap w; next_ref := next_ref w;
     timers := timers w; frames := frames w; console := console w;
     uncaught := uncaught w; clipboard := clipboard w; exec_copy := x;
     system_clipboard := system_clipboard w; selection := selection w;
     activeElement := activeElement w |}.

Definition set_system_clipboard (x : string) (w : world) : world :=
  {| now := now w; heap := heap w; next_ref := next_ref w;
     timers := timers w; frames := frames w; console := console w;
     uncaught := uncaught w; clipboard := clipboard w;
     exec_copy := exec_copy w; system_clipboard := x;
     selection := selection w; activeElement := activeElement w |}.

Definition set_selection (x : option ref) (w : world) : world :=
  {| now := now w; heap := heap w; next_ref := next_ref w;
     timers := timers w; frames := frames w; console := console w;
     uncaught := uncaught w; clipboard := clipboard w;
     exec_copy := exec_copy w; system_clipboard := system_clipboard w;
     selection := x; activeElement := activeElement w |}.

Definition set_activeElement (x : option ref) (w : world) : world :=
  {| now := now w; heap := heap w; next_ref := next_ref w;
     timers := timers w; frames := frames w; console := console w;
     uncaught := uncaught w; clipboard := clipboard w;
     exec_copy := exec_copy w; system_clipboard := system_clipboard w;
     selection := selection w; activeElement := x |}.

(** *** DOM and timer primitives *)

Definition blank (tag : string) : element :=
  {| tagName := tag; parentNode := None; className := "";
     textContent := ""; value := ""; style := ∅ |}.

Definition modify (n : ref) (f : element → element) (w : world) : world :=
  set_heap (alter f n (heap w)) w.

Definition parent_of (n : ref) (w : world) : option ref :=
  heap w !! n ≫= parentNode.

Definition set_property (n : ref) (prop val : string) (w : world) : world :=
  modify n (λ e, set_style (<[prop := val]> (style e)) e) w.

Definition createElement (tag : string) (w : world) : ref * world :=
  let n := next_ref w in
  (n, set_next_ref (S n) (set_heap (<[n := blank tag]> (heap w)) w)).

Definition appendChild (parent child : ref) (w : world) : world :=
  modify child (set_parent (Some parent)) w.

(** [parent.removeChild(child)] throws when [child] is not a child of
    [parent]. *)
Definition removeChild (parent child : ref) (w : world) : completion world :=
  if decide (parent_of child w = Some parent)
  then Normal (modify child (set_parent None) w)
  else Throw NotFoundError w.

Definition setTimeout (k : task) (delay : nat) (w : world) : world :=
  set_timers (timers w ++ [((now w + delay)%nat, k)]) w.

Definition requestAnimationFrame (k : task) (w : world) : world :=
  set_frames (frames w ++ [k]) w.

Definition console_error (m : string) (w : world) : world :=
  set_console (console w ++ [m]) w.

(** [navigator.clipboard.writeText(t)], when the capability exists and
    resolves. *)
Definition writeText (t : string) (w : world) : world :=
  set_system_clipboard t w.

Definition select (n : ref) (w : world) : world := set_selection (Some n) w.

Definition focus (n : ref) (w : world) : world := set_activeElement (Some n) w.

(** The text [execCommand('copy')] puts on the clipboard when it works. *)
Definition copy_selection (w : world) : world :=
  match selection w ≫= (λ n, heap w !! n) with
  | Some e => set_system_clipboard (value e) w
  | None => w
  end.

Definition giftUrl : string :=
  "https://www.patreon.com/MesmerizingIndianAILookbook/gift".

Module Script.

Definition toast_css : gmap string string :=
  list_to_map
    [("position", "fixed"); ("top", "20px"); ("right", "20px");
     ("background", "#28a745"); ("color", "white");
     ("padding", "15px 20px"); ("border-radius", "10px");
     ("z-index", "10000"); ("font-weight", "500");
     ("box-shadow", "0 5px 15px rgba(0,0,0,0.3)");
     ("animation", "slideIn 0.3s ease")].

Definition showCopyNotification (w : world) : world :=
  let '(notification, w) := createElement "div" w in
  let w := modify notification (set_text "Gift link copied to clipboard!") w in
  let w := modify notification (set_style toast_css) w in
  let w := appendChild body notification w in
  setTimeout (Script_exit notification) 3000 w.

(** Body of the 3000 ms callback. *)
Definition exit_callback (notification : ref) (w : world) : completion world :=
  let w := set_property notification "animation" "slideOut 0.3s ease" w in
  Normal (setTimeout (Script_remove notification) 300 w).

(** Body of the 300 ms callback. *)
Definition remove_callback (notification : ref) (w : world) : completion world :=
  removeChild body notification w.

Definition fallbackCopyTextToClipboard (text : string) (w : world)
    : completion world :=
  let '(textArea, w) := createElement "textarea" w in
  let w := modify textArea (set_value text) w in
  let w := set_property textArea "top" "0" w in
  let w := set_property textArea "left" "0" w in
  let w := set_property textArea "position" "fixed" w in
  let w := appendChild body textArea w in
  let w := focus textArea w in
  let w := select textArea w in
  let w :=
    match exec_copy w with
    | Copy_done => showCopyNotification (copy_selection w)
    | Copy_refused => showCopyNotification w
    | Copy_throws => console_error "Fallback: Oops, unable to copy" w
    end in
  removeChild body textArea w.

(** The promise chain is run to its end at the call; an exception
    raised inside a promise callback becomes an unhandled rejection,
    it does not reach the caller. *)
Definition copyGiftLink (w : world) : completion world :=
  match clipboard w with
  | Some true => Normal (showCopyNotification (writeText giftUrl w))
  | Some false =>
      match fallbackCopyTextToClipboard giftUrl w with
      | Normal w => Normal w
      | Throw e w => Normal (set_uncaught (uncaught w ++ [e]) w)
      end
  | None => fallbackCopyTextToClipboard giftUrl w
  end.

End Script.

Module App.

Definition background (type : string) : string :=
  if String.eqb type "success" then "#28a745"
  else if String.eqb type "error" then "#dc3545"
  else "#007bff".

Definition toast_css (type : string) : gmap string string :=
  list_to_map
    [("position", "fixed"); ("top", "20px"); ("right", "20px");
     ("background", background type); ("color", "white");
     ("padding", "15px 20px"); ("border-radius", "10px");
     ("z-index", "10000"); ("font-weight", "500");
     ("box-shadow", "0 5px 15px rgba(0,0,0,0.3)");
     ("transform", "translateX(100%)");
     ("transition", "transform 0.3s ease")].

Definition showNotification (message type : string) (w : world) : world :=
  let '(notification, w) := createElement "div" w in
  let w := modify notification
             (set_class ("notification notification--" ++ type)) w in
  let w := modify notification (set_text message) w in
  let w := modify notification (set_style (toast_css type)) w in
  let w := appendChild body notification w in
  let w := requestAnimationFrame (App_enter notification) w in
  setTimeout (App_exit notification) 3000 w.

(** Body of the animation-frame callback. *)
Definition enter_callback (notification : ref) (w : world) : completion world :=
  Normal (set_property notification "transform" "translateX(0)" w).

(** Body of the 3000 ms callback. *)
Definition exit_callback (notification : ref) (w : world) : completion world :=
  let w := set_property notification "transform" "translateX(100%)" w in
  Normal (setTimeout (App_remove notification) 300 w).

(** Body of the 300 ms callback. *)
Definition remove_callback (notification : ref) (w : world) : completion world :=
  match parent_of notification w with
  | Some _ => removeChild body notification w
  | None => Normal w
  end.

(** [try { execCommand } catch { throw new Error } finally { removeChild }]:
    the node is removed on both paths; an exception of the [finally]
    block would replace the pending one. *)
Definition fallbackCopyText (text : string) (w : world) : completion world :=
  let '(textArea, w) := createElement "textarea" w in
  let w := modify textArea (set_value text) w in
  let w := modify textArea
             (set_style (list_to_map
                [("position", "fixed"); ("top", "0"); ("left", "0");
                 ("opacity", "0"); ("pointer-events", "none")])) w in
  let w := appendChild body textArea w in
  let w := select textArea w in
  match exec_copy w with
  | Copy_done => removeChild body textArea (copy_selection w)
  | Copy_refused => removeChild body textArea w
  | Copy_throws =>
      removeChild body textArea w >>= λ w,
      Throw (Error "Fallback copy failed") w
  end.

(** An [async] function: it never throws to its caller.  The [await]
    is run to its end at the call. *)
Definition copyGiftLink (w : world) : completion world :=
  let attempt :=
    match clipboard w with
    | Some true => Normal (writeText giftUrl w)
    | Some false => Throw (Error "NotAllowedError") w
    | None => fallbackCopyText giftUrl w
    end in
  match attempt with
  | Normal w =>
      Normal (showNotification "Gift link copied to clipboard!" "success" w)
  | Throw _ w =>
      let w := console_error "Copy failed:" w in
      Normal (showNotification "Failed to copy link" "error" w)
  end.

End App.

(** *** The event loop *)

Definition fire (k : task) (w : world) : completion world :=
  match k with
  | Script_exit n => Script.exit_callback n w
  | Script_remove n => Script.remove_callback n w
  | App_enter n => App.enter_callback n w
  | App_exit n => App.exit_callback n w
  | App_remove n => App.remove_callback n w
  end.

(** An exception that leaves a callback is reported and the loop goes on. *)
Definition run_task (k : task) (w : world) : world :=
  match fire k w with
  | Normal w => w
  | Throw e w => set_uncaught (uncaught w ++ [e]) w
  end.

(** The pending timer that fires next: least due time, the one set
    first among equals; returned with the remaining queue. *)
Fixpoint pick (ts : list (nat * task)) : option ((nat * task) * list (nat * task)) :=
  match ts with
  | [] => None
  | x :: r =>
      match pick r with
      | None => Some (x, [])
      | Some (y, r') =>
          if (x.1 <=? y.1)%nat then Some (x, r) else Some (y, x :: r')
      end
  end.

(** One turn of the timer queue up to time [t]: the clock jumps to the
    due time of the timer that fires. *)
Definition step (t : nat) (w : world) : option world :=
  match pick (timers w) with
  | Some ((due, k), rest) =>
      if (due <=? t)%nat
      then Some (run_task k (set_timers rest (set_now (now w `max` due) w)))
      else None
  | None => None
  end.

Fixpoint run (fuel : nat) (t : nat) (w : world) : world :=
  match fuel with
  | O => w
  | S fuel =>
      match step t w with
      | Some w' => run fuel t w'
      | None => w
      end
  end.

(** An exit callback sets one more timer, the others set none: this
    bounds the number of turns. *)
Definition work (k : task) : nat :=
  match k with
  | Script_exit _ | App_exit _ => 2
  | _ => 1
  end.

Definition pending_work (w : world) : nat :=
  sum_list ((λ x, work x.2) <$> timers w).

(** Let the clock reach [t], firing every timer that comes due. *)
Definition advance_to (t : nat) (w : world) : world :=
  let w := run (pending_work w) t w in
  set_now (now w `max` t) w.

(** An animation frame: the callbacks queued so far run in order. *)
Definition frame (w : world) : world :=
  foldl (λ w k, run_task k w) (set_frames [] w) (frames w).

(** What can happen on the page besides timers. *)
Inductive event :=
  | Frame
  | Call_showCopyNotification
  | Call_showNotification (message type : string)
  | Call_copyGiftLink_script
  | Call_copyGiftLink_app.

Definition handle (ev : event) (w : world) : world :=
  match ev with
  | Frame => frame w
  | Call_showCopyNotification => Script.showCopyNotification w
  | Call_showNotification m ty => App.showNotification m ty w
  | Call_copyGiftLink_script =>
      match Script.copyGiftLink w with
      | Normal w => w
      | Throw e w => set_uncaught (uncaught w ++ [e]) w
      end
  | Call_copyGiftLink_app => state_of (App.copyGiftLink w)
  end.

(** A page history: events with the times at which they arrive. *)
Definition play (history : list (nat * event)) (w : world) : world :=
  foldl (λ w x, handle x.2 (advance_to x.1 w)) w history.

(** *** Observations used in the statements *)

Definition attached (n : ref) (w : world) : Prop := parent_of n w = Some body.

Definition detached (n : ref) (w : world) : Prop := parent_of n w = None.

Definition subject (k : task) : ref :=
  match k with
  | Script_exit n | Script_remove n | App_enter n | App_exit n
  | App_remove n => n
  end.

(** The pending timers whose closure holds node [n]. *)
Definition timers_of (n : ref) (w : world) : list (nat * task) :=
  filter (λ x, subject x.2 = n) (timers w).

Definition is_enter (k : task) : Prop :=
  match k with App_enter _ => True | _ => False end.

(** Every pending timer holds a node that has been created, and the
    frame queue holds animation-frame callbacks only. *)
Definition well_formed (w : world) : Prop :=
  Forall (λ x, (subject x.2 < next_ref w)%nat) (timers w)
  ∧ Forall is_enter (frames w).

(** The two notification presenters side by side. *)
Inductive variant := script | app.

Definition show (v : variant) (message type : string) (w : world) : world :=
  match v with
  | script => Script.showCopyNotification w
  | app => App.showNotification message type w
  end.

Definition exit_task (v : variant) (n : ref) : task :=
  match v with script => Script_exit n | app => App_exit n end.

Definition remove_task (v : variant) (n : ref) : task :=
  match v with script => Script_remove n | app => App_remove n end.

(** The style property each presenter's exit callback writes, and the
    value it writes. *)
Definition exit_style (v : variant) : string * string :=
  match v with
  | script => ("animation", "slideOut 0.3s ease")
  | app => ("transform", "translateX(100%)")
  end.

(** The life of a toast whose exit timer is due at [due]: on screen
    with the exit timer pending; leaving, with the removal timer
    pending 300 ms after the exit; gone. *)
Inductive phase := Dwell | Leaving | Gone.

Definition in_phase (v : variant) (n : ref) (due : nat) (ph : phase)
    (w : world) : Prop :=
  match ph with
  | Dwell =>
      attached n w ∧ timers_of n w = [(due, exit_task v n)]
      ∧ (now w ≤ due)%nat
  | Leaving =>
      attached n w ∧ timers_of n w = [((due + 300)%nat, remove_task v n)]
      ∧ (due ≤ now w ≤ due + 300)%nat
  | Gone =>
      detached n w ∧ timers_of n w = [] ∧ (due + 300 ≤ now w)%nat
  end.

Definition phase_at (due t : nat) : phase :=
  if (t <? due)%nat then Dwell
  else if (t <? due + 300)%nat then Leaving
  else Gone.

(** Event times do not go back, starting from [t]. *)
Fixpoint chronological (t : nat) (history : list (nat * event)) : Prop :=
  match history with
  | [] => True
  | x :: history => (t ≤ x.1)%nat ∧ chronological x.1 history
  end.

Definition style_of (n : ref) (prop : string) (w : world) : option string :=
  heap w !! n ≫= (λ e, style e !! prop).

Definition tag_of (n : ref) (w : world) : option string :=
  tagName <$> heap w !! n.

(** A freshly loaded page: only [body] exists, nothing is pending. *)
Definition loaded (clip : option bool) (ex : exec_outcome) : world :=
  {| now := 0; heap := {[ body := blank "body" ]}; next_ref := 1;
     timers := []; frames := []; console := []; uncaught := [];
     clipboard := clip; exec_copy := ex; system_clipboard := "";
     selection := None; activeElement := None |}.

(** What an operation on other nodes leaves alone for node [n]: its
    parent, its pending timers, the clock; references only grow and the
    frame queue keeps holding animation-frame callbacks. *)
Record same_for (n : ref) (w w' : world) : Prop := {
  same_parent : parent_of n w' = parent_of n w;
  same_timers : timers_of n w' = timers_of n w;
  same_now : now w' = now w;
  same_next : (next_ref w ≤ next_ref w')%nat;
  same_frames : Forall is_enter (frames w) → Forall is_enter (frames w')
}.

(** The toast of node [n] is in some phase, and the queues are sane. *)
Definition tracked (v : variant) (n : ref) (due : nat) (w : world) : Prop :=
  (∃ ph, in_phase v n due ph w)
  ∧ Forall is_enter (frames w) ∧ (n < next_ref w)%nat.

(** A page history with a second toast, two frames and a copy. *)
Definition sample_history : list (nat * event) :=
  [(100%nat, Call_showNotification "Saved" "info"); (116%nat, Frame);
   (2000%nat, Call_copyGiftLink_script); (3100%nat, Frame)].

(** A toast that something else took out of the document while its
    removal timer was pending. *)
Definition detached_toast : world :=
  modify 1%nat (set_parent None)
    (advance_to 3000 (show app "Saved" "info" (loaded None Copy_done))).

(** A toast that something else moved into a wrapper of its own while
    its removal timer was pending; the wrapper is not in the document. *)
Definition wrapped_toast : world :=
  let '(wrapper, w) :=
    createElement "div"
      (advance_to 3000 (show app "Saved" "info" (loaded None Copy_done))) in
  appendChild wrapper 1%nat w.

End Page.

(** ** Rate of the throttled function, and the debounce wrapper *)

Module Timing.

Section Runs.
Context {S A : Type}.
Variable func : A -> S -> completion S.
Variable limit : nat.

(** Whether a call arriving at time [t] reaches the wrapped function:
    the flag is clear once the due resets have run. *)
Definition executes (t : nat) (c : Throttle.cell) : bool :=
  negb (Throttle.truthy
          (Throttle.inThrottle (Throttle.advance_to (S := S) t c))).

(** The arrival times of the calls that reach the wrapped function. *)
Fixpoint run_times (evs : list (nat * A)) (c : Throttle.cell) : list nat :=
  match evs with
  | [] => []
  | ev :: evs =>
      (if executes ev.1 c then [ev.1] else [])
      ++ run_times evs (Throttle.call_at func limit ev.1 ev.2 c)
  end.

(** The arguments of those calls, in order. *)
Fixpoint run_args (evs : list (nat * A)) (c : Throttle.cell) : list A :=
  match evs with
  | [] => []
  | ev :: evs =>
      (if executes ev.1 c then [ev.2] else [])
      ++ run_args evs (Throttle.call_at func limit ev.1 ev.2 c)
  end.

(** Running the wrapped function on a list of arguments, one after the
    other; an exception ends that run only. *)
Definition replay (l : list A) (s : S) : S :=
  foldl (λ s a, state_of (func a s)) s l.

(** Call times that do not go back, starting from [t]. *)
Fixpoint in_order (t : nat) (evs : list (nat * A)) : Prop :=
  match evs with
  | [] => True
  | ev :: evs => (t ≤ ev.1)%nat ∧ in_order ev.1 evs
  end.

End Runs.

(** Consecutive times are at least [gap] apart. *)
Fixpoint spaced (gap : nat) (ts : list nat) : Prop :=
  match ts with
  | [] => True
  | t :: ts => Forall (λ u, (t + gap ≤ u)%nat) ts ∧ spaced gap ts
  end.

(** A wrapped function that always throws. *)
Definition failing_run (_ : unit) (n : nat) : completion nat :=
  Throw (Error "boom") (S n).

End Timing.

Module Debounce.

Section Wrapper.
Context {S A : Type}.

Variable func : A -> S -> completion S.
Variable wait : nat.

(** One timer set by the wrapper: its id, its due time and the
    arguments its [later] closure holds. *)
Record timer := { id : nat; due : nat; args : A }.

(** One wrapper instance: the closure variable [timeout] ([None] is
    [undefined]), the timers that are set and not yet fired or cleared,
    the next timer id, the clock, and the state the wrapped function
    works on. *)
Record cell := {
  timeout : option nat;
  pending : list timer;
  next_id : nat;
  clock : nat;
  target : S
}.

(** [clearTimeout(timeout)]: nothing happens for [undefined] or for an
    id that is no longer pending. *)
Definition clearTimeout (handle : option nat) (c : cell) : cell :=
  match handle with
  | Some i =>
      {| timeout := timeout c;
         pending := filter (λ x, id x ≠ i) (pending c);
         next_id := next_id c; clock := clock c; target := target c |}
  | None => c
  end.

(** The function returned by [debounce(func, wait)]. *)
Definition debounced (a : A) (c : cell) : cell :=
  let c := clearTimeout (timeout c) c in
  {| timeout := Some (next_id c);
     pending := pending c ++ [{| id := next_id c; due := (clock c + wait)%nat;
                                  args := a |}];
     next_id := Datatypes.S (next_id c); clock := clock c; target := target c |}.

(** The closure [later] of a call with arguments [a]. *)
Definition later (a : A) (c : cell) : completion cell :=
  let c := clearTimeout (timeout c) c in
  match func a (target c) with
  | Normal s =>
      Normal {| timeout := timeout c; pending := pending c;
                next_id := next_id c; clock := clock c; target := s |}
  | Throw e s =>
      Throw e {| timeout := timeout c; pending := pending c;
                 next_id := next_id c; clock := clock c; target := s |}
  end.

(** The pending timer that fires next: least due time, the one set
    first among equals; returned with the remaining timers. *)
Fixpoint pick (ts : list timer) : option (timer * list timer) :=
  match ts with
  | [] => None
  | x :: r =>
      match pick r with
      | None => Some (x, [])
      | Some (y, r') =>
          if (due x <=? due y)%nat then Some (x, r) else Some (y, x :: r')
      end
  end.

(** One turn of the timer queue up to time [t]; an exception of the
    wrapped function ends that turn only. *)
Definition step (t : nat) (c : cell) : option cell :=
  match pick (pending c) with
  | Some (x, rest) =>
      if (due x <=? t)%nat
      then Some (state_of (later (args x)
             {| timeout := timeout c; pending := rest; next_id := next_id c;
                clock := clock c `max` due x; target := target c |}))
      else None
  | None => None
  end.

Fixpoint run (fuel : nat) (t : nat) (c : cell) : cell :=
  match fuel with
  | O => c
  | Datatypes.S fuel =>
      match step t c with
      | Some c' => run fuel t c'
      | None => c
      end
  end.

(** Let the clock reach [t]: a firing sets no timer, so one turn per
    pending timer is enough. *)
Definition advance_to (t : nat) (c : cell) : cell :=
  let c := run (length (pending c)) t c in
  {| timeout := timeout c; pending := pending c; next_id := next_id c;
     clock := clock c `max` t; target := target c |}.

Definition call_at (t : nat) (a : A) (c : cell) : cell :=
  debounced a (advance_to t c).

Definition calls (evs : list (nat * A)) (c : cell) : cell :=
  foldl (λ c ev, call_at ev.1 ev.2 c) c evs.

(** The instance as [debounce] creates it; timer ids are positive. *)
Definition fresh (now : nat) (s : S) : cell :=
  {| timeout := None; pending := []; next_id := 1; clock := now; target := s |}.

(** No call is waiting, or exactly the latest one is. *)
Definition quiet (c : cell) : Prop := pending c = [].

Definition waiting (d : nat) (a : A) (c : cell) : Prop :=
  ∃ i, timeout c = Some i ∧ pending c = [{| id := i; due := d; args := a |}].

(** Calls that follow one another in less than [wait] ms, the first at
    or after [t]. *)
Fixpoint burst (t : nat) (evs : list (nat * A)) : Prop :=
  match evs with
  | [] => True
  | ev :: evs =>
      (t ≤ ev.1)%nat
      ∧ match evs with
        | [] => True
        | ev' :: _ => (ev'.1 < ev.1 + wait)%nat
        end
      ∧ burst ev.1 evs
  end.

End Wrapper.

End Debounce.

(** ** Form validation ([validateEmail], script.js) *)

Module Email.

(** A string as the regular expression sees it: UTF-16 code units. *)
Definition code_unit := N.

(** The class [\s]: white space and line terminators. *)
Definition is_space (c : code_unit) : bool :=
  bool_decide (c ∈ [9; 10; 11; 12; 13; 32; 160; 5760; 8232; 8233; 8239;
                    8287; 12288; 65279]%N)
  || ((8192 <=? c) && (c <=? 8202))%N.

(** Regular expressions without anchors: the pattern below is anchored
    at both ends, so [test] asks whether the whole string belongs to
    its language. *)
Inductive regex :=
  | Never
  | Empty
  | Class (p : code_unit → bool)
  | Seq (r1 r2 : regex)
  | Alt (r1 r2 : regex)
  | Star (r : regex).

(** [r+] *)
Definition Plus (r : regex) : regex := Seq r (Star r).

Fixpoint nullable (r : regex) : bool :=
  match r with
  | Never => false
  | Empty => true
  | Class _ => false
  | Seq r1 r2 => nullable r1 && nullable r2
  | Alt r1 r2 => nullable r1 || nullable r2
  | Star _ => true
  end.

(** What is left to match after reading [c]. *)
Fixpoint deriv (c : code_unit) (r : regex) : regex :=
  match r with
  | Never => Never
  | Empty => Never
  | Class p => if p c then Empty else Never
  | Seq r1 r2 =>
      if nullable r1
      then Alt (Seq (deriv c r1) r2) (deriv c r2)
      else Seq (deriv c r1) r2
  | Alt r1 r2 => Alt (deriv c r1) (deriv c r2)
  | Star r => Seq (deriv c r) (Star r)
  end.

Fixpoint matches (r : regex) (s : list code_unit) : bool :=
  match s with
  | [] => nullable r
  | c :: s => matches (deriv c r) s
  end.

(** The language of a regular expression. *)
Inductive lang : regex → list code_unit → Prop :=
  | lang_empty : lang Empty []
  | lang_class p c : p c = true → lang (Class p) [c]
  | lang_seq r1 r2 s1 s2 :
      lang r1 s1 → lang r2 s2 → lang (Seq r1 r2) (s1 ++ s2)
  | lang_alt_l r1 r2 s : lang r1 s → lang (Alt r1 r2) s
  | lang_alt_r r1 r2 s : lang r2 s → lang (Alt r1 r2) s
  | lang_star_nil r : lang (Star r) []
  | lang_star_cons r s1 s2 :
      lang r s1 → lang (Star r) s2 → lang (Star r) (s1 ++ s2).

Definition at_sign : code_unit := 64%N.
Definition dot : code_unit := 46%N.

(** [[^\s@]] *)
Definition atom (c : code_unit) : bool :=
  negb (is_space c || (c =? at_sign)%N).

(** [/^[^\s@]+@[^\s@]+\.[^\s@]+$/] *)
Definition re : regex :=
  Seq (Plus (Class atom))
    (Seq (Class (λ c, (c =? at_sign)%N))
       (Seq (Plus (Class atom))
          (Seq (Class (λ c, (c =? dot)%N)) (Plus (Class atom))))).

Definition validateEmail (email : list code_unit) : bool := matches re email.

(** The code units of a string of ASCII characters. *)
Definition units (s : string) : list code_unit :=
  N_of_ascii <$> list_ascii_of_string s.

End Email.

(** ** Markup helpers: loading states, image hints, the mobile menu *)

Module Markup.

Record element := {
  tagName : string;               (* lower-case local name *)
  classList : list string;
  loading : option string         (* the [loading] attribute, if present *)
}.

(** A document is the list of its elements in document order; an
    element is referred to by its position. *)

(** [querySelectorAll]: a static list of the matching elements, in
    document order. *)
Definition querySelectorAll (sel : element → bool) (doc : list element) : list nat :=
  filter (λ i, from_option sel false (doc !! i) = true) (seq 0 (length doc)).

Definition querySelector (sel : element → bool) (doc : list element) : option nat :=
  head (querySelectorAll sel doc).

(** [.c] *)
Definition has_class (c : string) (e : element) : bool :=
  bool_decide (c ∈ classList e).

(** [img:not([loading])] *)
Definition unmarked_image (e : element) : bool :=
  String.eqb (tagName e) "img"
  && match loading e with Some _ => false | None => true end.

Definition classList_remove (c : string) (e : element) : element :=
  {| tagName := tagName e; classList := filter (λ x, x ≠ c) (classList e);
     loading := loading e |}.

Definition classList_add (c : string) (e : element) : element :=
  {| tagName := tagName e;
     classList := if decide (c ∈ classList e) then classList e
                  else classList e ++ [c];
     loading := loading e |}.

Definition classList_toggle (c : string) (e : element) : element :=
  if has_class c e then classList_remove c e else classList_add c e.

Definition set_loading (v : string) (e : element) : element :=
  {| tagName := tagName e; classList := classList e; loading := Some v |}.

(** [nodes.forEach((el, index) => ...)] *)
Definition forEach_indexed (f : nat → nat → list element → list element)
    (nodes : list nat) (doc : list element) : list element :=
  foldl (λ doc x, f x.1 x.2 doc) doc (zip (seq 0 (length nodes)) nodes).

Definition forEach (f : nat → list element → list element)
    (nodes : list nat) (doc : list element) : list element :=
  foldl (λ doc el, f el doc) doc nodes.

Module App.

Definition removeLoadingStates (doc : list element) : list element :=
  forEach (λ el doc, alter (classList_remove "loading") el doc)
    (querySelectorAll (has_class "loading") doc) doc.

Definition optimizeImages (doc : list element) : list element :=
  forEach_indexed
    (λ index img doc,
       if (2 <? index)%nat then alter (set_loading "lazy") img doc else doc)
    (querySelectorAll unmarked_image doc) doc.

End App.

Module Script.

(** The listener of the window's [load] event, lines 255-260. *)
Definition load_listener (doc : list element) : list element :=
  forEach (λ el doc, alter (classList_remove "loading") el doc)
    (querySelectorAll (has_class "loading") doc) doc.

Definition toggleMobileMenu (doc : list element) : list element :=
  match querySelector (has_class "mobile-menu") doc with
  | Some menu => alter (classList_toggle "active") menu doc
  | None => doc
  end.

End Script.

(** Two elements that differ at most in the order of their classes. *)
Definition same_classes (e e' : element) : Prop :=
  tagName e = tagName e' ∧ loading e = loading e'
  ∧ ∀ c, has_class c e = has_class c e'.

(** A page with five images, the second already hinted, and a
    collapsed menu. *)
Definition img (l : option string) : element :=
  {| tagName := "img"; classList := ["loading"]; loading := l |}.

Definition gallery : list element :=
  [img None; img (Some "eager"); img None; img None; img None; img None;
   {| tagName := "nav"; classList := ["mobile-menu"]; loading := None |}].

End Markup.

(** ** Watchers over a whole visit *)

Module Sessions.
Import Watcher.

(** The notifications of one visit, delivered to the same callback. *)
Definition deliveries (callback : list entry → state → state)
    (batches : list (list entry)) (s : state) : state :=
  foldl (λ s es, deliver callback es s) s batches.

(** Entry [en] reports [el] as intersecting. *)
Definition reports (el : ref) (en : entry) : bool :=
  bool_decide (target en = el) && isIntersecting en.

(** Some notification of the visit reports [el] as intersecting. *)
Definition reported (el : ref) (batches : list (list entry)) : bool :=
  existsb (existsb (reports el)) batches.

(** The body of both variants' lazy-loading block: with the observer
    class in [window], every [img[data-src]] is observed. *)
Definition setupLazyLoading (IntersectionObserver_in_window : bool)
    (imgs : list ref) (s : state) : state :=
  if IntersectionObserver_in_window then forEach observe imgs s else s.

(** The three inline style properties the reveal animation writes. *)
Definition style_of (el : ref) (s : state) : option (string * string * string) :=
  (λ e, (opacity e, transform e, transition e)) <$> elements s !! el.

Definition hidden_style : string * string * string :=
  ("0", "translateY(30px)", "opacity 0.6s ease, transform 0.6s ease").

Definition revealed_style : string * string * string :=
  ("1", "translateY(0)", "opacity 0.6s ease, transform 0.6s ease").

(** Waiting for its first intersection; revealed. *)
Definition waiting (el : ref) (s : state) : Prop :=
  style_of el s = Some hidden_style ∧ el ∈ observed s.

Definition revealed (el : ref) (s : state) : Prop :=
  style_of el s = Some revealed_style.

(** The reveal watchers with their set-up, and the image watchers. *)
Definition reveal_watchers
    : list ((list ref → state → state) * (list entry → state → state)) :=
  [(Script.animate_setup, Script.observer);
   (App.initializeAnimations, App.observer)].

(** The image watchers, each with what it does to an image. *)
Definition image_watchers
    : list ((element → element) * (list entry → state → state)) :=
  [(λ e, classList_remove "lazy" (assign_src e), Script.imageObserver);
   (λ e, classList_add "loaded" (classList_remove "lazy" (assign_src e)),
    App.imageObserver)].

(** A lazy image, and a page holding a card and that image. *)
Definition photo : element :=
  {| opacity := ""; transform := ""; transition := ""; src := "";
     data_src := Some "2025-04-12/00005-1269867993.png";
     classList := ["lazy"] |}.

Definition two_elements : state :=
  {| elements := {[ 1%nat := card; 2%nat := photo ]}; observed := ∅ |}.

Definition visit : list (list entry) :=
  [[{| target := 1%nat; isIntersecting := false |}];
   [{| target := 2%nat; isIntersecting := true |};
    {| target := 1%nat; isIntersecting := true |}];
   [{| target := 1%nat; isIntersecting := false |}]].

End Sessions.

(** ** Dismissing the video modal *)

Module ModalEvents.
Import VideoModal.

(** Where a click lands: on the modal container itself (its backdrop),
    or anywhere else. *)
Inductive node := Modal_node | Other_node.

(** A click: its target, and the [data-action] of the closest tagged
    ancestor of the target, if any. *)
Record click := { target : node; action : option string }.

Inductive user_event :=
  | Click (c : click)
  | Keydown (key : string).

(** [document.getElementById('videoModal')]. *)
Definition modal_element (doc : document) : option node :=
  match videoModal doc with Some _ => Some Modal_node | None => None end.

Module App.

(** [handleClicks], as far as the video goes; the other actions leave
    the modal alone. *)
Definition handleClicks (action : option string) (doc : document)
    : completion document :=
  match action with
  | Some a =>
      if String.eqb a "play-video" then VideoModal.App.playVideo doc
      else if String.eqb a "close-video" then VideoModal.App.closeVideo doc
      else Normal doc
  | None => Normal doc
  end.

Definition handleModalClick (target : node) (doc : document)
    : completion document :=
  match modal_element doc, target with
  | Some Modal_node, Modal_node => VideoModal.App.closeVideo doc
  | _, _ => Normal doc
  end.

Definition handleKeyboard (key : string) (doc : document)
    : completion document :=
  if String.eqb key "Escape" then VideoModal.App.closeVideo doc
  else Normal doc.

(** A click reaches the document's listener, then the window's; a
    listener that throws does not stop the next one. *)
Definition dispatch (ev : user_event) (doc : document) : document :=
  match ev with
  | Click c =>
      state_of (handleModalClick (target c)
                  (state_of (handleClicks (action c) doc)))
  | Keydown key => state_of (handleKeyboard key doc)
  end.

Definition events (evs : list user_event) (doc : document) : document :=
  foldl (λ doc ev, dispatch ev doc) doc evs.

End App.

Module Script.

(** [window.onclick], lines 18-23. *)
Definition window_onclick (target : node) (doc : document)
    : completion document :=
  match modal_element doc, target with
  | Some Modal_node, Modal_node => VideoModal.Script.closeVideo doc
  | _, _ => Normal doc
  end.

End Script.

(** What an event asks of the modal: open it, close it, or nothing. *)
Definition command (ev : user_event) : option bool :=
  match ev with
  | Click c =>
      match target c with
      | Modal_node => Some false
      | Other_node =>
          match action c with
          | Some a =>
              if String.eqb a "play-video" then Some true
              else if String.eqb a "close-video" then Some false
              else None
          | None => None
          end
      end
  | Keydown key => if String.eqb key "Escape" then Some false else None
  end.

Definition last_command (evs : list user_event) : option bool :=
  last (omap command evs).

Definition present (doc : document) : Prop :=
  is_Some (videoModal doc) ∧ is_Some (heroVideo doc).

(** Open: container shown, page scrolling suppressed. *)
Definition opened (doc : document) : Prop :=
  videoModal doc = Some "block" ∧ body_overflow doc = "hidden"
  ∧ is_Some (heroVideo doc).

(** Shut: container hidden, page scrolling restored, the video paused
    at its start. *)
Definition shut (doc : document) : Prop :=
  videoModal doc = Some "none" ∧ body_overflow doc = ""
  ∧ ∃ v, heroVideo doc = Some v ∧ paused v = true ∧ currentTime v = 0%Q.

Definition evening : list user_event :=
  [Click {| target := Other_node; action := Some "play-video" |};
   Click {| target := Other_node; action := Some "share-gift" |};
   Keydown "Enter";
   Click {| target := Modal_node; action := None |};
   Keydown "Tab"].

End ModalEvents.

(** ** Housekeeping of the notification code over a whole page history *)

Module Housekeeping.
Import Page.

(** No element exists at or beyond the next reference. *)
Definition heap_fresh (w : world) : Prop :=
  ∀ n, (next_ref w ≤ n)%nat → heap w !! n = None.

(** Node [n] is accounted for: out of the document with no timer
    pending, or under [body] with exactly one timer pending, an exit
    or a removal. *)
Definition kept (n : ref) (w : world) : Prop :=
  (detached n w ∧ timers_of n w = [])
  ∨ (attached n w ∧ ∃ d k, timers_of n w = [(d, k)] ∧ ¬ is_enter k).

Definition tidy (w : world) : Prop :=
  well_formed w ∧ heap_fresh w ∧ uncaught w = [] ∧ ∀ n, kept n w.

(** The longest delay with which each callback is scheduled. *)
Definition slack (k : task) : nat :=
  match k with
  | Script_exit _ | App_exit _ => 3000
  | _ => 300
  end.

(** No pending timer is due later than its delay from now. *)
Definition punctual (w : world) : Prop :=
  Forall (λ x, (x.1 ≤ now w + slack x.2)%nat) (timers w).

(** What an operation keeps besides the nodes: it reports no
    exception, creates elements at fresh references only, leaves the
    clock alone and schedules with the usual delays. *)
Record calm (w w' : world) : Prop := {
  calm_uncaught : uncaught w' = uncaught w;
  calm_fresh : heap_fresh w → heap_fresh w';
  calm_next : (next_ref w ≤ next_ref w')%nat;
  calm_wf : well_formed w → well_formed w';
  calm_now : now w' = now w;
  calm_punctual : punctual w → punctual w'
}.

(** The time a toast still needs once a timer has fired: a removal
    follows an exit after 300 ms. *)
Definition remaining (k : task) : nat :=
  match k with
  | Script_exit _ | App_exit _ => 300
  | _ => 0
  end.

(** During the run that follows the last event, at clock [B]: every
    toast is gone by [B + 3300], and the clock has not passed a pending
    exit. *)
Definition bounded (B : nat) (w : world) : Prop :=
  Forall (λ x, (x.1 + remaining x.2 ≤ B + 3300)%nat
               ∧ (remaining x.2 = 300%nat → (now w ≤ B `max` x.1)%nat))
    (timers w).

(** The latest arrival time in a history. *)
Definition last_arrival (history : list (nat * event)) : nat :=
  max_list (fst <$> history).

(** A short visit: a copy through the controller, then a frame. *)
Definition short_visit : list (nat * event) :=
  [(100%nat, Call_copyGiftLink_app); (116%nat, Frame);
   (150%nat, Call_copyGiftLink_script)].

End Housekeeping.

(** ** What copying the gift link leaves behind *)

Module CopyOutcome.
Import Page.

Definition success : string := "Gift link copied to clipboard!".

Definition failure : string := "Failed to copy link".

(** The text of node [n] when it is a child of [body]. *)
Definition toast_text (n : ref) (w : world) : option string :=
  if decide (parent_of n w = Some body)
  then textContent <$> heap w !! n
  else None.

(** The texts of the nodes created between [w] and [w'] that are in
    the document at [w'], in creation order. *)
Definition new_toasts (w w' : world) : list string :=
  omap (λ n, toast_text n w') (seq (next_ref w) (next_ref w' - next_ref w)).

Definition exec_copies (w : world) : bool :=
  match exec_copy w with Copy_done => true | _ => false end.

Definition exec_throws (w : world) : bool :=
  match exec_copy w with Copy_throws => true | _ => false end.

Definition clipboard_writes (w : world) : bool :=
  match clipboard w with Some true => true | _ => false end.

End CopyOutcome.

(** ** Start-up: what runs when, and what gets registered *)

Module Lifecycle.

Definition ref := Watcher.ref.

(** [document.readyState]. *)
Inductive ready_state := loading | interactive | complete.

Inductive event_target := Document | Window | Node (r : ref).

(** The closures the two variants register as listeners. *)
Inductive listener :=
  | App_onDOMReady              (* app 22 *)
  | App_onWindowLoad            (* app 28 *)
  | App_onScroll_throttled      (* app 31 *)
  | App_handleClicks            (* app 34 *)
  | App_handleModalClick        (* app 37 *)
  | App_handleKeyboard          (* app 40 *)
  | App_anchor_click (a : ref)  (* app 127-136 *)
  | App_trackCTAClick (b : ref) (* app 327 *)
  | Script_window_onclick       (* script.js 18-23 *)
  | Script_anchor_click (a : ref)   (* script.js 27-32 *)
  | Script_animate_setup        (* script.js 51-60 *)
  | Script_cta_click (b : ref)  (* script.js 64-73 *)
  | Script_scroll               (* script.js 117-126 *)
  | Script_preload_loaded       (* script.js 247-252 *)
  | Script_load.                (* script.js 255-260 *)

Record registration := {
  on : event_target;
  type : string;
  callback : listener
}.

(** What can be thrown during start-up. *)
Inductive raised :=
  | ReferenceError (name : string)          (* [name] is not defined *)
  | TypeError_undefined (reading : string). (* property read on [undefined] *)

(** The page as the start-up code sees it.  The four lists are what
    the code's [querySelectorAll] calls return, in document order. *)
Record page := {
  readyState : ready_state;
  IntersectionObserver_in_window : bool;
  anchors : list ref;         (* a[href^="#"] *)
  animateElements : list ref; (* the cards selected for the reveal *)
  lazy_images : list ref;     (* img[data-src] *)
  cta_buttons : list ref;     (* .cta-button *)
  scene : Watcher.state;      (* the elements; the reveal observer's targets *)
  observer : bool;            (* the reveal observer has been created *)
  image_observed : gset ref;  (* the image observer's targets *)
  listeners : list registration;
  body_classList : list string;
  requested : list string;    (* sources assigned to [new Image()] *)
  keyframes : bool;           (* the script's style element is in [head] *)
  unhandled : list raised     (* exceptions that left a listener *)
}.

Definition set_readyState (x : ready_state) (p : page) : page :=
  {| readyState := x;
     IntersectionObserver_in_window := IntersectionObserver_in_window p;
     anchors := anchors p; animateElements := animateElements p;
     lazy_images := lazy_images p; cta_buttons := cta_buttons p;
     scene := scene p; observer := observer p;
     image_observed := image_observed p; listeners := listeners p;
     body_classList := body_classList p; requested := requested p;
     keyframes := keyframes p; unhandled := unhandled p |}.

Definition set_scene (x : Watcher.state) (p : page) : page :=
  {| readyState := readyState p;
     IntersectionObserver_in_window := IntersectionObserver_in_window p;
     anchors := anchors p; animateElements := animateElements p;
     lazy_images := lazy_images p; cta_buttons := cta_buttons p;
     scene := x; observer := observer p;
     image_observed := image_observed p; listeners := listeners p;
     body_classList := body_classList p; requested := requested p;
     keyframes := keyframes p; unhandled := unhandled p |}.

Definition set_observer (x : bool) (p : page) : page :=
  {| readyState := readyState p;
     IntersectionObserver_in_window := IntersectionObserver_in_window p;
     anchors := anchors p; animateElements := animateElements p;
     lazy_images := lazy_images p; cta_buttons := cta_buttons p;
     scene := scene p; observer := x;
     image_observed := image_observed p; listeners := listeners p;
     body_classList := body_classList p; requested := requested p;
     keyframes := keyframes p; unhandled := unhandled p |}.

Definition set_image_observed (x : gset ref) (p : page) : page :=
  {| readyState := readyState p;
     IntersectionObserver_in_window := IntersectionObserver_in_window p;
     anchors := anchors p; animateElements := animateElements p;
     lazy_images := lazy_images p; cta_buttons := cta_buttons p;
     scene := scene p; observer := observer p;
     image_observed := x; listeners := listeners p;
     body_classList := body_classList p; requested := requested p;
     keyframes := keyframes p; unhandled := unhandled p |}.

Definition set_listeners (x : list registration) (p : page) : page :=
  {| readyState := readyState p;
     IntersectionObserver_in_window := IntersectionObserver_in_window p;
     anchors := anchors p; animateElements := animateElements p;
     lazy_images := lazy_images p; cta_buttons := cta_buttons p;
     scene := scene p; observer := observer p;
     image_observed := image_observed p; listeners := x;
     body_classList := body_classList p; requested := requested p;
     keyframes := keyframes p; unhandled := unhandled p |}.

Definition set_body_classList (x : list string) (p : page) : page :=
  {| readyState := readyState p;
     IntersectionObserver_in_window := IntersectionObserver_in_window p;
     anchors := anchors p; animateElements := animateElements p;
     lazy_images := lazy_images p; cta_buttons := cta_buttons p;
     scene := scene p; observer := observer p;
     image_observed := image_observed p; listeners := listeners p;
     body_classList := x; requested := requested p;
     keyframes := keyframes p; unhandled := unhandled p |}.

Definition set_requested (x : list string) (p : page) : page :=
  {| readyState := readyState p;
     IntersectionObserver_in_window := IntersectionObserver_in_window p;
     anchors := anchors p; animateElements := animateElements p;
     lazy_images := lazy_images p; cta_buttons := cta_buttons p;
     scene := scene p; observer := observer p;
     image_observed := image_observed p; listeners := listeners p;
     body_classList := body_classList p; requested := x;
     keyframes := keyframes p; unhandled := unhandled p |}.

Definition set_keyframes (x : bool) (p : page) : page :=
  {| readyState := readyState p;
     IntersectionObserver_in_window := IntersectionObserver_in_window p;
     anchors := anchors p; animateElements := animateElements p;
     lazy_images := lazy_images p; cta_buttons := cta_buttons p;
     scene := scene p; observer := observer p;
     image_observed := image_observed p; listeners := listeners p;
     body_classList := body_classList p; requested := requested p;
     keyframes := x; unhandled := unhandled p |}.

Definition set_unhandled (x : list raised) (p : page) : page :=
  {| readyState := readyState p;
     IntersectionObserver_in_window := IntersectionObserver_in_window p;
     anchors := anchors p; animateElements := animateElements p;
     lazy_images := lazy_images p; cta_buttons := cta_buttons p;
     scene := scene p; observer := observer p;
     image_observed := image_observed p; listeners := listeners p;
     body_classList := body_classList p; requested := requested p;
     keyframes := keyframes p; unhandled := x |}.

(** Start-up code returns or throws; the page is threaded through. *)
Inductive outcome :=
  | Done (p : page)
  | Raised (e : raised) (p : page).

Definition page_of (o : outcome) : page :=
  match o with Done p | Raised _ p => p end.

Definition and_then (o : outcome) (k : page → outcome) : outcome :=
  match o with
  | Done p => k p
  | Raised e p => Raised e p
  end.

Notation "o >>> k" := (and_then o k) (at level 61, left associativity).

Definition addEventListener (t : event_target) (ty : string) (f : listener)
    (p : page) : page :=
  set_listeners
    (listeners p ++ [{| on := t; type := ty; callback := f |}]) p.

(** [list.forEach(x => f(x))] *)
Definition forEach {X} (f : X → page → page) (l : list X) (p : page) : page :=
  foldl (λ p x, f x p) p l.

(** [forEach] with a body that may throw: the first exception ends
    the loop. *)
Fixpoint forEach_throwing {X} (f : X → page → outcome) (l : list X)
    (p : page) : outcome :=
  match l with
  | [] => Done p
  | x :: l => f x p >>> forEach_throwing f l
  end.

Definition classList_add (c : string) (l : list string) : list string :=
  if decide (c ∈ l) then l else l ++ [c].

(** [new Image().src = url] *)
Definition preload (url : string) (p : page) : page :=
  set_requested (requested p ++ [url]) p.

(** [new IntersectionObserver(...)]: the identifier must be defined. *)
Definition new_IntersectionObserver (p : page) : outcome :=
  if IntersectionObserver_in_window p then Done p
  else Raised (ReferenceError "IntersectionObserver") p.

Module App.

Definition setupSmoothScrolling (p : page) : page :=
  forEach (λ a, addEventListener (Node a) "click" (App_anchor_click a))
    (anchors p) p.

(** [this.observer.observe(el)] comes last in the loop body; it needs
    the observer. *)
Definition initializeAnimations (p : page) : outcome :=
  forEach_throwing
    (λ el p,
       let p := set_scene (Watcher.update el Watcher.set_hidden (scene p)) p in
       if observer p
       then Done (set_scene (Watcher.observe el (scene p)) p)
       else Raised (TypeError_undefined "observe") p)
    (animateElements p) p.

Definition onDOMReady (p : page) : outcome :=
  initializeAnimations (setupSmoothScrolling p) >>> λ p,
  Done (set_body_classList (classList_add "loaded" (body_classList p)) p).

Definition bindEvents (p : page) : outcome :=
  (match readyState p with
   | loading =>
       Done (addEventListener Document "DOMContentLoaded" App_onDOMReady p)
   | _ => onDOMReady p
   end) >>> λ p,
  let p := addEventListener Window "load" App_onWindowLoad p in
  let p := addEventListener Window "scroll" App_onScroll_throttled p in
  let p := addEventListener Document "click" App_handleClicks p in
  let p := addEventListener Window "click" App_handleModalClick p in
  Done (addEventListener Document "keydown" App_handleKeyboard p).

Definition setupIntersectionObserver (p : page) : outcome :=
  new_IntersectionObserver p >>> λ p, Done (set_observer true p).

Definition setupLazyLoading (p : page) : page :=
  if IntersectionObserver_in_window p then
    forEach (λ img p, set_image_observed (image_observed p ∪ {[img]}) p)
      (lazy_images p) p
  else p.

Definition criticalImages : list string :=
  ["2025-04-12/00005-1269867993.png"; "2025-04-14/00010-2009244279.png";
   "2025-04-14/00025-2009244294.png"].

Definition preloadCriticalAssets (p : page) : page :=
  forEach preload criticalImages p.

Definition setupAnalytics (p : page) : page :=
  forEach (λ b, addEventListener (Node b) "click" (App_trackCTAClick b))
    (cta_buttons p) p.

Definition init (p : page) : outcome :=
  bindEvents p >>> λ p,
  setupIntersectionObserver p >>> λ p,
  Done (setupAnalytics (preloadCriticalAssets (setupLazyLoading p))).

(** [new PatreonLandingApp()] *)
Definition constructor (p : page) : outcome := init p.

End App.

Module Script.

Definition imageUrls : list string :=
  ["https://images.unsplash.com/photo-1594736797933-d0401ba2fe65?w=800&h=800&fit=crop&crop=face";
   "https://images.unsplash.com/photo-1515886657613-9f3515b0c78f?w=400&h=300&fit=crop";
   "https://images.unsplash.com/photo-1455390582262-044cdead277a?w=400&h=300&fit=crop";
   "https://images.unsplash.com/photo-1492691527719-9d1e07e534b4?w=400&h=300&fit=crop";
   "https://images.unsplash.com/photo-1544005313-94ddf0286df2?w=500&h=600&fit=crop&crop=face"].

Definition preloadImages (p : page) : page := forEach preload imageUrls p.

(** The listener of lines 51-60; [observer] is the constant of line 41. *)
Definition animate_setup (p : page) : page :=
  set_scene (Watcher.Script.animate_setup (animateElements p) (scene p)) p.

(** The listener of lines 247-252. *)
Definition preload_loaded (p : page) : page :=
  let p := preloadImages p in
  set_body_classList (classList_add "loaded" (body_classList p)) p.

(** The statements of script.js in order.  The assignment to
    [window.onclick] is recorded as the window's click registration. *)
Definition main (p : page) : outcome :=
  let p := addEventListener Window "click" Script_window_onclick p in
  let p :=
    forEach (λ a, addEventListener (Node a) "click" (Script_anchor_click a))
      (anchors p) p in
  new_IntersectionObserver p >>> λ p,
  let p := set_observer true p in
  let p := addEventListener Document "DOMContentLoaded" Script_animate_setup p in
  let p :=
    forEach (λ b, addEventListener (Node b) "click" (Script_cta_click b))
      (cta_buttons p) p in
  let p :=
    if IntersectionObserver_in_window p then
      forEach (λ img p, set_image_observed (image_observed p ∪ {[img]}) p)
        (lazy_images p) p
    else p in
  let p := addEventListener Window "scroll" Script_scroll p in
  let p := set_keyframes true p in
  let p :=
    addEventListener Document "DOMContentLoaded" Script_preload_loaded p in
  Done (addEventListener Window "load" Script_load p).

End Script.

(** *** The browser's side *)

Definition on_document (r : registration) : bool :=
  match on r with Document => true | _ => false end.

(** What a listener registered for [DOMContentLoaded] does. *)
Definition run_listener (f : listener) (p : page) : outcome :=
  match f with
  | App_onDOMReady => App.onDOMReady p
  | Script_animate_setup => Done (Script.animate_setup p)
  | Script_preload_loaded => Done (Script.preload_loaded p)
  | _ => Done p
  end.

(** The document has been parsed: the listeners registered on
    [document] for the event run in registration order; an exception
    ends that listener only and is reported. *)
Definition DOMContentLoaded (p : page) : page :=
  let todo :=
    filter (λ r, on_document r && String.eqb (type r) "DOMContentLoaded" = true)
      (listeners p) in
  foldl (λ p r,
           match run_listener (callback r) p with
           | Done p => p
           | Raised e p => set_unhandled (unhandled p ++ [e]) p
           end)
    (set_readyState interactive p) todo.

(** Registering one listener after the other. *)
Definition registered (rs : list registration) (p : page) : page :=
  foldl (λ p r, addEventListener (on r) (type r) (callback r) p) p rs.

Definition click_on (f : ref → listener) (l : list ref) : list registration :=
  (λ r, {| on := Node r; type := "click"; callback := f r |}) <$> l.

(** The six listeners of [bindEvents], with the first when the
    document is still loading. *)
Definition bound_events (first : bool) : list registration :=
  (if first
   then [{| on := Document; type := "DOMContentLoaded";
            callback := App_onDOMReady |}]
   else [])
  ++ [{| on := Window; type := "load"; callback := App_onWindowLoad |};
      {| on := Window; type := "scroll"; callback := App_onScroll_throttled |};
      {| on := Document; type := "click"; callback := App_handleClicks |};
      {| on := Window; type := "click"; callback := App_handleModalClick |};
      {| on := Document; type := "keydown"; callback := App_handleKeyboard |}].

(** The listeners of the flat script, in registration order. *)
Definition script_listeners (anchors cta_buttons : list ref)
    : list registration :=
  ((((({| on := Window; type := "click"; callback := Script_window_onclick |}
       :: click_on Script_anchor_click anchors)
      ++ [{| on := Document; type := "DOMContentLoaded";
             callback := Script_animate_setup |}])
     ++ click_on Script_cta_click cta_buttons)
    ++ [{| on := Window; type := "scroll"; callback := Script_scroll |}])
   ++ [{| on := Document; type := "DOMContentLoaded";
          callback := Script_preload_loaded |}])
  ++ [{| on := Window; type := "load"; callback := Script_load |}].

(** A small page: one anchor, two cards, one lazy image, one button. *)
Definition sample (r : ready_state) (io : bool) : page :=
  {| readyState := r; IntersectionObserver_in_window := io;
     anchors := [5%nat]; animateElements := [1%nat; 3%nat];
     lazy_images := [2%nat]; cta_buttons := [4%nat];
     scene := {| Watcher.elements :=
                   {[ 1%nat := Watcher.card; 3%nat := Watcher.card ]};
                 Watcher.observed := ∅ |};
     observer := false; image_observed := ∅; listeners := [];
     body_classList := []; requested := []; keyframes := false;
     unhandled := [] |}.

End Lifecycle.

(** ** Sharing: every platform *)

Module Platforms.

(** The platforms both variants know. *)
Definition platforms : list string := ["twitter"; "facebook"; "line"].

End Platforms.

(** ** Call-to-action tracking *)

Module Analytics.

(** An element as the tracking code reads it; the text is a list of
    UTF-16 code units. *)
Record element := {
  classList : list string;
  data_action : option string;       (* dataset.action *)
  textContent : list Email.code_unit;
  href : option string               (* [undefined] on elements without one *)
}.

(** What reaches [console.log]. *)
Inductive entry :=
  | App_entry (text : list Email.code_unit) (href timestamp : string)
  | Script_entry (text : list Email.code_unit).

(** [String.prototype.trim]: white space and line terminators go from
    both ends. *)
Fixpoint trimStart (s : list Email.code_unit) : list Email.code_unit :=
  match s with
  | [] => []
  | c :: r => if Email.is_space c then trimStart r else s
  end.

Definition trim (s : list Email.code_unit) : list Email.code_unit :=
  reverse (trimStart (reverse (trimStart s))).

Definition has_class (c : string) (e : element) : bool :=
  bool_decide (c ∈ classList e).

Definition has_action (e : element) : bool :=
  match data_action e with Some _ => true | None => false end.

(** A click is given by the path it bubbles along: the target first,
    then its ancestors.  The listeners of both variants sit on the
    elements that carry the class [cta-button]. *)

(** [target.closest('[data-action]')] *)
Definition closest_action (p : list element) : option element :=
  head (filter (λ e, has_action e = true) p).

Module App.

(** [now] is what [new Date().toISOString()] returns. *)
Definition trackCTAClick (now : string) (button : element)
    (log : list entry) : list entry :=
  (log ++ [App_entry (trim (textContent button))
             (default "" (href button)) now])%list.

(** [handleClicks], as far as the log goes. *)
Definition handleClicks (now : string) (p : list element) (log : list entry)
    : list entry :=
  match closest_action p with
  | Some target =>
      if bool_decide (data_action target = Some "track-cta")
      then trackCTAClick now target log
      else log
  | None => log
  end.

(** One click: the buttons on the path run their listener as the event
    bubbles, then the document's listener runs. *)
Definition click (now : string) (p : list element) (log : list entry) : list entry :=
  handleClicks now p
    (foldl (λ log e,
              if has_class "cta-button" e then trackCTAClick now e log
              else log) log p).

End App.

Module Script.

Definition click (p : list element) (log : list entry) : list entry :=
  foldl (λ log e,
           if has_class "cta-button" e
           then (log ++ [Script_entry (textContent e)])%list
           else log) log p.

End Script.

(** The entry the controller writes for [button]. *)
Definition app_entry (now : string) (button : element) : entry :=
  App_entry (trim (textContent button)) (default "" (href button)) now.

(** The elements a click is tracked for: the buttons on the path, then
    the closest tagged element when its action is [track-cta]. *)
Definition buttons_on (p : list element) : list element :=
  filter (λ e, has_class "cta-button" e = true) p.

Definition tracked_by_action (p : list element) : list element :=
  match closest_action p with
  | Some target =>
      if bool_decide (data_action target = Some "track-cta")
      then [target] else []
  | None => []
  end.

(** A gift button that carries both the class and the action. *)
Definition gift_button : element :=
  {| classList := ["cta-button"; "gift"];
     data_action := Some "track-cta";
     textContent := [32; 71; 105; 102; 116; 10]%N;
     href := Some "https://www.patreon.com/MesmerizingIndianAILookbook/gift" |}.

End Analytics.

(** * Properties *)

(** ** Scroll reactor *)

Section ScrollFacts.
Import Scroll.

Lemma Qsign_pos (q : Q) : (0 < q)%Q → Qsign q = Gt.
Proof. intros Hq. unfold Qsign. by apply Qgt_alt. Qed.

(** With a scrollable range ([V < H]) the assigned width is the clamped
    percentage. *)
Lemma updateProgressBar_in_range (s H V : Q) (p : page) (w0 : width_text) :
  (0 <= s)%Q → (V < H)%Q → progress_bar p = Some w0 →
  ∃ q, progress_bar (App.updateProgressBar (at_offset s H V p))
         = Some (Percent (Fin q))
       ∧ (q == clamp (s / (H - V) * 100) 0 100)%Q.
Proof.
  intros Hs HVH Hbar.
  assert (Hpos : (0 < H - V)%Q).
  { unfold Qminus. rewrite <- (Qplus_opp_r V).
    apply Qplus_lt_l. exact HVH. }
  unfold App.updateProgressBar, at_offset; simpl. rewrite Hbar; simpl.
  rewrite (Qsign_pos _ Hpos).
  exists (Qmin (s / (H - V) * 100) 100). split; [reflexivity|].
  unfold clamp. symmetry. apply Q.max_r.
  apply Q.min_glb; [|discriminate].
  apply Qmult_le_0_compat; [|discriminate].
  apply Qle_shift_div_l; [exact Hpos|].
  by rewrite Qmult_0_l.
Qed.

(** C1, at a page exactly as tall as the viewport ([H = V = 800]): the
    handler divides by zero.  At offset 0 it assigns the text [NaN%],
    at a positive offset it assigns [100%]; in neither case the width
    0 that the property asks for. *)
Theorem updateProgressBar_zero_range :
  progress_bar (App.updateProgressBar short_page) = Some (Percent NaN)
  ∧ progress_bar (App.updateProgressBar (at_offset 5 800 800 short_page))
    = Some (Percent (Fin 100))
  ∧ progress_bar (App.onScroll short_page) ≠ Some (Percent (Fin 0)).
Proof. repeat split. discriminate. Qed.

(** C8: after the scroll handler of either variant has run at offset
    [s], the scroll-to-top control is displayed exactly when [s > 300];
    a click on it ([data-action = scroll-to-top], or a direct call of
    [scrollToTop]) asks the window to scroll to offset 0. *)
Theorem scroll_button_visible_iff (s H V : Q) (p : page) (d0 : string) :
  (0 <= s)%Q → scroll_button p = Some d0 →
  (∃ d, scroll_button (App.onScroll (at_offset s H V p)) = Some d
        ∧ (visible d = true ↔ (300 < s)%Q))
  ∧ (∃ d, scroll_button (Script.scroll_listener (at_offset s H V p)) = Some d
          ∧ (visible d = true ↔ (300 < s)%Q))
  ∧ scrollTo_calls (App.handleClicks (Some "scroll-to-top") p)
    = (scrollTo_calls p ++ [{| top := 0; behavior := "smooth" |}])%list
  ∧ scrollTo_calls (App.scrollToTop p)
    = (scrollTo_calls p ++ [{| top := 0; behavior := "smooth" |}])%list
  ∧ scrollTo_calls (Script.scrollToTop p)
    = (scrollTo_calls p ++ [{| top := 0; behavior := "smooth" |}])%list.
Proof.
  intros _ Hbtn.
  assert (Hcmp : ∀ d, d = (if num_gt (Fin s) (Fin 300) then "block" else "none")
                      → (visible d = true ↔ (300 < s)%Q)).
  { intros d ->. simpl. rewrite (Qgt_alt s 300).
    destruct (s ?= 300)%Q; vm_compute; split; congruence. }
  split; [|split; [|by repeat split]].
  - unfold App.onScroll, App.updateProgressBar, App.updateScrollButton,
      at_offset; simpl. rewrite Hbtn; simpl.
    eexists. split; [|apply Hcmp; reflexivity].
    by destruct (progress_bar p).
  - unfold Script.scroll_listener, at_offset; simpl. rewrite Hbtn; simpl.
    exists (if num_gt (Fin s) (Fin 300) then "block" else "none").
    split; [|by apply Hcmp]. simpl. by destruct (s ?= 300)%Q.
Qed.

Lemma scroll_button_visible_iff_witness :
  (0 <= 301)%Q ∧ scroll_button long_page = Some ""
  ∧ ∃ d, scroll_button (App.onScroll (at_offset 301 2000 800 long_page)) = Some d
         ∧ (visible d = true ↔ (300 < 301)%Q).
Proof.
  split; [discriminate|]. split; [reflexivity|].
  apply (scroll_button_visible_iff 301 2000 800 long_page "");
    [discriminate | reflexivity].
Defined.

End ScrollFacts.

(** ** Video modal *)

Section VideoModalFacts.
Import VideoModal.

(** The controller variant guards both lookups: with either element
    missing, open and close return normally and change nothing. *)
Lemma app_modal_absent_noop (doc : document) :
  videoModal doc = None ∨ heroVideo doc = None →
  App.playVideo doc = Normal doc ∧ App.closeVideo doc = Normal doc.
Proof.
  unfold App.playVideo, App.closeVideo.
  intros [H|H]; rewrite H; by destruct (videoModal doc).
Qed.

(** C3, on the flat script: without the container both operations
    throw a TypeError; with the container but without the media
    element they first change the container's display and then throw. *)
Theorem script_modal_absent_throws :
  Script.playVideo no_modal = Throw null_access no_modal
  ∧ Script.closeVideo no_modal = Throw null_access no_modal
  ∧ Script.playVideo no_video = Throw null_access (set_display "block" no_video)
  ∧ Script.closeVideo no_video = Throw null_access (set_display "none" no_video)
  ∧ set_display "block" no_video ≠ no_video.
Proof. repeat split. discriminate. Qed.

(** C7, as amended: with both elements present, in either variant,
    opening twice leaves the same DOM as opening once, and the modal is
    OPEN; closing leaves the modal CLOSED and a second close changes
    nothing at all.  Closing writes the container's display, the media
    reset and, in the controller, the page's overflow, and nothing
    else; so it changes only the media element, to paused at position
    0, exactly when the display is already ['none'] (and, in the
    controller, the overflow already empty). *)
Theorem video_modal_idempotent (doc : document) (d : string) (v : media) :
  videoModal doc = Some d → heroVideo doc = Some v →
  (∃ o1 o2, App.playVideo doc = Normal o1 ∧ App.playVideo o1 = Normal o2
            ∧ modal_state_of o1 = OPEN ∧ modal_state_of o2 = OPEN
            ∧ dom o2 = dom o1)
  ∧ (∃ o1 o2, Script.playVideo doc = Normal o1 ∧ Script.playVideo o1 = Normal o2
              ∧ modal_state_of o1 = OPEN ∧ modal_state_of o2 = OPEN
              ∧ dom o2 = dom o1)
  ∧ (∃ c1, App.closeVideo doc = Normal c1 ∧ modal_state_of c1 = CLOSED
           ∧ App.closeVideo c1 = Normal c1
           ∧ c1 = set_overflow ""
                    (set_video (media_reset v) (set_display "none" doc))
           ∧ (c1 = set_video (media_reset v) doc ↔ closed doc))
  ∧ (∃ c1, Script.closeVideo doc = Normal c1 ∧ modal_state_of c1 = CLOSED
           ∧ Script.closeVideo c1 = Normal c1
           ∧ c1 = set_video (media_reset v) (set_display "none" doc)
           ∧ (c1 = set_video (media_reset v) doc
              ↔ videoModal doc = Some "none")).
Proof.
  intros Hm Hv. destruct doc as [m hv o c]; simpl in *; subst.
  repeat split.
  - unfold App.playVideo; destruct v as [p t []]; simpl;
      do 2 eexists; (split; [reflexivity|]); by split.
  - unfold Script.playVideo; destruct v as [p t []]; simpl;
      do 2 eexists; (split; [reflexivity|]); by split.
  - unfold App.closeVideo; simpl. eexists.
    split; [reflexivity|]. do 3 (split; [reflexivity|]).
    unfold closed, set_video, media_reset; simpl. split.
    + intros [= <- <-]. by split.
    + intros [Hd Ho]. by simplify_eq.
  - unfold Script.closeVideo; simpl. eexists.
    split; [reflexivity|]. do 3 (split; [reflexivity|]).
    unfold set_video, media_reset; simpl. split.
    + by intros [= <-].
    + intros Hd. by simplify_eq.
Qed.

(** C7, as the claim states it: on the page as loaded the modal is
    CLOSED, and closing it changes more than the media element: the
    container's inline display goes from empty to ['none'], in both
    variants. *)
Lemma closeVideo_initial_page_writes_display :
  modal_state_of initial_page = CLOSED
  ∧ Script.closeVideo initial_page = Normal closed_page
  ∧ App.closeVideo initial_page = Normal closed_page
  ∧ closed_page ≠ set_video (media_reset idle_video) initial_page
  ∧ videoModal initial_page ≠ videoModal closed_page.
Proof. repeat split; discriminate. Qed.

Lemma video_modal_idempotent_witness :
  videoModal closed_page = Some "none"
  ∧ heroVideo closed_page = Some idle_video
  ∧ ∃ c1, App.closeVideo closed_page = Normal c1
          ∧ modal_state_of c1 = CLOSED
          ∧ App.closeVideo c1 = Normal c1
          ∧ c1 = set_overflow ""
                   (set_video (media_reset idle_video)
                      (set_display "none" closed_page))
          ∧ (c1 = set_video (media_reset idle_video) closed_page
             ↔ closed closed_page).
Proof.
  split; [reflexivity|]. split; [reflexivity|].
  exact (proj1 (proj2 (proj2
           (video_modal_idempotent closed_page "none" idle_video
              eq_refl eq_refl)))).
Defined.

End VideoModalFacts.

(** ** Sharing *)

Section ShareFacts.
Import Share.

Lemma percent_encoded (c : ascii) :
  forallb encoded_char (list_ascii_of_string (percent c)) = true.
Proof. destruct c as [[] [] [] [] [] [] [] []]; reflexivity. Qed.

(** The output of [encodeURIComponent] consists of unreserved
    characters and percent escapes only. *)
Lemma encodeURIComponent_encoded (s : string) :
  forallb encoded_char (list_ascii_of_string (encodeURIComponent s)) = true.
Proof.
  induction s as [|c s IH]; [reflexivity|]. simpl.
  destruct (unreserved c) eqn:Hc; simpl.
  - unfold encoded_char at 1. by rewrite Hc, IH.
  - pose proof (percent_encoded c) as Hp. unfold percent in *. simpl in *.
    change (String.append "" (encodeURIComponent s)) with (encodeURIComponent s).
    rewrite IH.
    repeat (apply andb_prop in Hp as [-> Hp]). done.
Qed.

(** [shareGift('twitter')], both variants: one call of [window.open],
    whose URL carries the encoded text and gift URL and whose features
    ask for 600 by 400. *)
Lemma shareGift_twitter (w : window) :
  (∃ f, opened (Script.shareGift "twitter" w)
        = (opened w ++
           [(Str ("https://twitter.com/intent/tweet?text="
                  ++ encodeURIComponent Script.text
                  ++ "&url=" ++ encodeURIComponent giftUrl), "_blank", f)])%list
        ∧ feature "width" f = Some "600" ∧ feature "height" f = Some "400")
  ∧ (∃ f, opened (App.shareGift "twitter" w)
          = (opened w ++
             [(Str ("https://twitter.com/intent/tweet?text="
                    ++ encodeURIComponent App.text
                    ++ "&url=" ++ encodeURIComponent giftUrl), "_blank", f)])%list
          ∧ feature "width" f = Some "600" ∧ feature "height" f = Some "400").
Proof.
  split.
  - exists "width=600,height=400". by vm_compute.
  - exists "width=600,height=400,noopener,noreferrer". by vm_compute.
Qed.

Lemma twitter_url_contains :
  ∀ t, t ∈ [Script.text; App.text] →
    contains ("text=" ++ encodeURIComponent t) (twitter_url t)
    ∧ contains ("url=" ++ encodeURIComponent giftUrl) (twitter_url t).
Proof.
  intros t Ht.
  apply elem_of_cons in Ht as [-> | Ht];
    [|apply list_elem_of_singleton in Ht as ->].
  - split.
    + exists "https://twitter.com/intent/tweet?",
        ("&url=" ++ encodeURIComponent giftUrl). by vm_compute.
    + exists ("https://twitter.com/intent/tweet?text="
              ++ encodeURIComponent Script.text ++ "&"), "". by vm_compute.
  - split.
    + exists "https://twitter.com/intent/tweet?",
        ("&url=" ++ encodeURIComponent giftUrl). by vm_compute.
    + exists ("https://twitter.com/intent/tweet?text="
              ++ encodeURIComponent App.text ++ "&"), "". by vm_compute.
Qed.

(** Closes a goal that contradicts [Hp : x ∉ l] for a listed [x]. *)
Ltac listed Hp := exfalso; apply Hp; repeat constructor.

(** The flat script dispatches with a [switch]: any other platform
    opens nothing. *)
Lemma script_shareGift_unknown (platform : string) (w : window) :
  platform ∉ ["twitter"; "facebook"; "line"] →
  Script.shareGift platform w = w.
Proof.
  intros Hp. unfold Script.shareGift.
  destruct (String.eqb_spec platform "twitter") as [->|_]; [listed Hp|].
  destruct (String.eqb_spec platform "facebook") as [->|_]; [listed Hp|].
  destruct (String.eqb_spec platform "line") as [->|_]; [listed Hp|].
  reflexivity.
Qed.

(** The controller does the same for every platform that is not the
    name of a property inherited from [Object.prototype]. *)
Lemma app_shareGift_unknown (platform : string) (w : window) :
  platform ∉ ["twitter"; "facebook"; "line"] →
  Object_prototype !! platform = None →
  App.shareGift platform w = w.
Proof.
  intros Hp Hproto. unfold App.shareGift, get, App.shareUrls.
  rewrite !lookup_insert_ne, lookup_empty by (intros <-; listed Hp).
  by rewrite Hproto.
Qed.

(** C5, on the controller: the platform table is an object literal
    read with [shareUrls[platform]], so a platform named like an
    inherited property, here [constructor], finds a truthy value and a
    window is opened although the platform is none of the three. *)
Theorem app_shareGift_inherited_name_opens :
("constructor" ∉ ["twitter"; "facebook"; "line"])
  ∧ opened (App.shareGift "constructor" {| opened := [] |})
    = [(Builtin "constructor", "_blank",
        "width=600,height=400,noopener,noreferrer")]
  ∧ opened (Script.shareGift "constructor" {| opened := [] |}) = [].
Proof.
  split; [|split; by vm_compute].
  intros H. repeat (apply elem_of_cons in H as [H|H]; [discriminate|]).
  by apply elem_of_nil in H.
Qed.

End ShareFacts.

(** ** Throttle wrapper *)

Section ThrottleFacts.
Import Throttle.
Context {S A : Type} (func : A → S → completion S) (limit : nat).

Lemma advance_in_window (due t : nat) (s : S) (c : cell) :
  (t < due)%nat → in_window due s c → in_window due s (advance_to t c).
Proof.
  intros Ht (Hflag & Hres & Htgt). unfold in_window, advance_to; simpl.
  rewrite Hres; simpl.
  destruct (Nat.leb_spec due t); [lia|].
  rewrite Hflag. repeat split; [|done].
  rewrite filter_cons_True by done. done.
Qed.

Lemma throttled_in_window (due : nat) (s : S) (a : A) (c : cell) :
  in_window due s c → throttled func limit a c = Normal c.
Proof. intros (Hflag & _ & _). unfold throttled. by rewrite Hflag. Qed.

Lemma calls_in_window (due : nat) (s : S) (evs : list (nat * A)) (c : cell) :
  Forall (λ ev, (ev.1 < due)%nat) evs →
  in_window due s c → in_window due s (calls func limit evs c).
Proof.
  intros Hevs. revert c.
  induction Hevs as [|[t a] evs Ht _ IH]; intros c Hc; [done|].
  simpl in *. apply IH. unfold call_at.
  rewrite (throttled_in_window due s); by apply advance_in_window.
Qed.

Lemma advance_closes_window (due t : nat) (s : S) (c : cell) :
  (due ≤ t)%nat → in_window due s c →
  inThrottle (advance_to t c) = Some false
  ∧ resets (advance_to t c) = [] ∧ target (advance_to t c) = s.
Proof.
  intros Ht (Hflag & Hres & Htgt). unfold advance_to; simpl.
  rewrite Hres; simpl.
  destruct (Nat.leb_spec due t); [|lia].
  repeat split; [|done].
  rewrite filter_cons_False by lia. done.
Qed.

(** Every state a wrapper instance can reach is of one of the two
    shapes, so a call that finds the flag clear finds no timer pending. *)
Lemma calls_settled (evs : list (nat * A)) (c : cell) :
  settled c → settled (calls func limit evs c).
Proof.
  revert c. induction evs as [|[t a] evs IH]; intros c Hc; [done|].
  simpl. apply IH. clear IH. unfold call_at.
  assert (Hadv : settled (advance_to t c)).
  { destruct Hc as [[Hflag Hres]|[due Hwin]].
    - left. unfold advance_to; simpl. rewrite Hres. by simpl.
    - destruct (decide (t < due)%nat) as [Hlt|Hge].
      + right. exists due. by apply advance_in_window.
      + left.
        destruct (advance_closes_window due t (target c) c) as (Hf & Hr & _);
          [lia|done|]. by rewrite Hf, Hr. }
  destruct Hadv as [[Hflag Hres]|[due Hwin]].
  - unfold throttled. rewrite Hflag. cbn [negb].
    destruct (func a (target (advance_to t c))) as [s|e s]; cbn [state_of].
    + right. exists (clock (advance_to t c) + limit)%nat.
      unfold in_window. cbn [inThrottle resets target]. by rewrite Hres.
    + by left.
  - rewrite (throttled_in_window due (target (advance_to t c))) by done.
    right. by exists due.
Qed.

Lemma fresh_settled (now : nat) (s : S) : settled (fresh now s).
Proof. by left. Qed.

(** C9, as amended: a call that finds no window open runs the wrapped function at
    that call, with its outcome; if it returns, every call that arrives
    before [limit] ms have passed is dropped (the wrapped function's
    state stays what the leading call left, nothing is queued), and
    when the window ends the timer only clears the flag: no dropped
    call is run late, and the next call runs at once again. *)
Theorem throttle_leading_edge (c : cell) (a : A) :
  truthy (inThrottle c) = false → resets c = [] →
  target (state_of (throttled func limit a c)) = state_of (func a (target c))
  ∧ throws (throttled func limit a c) = throws (func a (target c))
  ∧ ∀ s, func a (target c) = Normal s →
      ∀ evs : list (nat * A),
        Forall (λ ev, (ev.1 < clock c + limit)%nat) evs →
        let c' := calls func limit evs (state_of (throttled func limit a c)) in
        target c' = s
        ∧ resets c' = [(clock c + limit)%nat]
        ∧ ∀ t a', (clock c + limit ≤ t)%nat →
            target (advance_to t c') = s
            ∧ resets (advance_to t c') = []
            ∧ target (call_at func limit t a' c') = state_of (func a' s).
Proof.
  intros Hflag Hres.
  split; [unfold throttled; rewrite Hflag; by destruct (func a (target c))|].
  split; [unfold throttled; rewrite Hflag; by destruct (func a (target c))|].
  intros s Hs evs Hevs c'.
  assert (Hwin : in_window (clock c + limit) s c').
  { apply calls_in_window; [done|]. unfold throttled.
    rewrite Hflag, Hs; simpl. rewrite Hres. by repeat split. }
  destruct Hwin as (Hf & Hr & Ht). repeat split; [done..| | |].
  - intros; by apply (advance_closes_window (clock c + limit)).
  - intros; by apply (advance_closes_window (clock c + limit) t s).
  - destruct (advance_closes_window (clock c + limit) t s c')
      as (Hf' & Hr' & Ht'); [done..|].
    unfold call_at, throttled. rewrite Hf', Ht'; simpl.
    by destruct (func a' s).
Qed.

End ThrottleFacts.

Lemma throttle_leading_edge_witness :
  Throttle.truthy (Throttle.inThrottle Throttle.idle_cell) = false
  ∧ Throttle.resets Throttle.idle_cell = []
  ∧ Throttle.target
      (Throttle.calls Throttle.count_run 16 [(100, ()); (105, ()); (115, ())]%nat
         (state_of (Throttle.throttled Throttle.count_run 16 () Throttle.idle_cell))) = 1%nat.
Proof.
  split; [reflexivity|]. split; [reflexivity|].
  refine (proj1 (proj2 (proj2
            (throttle_leading_edge Throttle.count_run 16 Throttle.idle_cell () eq_refl eq_refl))
            1%nat eq_refl [(100, ()); (105, ()); (115, ())]%nat _)).
  repeat (apply Forall_cons; split; [unfold Throttle.idle_cell; simpl; lia|]).
  constructor.
Defined.

(** C9, as the claim states it: with a wrapped function that throws,
    a call 5 ms after an execution, inside the 16 ms interval, is not
    discarded: the wrapped function runs again. *)
Lemma throttle_throw_reruns_in_interval :
  Throttle.truthy (Throttle.inThrottle Throttle.idle_cell) = false
  ∧ Throttle.resets Throttle.idle_cell = []
  ∧ Throttle.target
      (state_of (Throttle.throttled Timing.failing_run 16 ()
                   Throttle.idle_cell)) = 1%nat
  ∧ Throttle.target
      (Throttle.call_at Timing.failing_run 16 105 ()
         (state_of (Throttle.throttled Timing.failing_run 16 ()
                      Throttle.idle_cell))) = 2%nat.
Proof. repeat split. Qed.

(** ** Intersection watchers *)

Section WatcherFacts.
Import Watcher.

(** A fold over entries keeps whatever every single entry keeps. *)
Lemma forEach_keeps {X} (P : state → Prop) (Q : X → Prop)
    (f : X → state → state) (l : list X) (s : state) :
  (∀ x s, Q x → P s → P (f x s)) → Forall Q l → P s → P (forEach f l s).
Proof.
  intros Hstep Hl. revert s. unfold forEach.
  induction Hl as [|x l Hx _ IH]; intros s Hs; simpl; [done|].
  apply IH. by apply Hstep.
Qed.

Lemma update_untouched el e0 r f s :
  r ≠ el → untouched el e0 s → untouched el e0 (update r f s).
Proof.
  intros Hne [He Ho]. split; [|done]. simpl. by rewrite lookup_alter_ne.
Qed.

Lemma unobserve_out (el : ref) (s : state) : el ∉ observed (unobserve el s).
Proof. simpl. apply not_elem_of_difference. right. by apply elem_of_singleton. Qed.

Lemma unobserve_keeps_out (el r : ref) (s : state) :
  el ∉ observed s → el ∉ observed (unobserve r s).
Proof. intros Ho. simpl. apply not_elem_of_difference. by left. Qed.

Lemma unobserve_untouched el e0 r s :
  untouched el e0 s → untouched el e0 (unobserve r s).
Proof. intros [He Ho]. split; [done|]. by apply unobserve_keeps_out. Qed.

(** An element that is not observed is never touched by a delivery,
    whatever the browser has to report, and stays unobserved. *)
Lemma deliver_unobserved (cb : list entry → state → state)
    (el : ref) (es : list entry) (s : state) :
  cb ∈ the_callbacks → el ∉ observed s →
  elements (deliver cb es s) !! el = elements s !! el
  ∧ el ∉ observed (deliver cb es s).
Proof.
  intros Hcb Hel.
  assert (Hes : Forall (λ en, target en ≠ el)
                  (filter (λ e, target e ∈ observed s) es)).
  { apply Forall_forall. intros en Hen.
    apply list_elem_of_filter in Hen as [Hin _]. by intros <-. }
  assert (H0 : untouched el (elements s !! el) s) by done.
  unfold deliver. revert Hes H0.
  generalize (filter (λ e, target e ∈ observed s) es) as l.
  generalize (elements s !! el) as e0. intros e0 l Hl H0.
  unfold the_callbacks in Hcb.
  repeat (apply elem_of_cons in Hcb as [-> | Hcb]);
    [..|by apply elem_of_nil in Hcb];
    (eapply (forEach_keeps (untouched el e0)); [|exact Hl|exact H0]);
    intros en s' Hne Hs'; simpl; destruct (isIntersecting en); try done;
    unfold App.animateElement, App.loadImage;
    repeat first [apply unobserve_untouched | apply update_untouched];
    done.
Qed.

(** The three watchers that call [unobserve]: once an intersecting
    entry for [el] has been delivered, [el] is no longer observed. *)
Lemma deliver_unobserves (cb : list entry → state → state)
    (el : ref) (es : list entry) (s : state) :
  cb ∈ unobserving → el ∈ observed s →
  {| target := el; isIntersecting := true |} ∈ es →
  el ∉ observed (deliver cb es s).
Proof.
  intros Hcb Hel Hen.
  assert (Hin : {| target := el; isIntersecting := true |}
                ∈ filter (λ e, target e ∈ observed s) es).
  { by apply list_elem_of_filter. }
  unfold deliver. revert Hin.
  generalize (filter (λ e, target e ∈ observed s) es) as l. intros l Hin.
  apply list_elem_of_split in Hin as (l1 & l2 & ->).
  unfold unobserving in Hcb.
  repeat (apply elem_of_cons in Hcb as [-> | Hcb]);
    [..|by apply elem_of_nil in Hcb];
    unfold Script.imageObserver, App.observer, App.imageObserver, forEach;
    rewrite foldl_app; simpl;
    match goal with
    | |- _ ∉ observed (foldl ?f (unobserve _ ?s0) _) =>
        apply (forEach_keeps (λ s, el ∉ observed s) (λ _, True)
                 (λ x s, f s x) l2);
          [|by apply Forall_true|apply unobserve_out]
    end;
    intros en s' _ Hs'; destruct (isIntersecting en); try done;
    by apply unobserve_keeps_out.
Qed.

(** A single intersecting entry for an observed element: the three
    watchers apply their effect once and stop observing. *)
Lemma deliver_first_trigger (el : ref) (s : state) :
  el ∈ observed s →
  let en := {| target := el; isIntersecting := true |} in
  deliver App.observer [en] s = unobserve el (App.animateElement el s)
  ∧ deliver App.imageObserver [en] s = unobserve el (App.loadImage el s)
  ∧ deliver Script.imageObserver [en] s
    = unobserve el
        (update el (classList_remove "lazy") (update el assign_src s)).
Proof.
  intros Hel en. unfold deliver.
  rewrite filter_cons_True, filter_nil by done. done.
Qed.

(** C2, on the flat script's reveal watcher: its callback never calls
    [unobserve].  After the first intersecting callback the card is
    still observed, and when the card has been hidden again a second
    intersecting callback reveals it once more.  The controller's
    watcher, on the same input, has unobserved the card and leaves it
    hidden. *)
Theorem script_observer_fires_again :
  let s1 := deliver Script.observer hit one_card in
  let s2 := deliver Script.observer hit (update 1%nat set_hidden s1) in
  bool_decide (1%nat ∈ observed one_card) = true
  ∧ opacity <$> elements s1 !! 1%nat = Some "1"
  ∧ bool_decide (1%nat ∈ observed s1) = true
  ∧ opacity <$> elements s2 !! 1%nat = Some "1"
  ∧ (let a1 := deliver App.observer hit one_card in
     let a2 := deliver App.observer hit (update 1%nat set_hidden a1) in
     bool_decide (1%nat ∈ observed a1) = false
     ∧ opacity <$> elements a2 !! 1%nat = Some "0").
Proof. by vm_compute. Qed.

End WatcherFacts.

(** ** Notifications, timers and the clipboard *)

Section PageFacts.
Import Page.

(** *** The pending-timer queue *)

Lemma pick_None (ts : list (nat * task)) : pick ts = None → ts = [].
Proof.
  destruct ts as [|x r]; [done|]. simpl.
  destruct (pick r) as [[y r']|]; [|done]. by destruct (x.1 <=? y.1)%nat.
Qed.

Lemma pick_perm (ts : list (nat * task)) x r :
  pick ts = Some (x, r) → ts ≡ₚ x :: r.
Proof.
  revert x r. induction ts as [|y ts IH]; intros x r; [done|]. simpl.
  destruct (pick ts) as [[z r']|] eqn:Hp.
  - destruct (y.1 <=? z.1)%nat; intros [= <- <-]; [done|].
    rewrite (IH _ _ eq_refl). apply perm_swap.
  - intros [= <- <-]. by rewrite (pick_None _ Hp).
Qed.

Lemma pick_least (ts : list (nat * task)) x r :
  pick ts = Some (x, r) → Forall (λ y, (x.1 ≤ y.1)%nat) ts.
Proof.
  revert x r. induction ts as [|y ts IH]; intros x r; [done|]. simpl.
  destruct (pick ts) as [[z r']|] eqn:Hp.
  - specialize (IH _ _ eq_refl).
    destruct (Nat.leb_spec y.1 z.1); intros [= <- <-].
    + constructor; [done|]. eapply Forall_impl; [exact IH|].
      simpl. intros; lia.
    + constructor; [lia|done].
  - intros [= <- <-]. rewrite (pick_None _ Hp). by repeat constructor.
Qed.

(** *** What an operation leaves alone for node [n] *)

Lemma same_for_refl n w : same_for n w w.
Proof. by split. Qed.

Lemma same_for_trans n w1 w2 w3 :
  same_for n w1 w2 → same_for n w2 w3 → same_for n w1 w3.
Proof.
  intros [] []. split; try congruence; [lia|auto].
Qed.

Lemma parent_of_modify n m f w :
  (m = n → ∀ e, parentNode (f e) = parentNode e) →
  parent_of n (modify m f w) = parent_of n w.
Proof.
  intros Hf. unfold parent_of, modify; simpl.
  destruct (decide (m = n)) as [->|Hne].
  - rewrite lookup_alter_eq. destruct (heap w !! n); simpl; [|done].
    by rewrite Hf.
  - by rewrite lookup_alter_ne.
Qed.

Lemma modify_same n m f w :
  (m = n → ∀ e, parentNode (f e) = parentNode e) →
  same_for n w (modify m f w).
Proof. intros Hf. split; try done. by apply parent_of_modify. Qed.

Lemma setTimeout_same n k delay w :
  subject k ≠ n → same_for n w (setTimeout k delay w).
Proof.
  intros Hk. split; try done. unfold timers_of, setTimeout; simpl.
  rewrite filter_app, filter_cons_False, filter_nil by done.
  by rewrite app_nil_r.
Qed.

Lemma requestAnimationFrame_same n m w :
  same_for n w (requestAnimationFrame (App_enter m) w).
Proof.
  split; try done. simpl. intros H. apply Forall_app. split; [done|].
  by repeat constructor.
Qed.

Lemma createElement_same n tag w :
  (n < next_ref w)%nat →
  same_for n w (createElement tag w).2
  ∧ (createElement tag w).1 = next_ref w
  ∧ next_ref (createElement tag w).2 = S (next_ref w).
Proof.
  intros Hn. split; [|done]. split; try done; simpl; [|lia].
  unfold parent_of; simpl. rewrite lookup_insert_ne by lia. done.
Qed.

Lemma removeChild_same n m w :
  m ≠ n → same_for n w (state_of (removeChild body m w)).
Proof.
  intros Hm. unfold removeChild. case_decide; simpl; [|apply same_for_refl].
  apply modify_same. done.
Qed.

Lemma setter_same n w w' :
  heap w' = heap w → timers w' = timers w → now w' = now w →
  next_ref w' = next_ref w → frames w' = frames w →
  same_for n w w'.
Proof.
  intros Hh Ht Hn Hr Hf. split; unfold parent_of, timers_of; try congruence.
  lia.
Qed.

Lemma alloc_same n tag w :
  (n < next_ref w)%nat →
  same_for n w
    (set_next_ref (S (next_ref w))
       (set_heap (<[next_ref w := blank tag]> (heap w)) w)).
Proof. intros Hn. by apply (createElement_same n tag w). Qed.

Lemma copy_selection_same n w : same_for n w (copy_selection w).
Proof.
  unfold copy_selection.
  destruct (selection w ≫= _); [by apply setter_same|apply same_for_refl].
Qed.

Lemma showCopyNotification_same n w :
  (n < next_ref w)%nat → same_for n w (Script.showCopyNotification w).
Proof.
  intros Hn. unfold Script.showCopyNotification, createElement.
  cbv beta iota zeta.
  repeat first
    [ apply same_for_refl
    | eapply same_for_trans; [|apply setTimeout_same; simpl; lia]
    | eapply same_for_trans; [|apply modify_same; simpl; intros; lia]
    | by apply alloc_same ].
Qed.

Lemma show_after n w w' :
  same_for n w w' → (n < next_ref w)%nat →
  same_for n w (Script.showCopyNotification w').
Proof.
  intros Hs Hn. eapply same_for_trans; [exact Hs|].
  apply showCopyNotification_same. pose proof (same_next _ _ _ Hs). lia.
Qed.

Lemma set_property_same n m prop val w :
  same_for n w (set_property m prop val w).
Proof. by apply modify_same. Qed.

Lemma appendChild_same n parent m w :
  m ≠ n → same_for n w (appendChild parent m w).
Proof. intros Hm. by apply modify_same. Qed.

Lemma console_error_same n m w : same_for n w (console_error m w).
Proof. by apply setter_same. Qed.

Lemma select_same n m w : same_for n w (select m w).
Proof. by apply setter_same. Qed.

Lemma focus_same n m w : same_for n w (focus m w).
Proof. by apply setter_same. Qed.

Lemma writeText_same n t w : same_for n w (writeText t w).
Proof. by apply setter_same. Qed.

Lemma set_uncaught_same n x w : same_for n w (set_uncaught x w).
Proof. by apply setter_same. Qed.

(** Peels the outermost primitive off the world on the right. *)
Ltac peel :=
  lazymatch goal with
  | |- same_for ?n ?w (setTimeout ?k ?d ?w') =>
      apply (same_for_trans n w w'); [peel|apply setTimeout_same; simpl; lia]
  | |- same_for ?n ?w (requestAnimationFrame _ ?w') =>
      apply (same_for_trans n w w'); [peel|apply requestAnimationFrame_same]
  | |- same_for ?n ?w (set_property ?m _ _ ?w') =>
      apply (same_for_trans n w w'); [peel|apply set_property_same]
  | |- same_for ?n ?w (appendChild _ ?m ?w') =>
      apply (same_for_trans n w w'); [peel|apply appendChild_same; lia]
  | |- same_for ?n ?w (modify ?m _ ?w') =>
      apply (same_for_trans n w w'); [peel|apply modify_same; intros; lia]
  | |- same_for ?n ?w (state_of (removeChild body ?m ?w')) =>
      apply (same_for_trans n w w'); [peel|apply removeChild_same; lia]
  | |- same_for ?n ?w (copy_selection ?w') =>
      apply (same_for_trans n w w'); [peel|apply copy_selection_same]
  | |- same_for ?n ?w (set_next_ref _ (set_heap _ ?w')) =>
      apply (same_for_trans n w w'); [peel|apply alloc_same; lia]
  | |- same_for ?n ?w (Script.showCopyNotification ?w') =>
      apply show_after; [peel|lia]
  | |- same_for ?n ?w (console_error _ ?w') =>
      apply (same_for_trans n w w'); [peel|apply console_error_same]
  | |- same_for ?n ?w (select _ ?w') =>
      apply (same_for_trans n w w'); [peel|apply select_same]
  | |- same_for ?n ?w (focus _ ?w') =>
      apply (same_for_trans n w w'); [peel|apply focus_same]
  | |- same_for ?n ?w (writeText _ ?w') =>
      apply (same_for_trans n w w'); [peel|apply writeText_same]
  | |- same_for ?n ?w (set_uncaught _ ?w') =>
      apply (same_for_trans n w w'); [peel|apply set_uncaught_same]
  | |- same_for _ ?w ?w' => constr_eq w w'; apply same_for_refl
  end.

Lemma showNotification_same n m ty w :
  (n < next_ref w)%nat → same_for n w (App.showNotification m ty w).
Proof.
  intros Hn. unfold App.showNotification, createElement.
  cbv beta iota zeta. peel.
Qed.

Lemma script_fallback_same n text w :
  (n < next_ref w)%nat →
  same_for n w (state_of (Script.fallbackCopyTextToClipboard text w)).
Proof.
  intros Hn. unfold Script.fallbackCopyTextToClipboard, createElement.
  cbv beta iota zeta. destruct (exec_copy _); peel.
Qed.

Lemma app_fallback_same n text w :
  (n < next_ref w)%nat →
  same_for n w (state_of (App.fallbackCopyText text w)).
Proof.
  intros Hn. unfold App.fallbackCopyText, createElement.
  cbv beta iota zeta. destruct (exec_copy _); simpl bind.
  - peel.
  - peel.
  - match goal with
    | |- context [removeChild body ?m ?w'] =>
        assert (same_for n w (state_of (removeChild body m w'))) as Hs by peel;
        destruct (removeChild body m w'); exact Hs
    end.
Qed.

Lemma script_copyGiftLink_same n w :
  (n < next_ref w)%nat →
  same_for n w (state_of (Script.copyGiftLink w)).
Proof.
  intros Hn. unfold Script.copyGiftLink.
  destruct (clipboard w) as [[]|].
  - simpl. peel.
  - pose proof (script_fallback_same n giftUrl w Hn) as Hs.
    destruct (Script.fallbackCopyTextToClipboard giftUrl w); simpl in *;
      [done|]. eapply same_for_trans; [exact Hs|apply set_uncaught_same].
  - by apply script_fallback_same.
Qed.

Lemma app_copyGiftLink_same n w :
  (n < next_ref w)%nat →
  same_for n w (state_of (App.copyGiftLink w)).
Proof.
  intros Hn. unfold App.copyGiftLink.
  assert (∀ w', same_for n w w' → ∀ m ty,
            same_for n w (App.showNotification m ty w')) as Hshow.
  { intros w' Hw' m ty. eapply same_for_trans; [exact Hw'|].
    apply showNotification_same. pose proof (same_next _ _ _ Hw'). lia. }
  destruct (clipboard w) as [[]|]; simpl.
  - apply Hshow. apply writeText_same.
  - apply Hshow. apply console_error_same.
  - pose proof (app_fallback_same n giftUrl w Hn) as Hs.
    destruct (App.fallbackCopyText giftUrl w); simpl in *; apply Hshow;
      [done|]. eapply same_for_trans; [exact Hs|apply console_error_same].
Qed.

Lemma run_task_same n k w :
  subject k ≠ n ∨ is_enter k → same_for n w (run_task k w).
Proof.
  intros Hk. unfold run_task.
  destruct k as [m|m|m|m|m]; simpl in *;
    try (destruct Hk as [Hk|[]]);
    unfold Script.exit_callback, Script.remove_callback,
      App.exit_callback, App.remove_callback, App.enter_callback.
  - peel.
  - pose proof (removeChild_same n m w Hk) as Hs.
    destruct (removeChild body m w); simpl in *; [done|].
    eapply same_for_trans; [exact Hs|apply set_uncaught_same].
  - peel.
  - peel.
  - peel.
  - destruct (parent_of m w); [|apply same_for_refl].
    pose proof (removeChild_same n m w Hk) as Hs.
    destruct (removeChild body m w); simpl in *; [done|].
    eapply same_for_trans; [exact Hs|apply set_uncaught_same].
Qed.

Lemma frame_same n w :
  Forall is_enter (frames w) → same_for n w (frame w).
Proof.
  intros Hf. unfold frame.
  assert (H0 : same_for n w (set_frames [] w)).
  { by split. }
  revert H0. generalize (set_frames [] w) as w0.
  induction Hf as [|k ks Hk _ IH]; intros w0 H0; simpl; [done|].
  apply IH. eapply same_for_trans; [exact H0|]. apply run_task_same. by right.
Qed.

Lemma handle_same n ev w :
  (n < next_ref w)%nat → Forall is_enter (frames w) →
  same_for n w (handle ev w).
Proof.
  intros Hn Hf. destruct ev; simpl.
  - by apply frame_same.
  - by apply showCopyNotification_same.
  - by apply showNotification_same.
  - pose proof (script_copyGiftLink_same n w Hn) as Hs.
    destruct (Script.copyGiftLink w); simpl in *; [done|].
    eapply same_for_trans; [exact Hs|apply set_uncaught_same].
  - by apply app_copyGiftLink_same.
Qed.

(** *** The phases of one toast *)

Lemma same_for_phase v n due ph w w' :
  same_for n w w' → in_phase v n due ph w → in_phase v n due ph w'.
Proof.
  intros [Hp Ht Hn _ _]. unfold in_phase, attached, detached.
  rewrite Hp, Ht, Hn. done.
Qed.

Lemma same_for_tracked v n due w w' :
  same_for n w w' → tracked v n due w → tracked v n due w'.
Proof.
  intros Hs ([ph Hph] & Hf & Hn). split; [|split].
  - exists ph. by eapply same_for_phase.
  - by apply (same_frames _ _ _ Hs).
  - pose proof (same_next _ _ _ Hs). lia.
Qed.

Lemma exit_fires v n due w :
  attached n w → timers_of n w = [] → now w = due →
  in_phase v n due Leaving (run_task (exit_task v n) w).
Proof.
  intros Ha Ht Hn.
  assert (∀ prop val,
            in_phase v n due Leaving
              (setTimeout (remove_task v n) 300 (set_property n prop val w)))
    as Hgo.
  { intros prop val.
    set (w' := setTimeout _ _ _).
    assert (parent_of n w' = parent_of n w) as Hp
      by exact (same_parent _ _ _ (set_property_same n n prop val w)).
    assert (timers_of n w'
            = filter (λ x, subject x.2 = n)
                (timers w ++ [((now w + 300)%nat, remove_task v n)])%list) as Htm
      by done.
    rewrite filter_app, filter_cons_True, filter_nil in Htm
      by (by destruct v).
    fold (timers_of n w) in Htm. rewrite Ht, Hn in Htm.
    unfold in_phase, attached. rewrite Hp, Htm.
    change (now w') with (now w). repeat split; [done|lia..]. }
  destruct v; apply Hgo.
Qed.

Lemma remove_fires v n due w :
  attached n w → timers_of n w = [] → now w = (due + 300)%nat →
  in_phase v n due Gone (run_task (remove_task v n) w).
Proof.
  intros Ha Ht Hn.
  assert (in_phase v n due Gone (modify n (set_parent None) w)) as Hgo.
  { unfold in_phase, detached.
    change (timers_of n (modify n (set_parent None) w)) with (timers_of n w).
    change (now (modify n (set_parent None) w)) with (now w).
    split; [|split; [done|lia]].
    unfold attached, parent_of in *. simpl. rewrite lookup_alter_eq.
    by destruct (heap w !! n). }
  destruct v; unfold run_task; simpl;
    unfold Script.remove_callback, App.remove_callback, removeChild.
  - rewrite decide_True by done. done.
  - rewrite Ha. rewrite decide_True by done. done.
Qed.

Lemma run_task_queues k w :
  frames (run_task k w) = frames w
  ∧ next_ref (run_task k w) = next_ref w
  ∧ now (run_task k w) = now w.
Proof.
  unfold run_task.
  destruct k; simpl;
    unfold Script.exit_callback, Script.remove_callback, App.enter_callback,
      App.exit_callback, App.remove_callback, removeChild;
    repeat case_match; simplify_eq; done.
Qed.

(** Letting the clock reach the due time [d] of another timer keeps
    the phase, provided [d] is not later than the toast's own timers. *)
Lemma clock_keeps_phase v n due ph d w w' :
  in_phase v n due ph w →
  parent_of n w' = parent_of n w → timers_of n w' = timers_of n w →
  now w' = now w `max` d →
  (∀ x, x ∈ timers_of n w → (d ≤ x.1)%nat) →
  in_phase v n due ph w'.
Proof.
  intros Hph Hp Ht Hn Hd.
  destruct ph; destruct Hph as (Ha & Htm & Hclock);
    unfold in_phase, attached, detached in *; rewrite Hp, Ht, Hn, Htm;
    repeat split; try done; try lia.
  - specialize (Hd (due, exit_task v n)). rewrite Htm in Hd.
    specialize (Hd ltac:(by apply list_elem_of_singleton)). simpl in Hd. lia.
  - specialize (Hd ((due + 300)%nat, remove_task v n)). rewrite Htm in Hd.
    specialize (Hd ltac:(by apply list_elem_of_singleton)). simpl in Hd. lia.
Qed.

Lemma step_tracked v n due t w w' :
  step t w = Some w' → (now w ≤ t)%nat → tracked v n due w →
  tracked v n due w' ∧ (now w' ≤ t)%nat.
Proof.
  unfold step. intros Hstep Hnow ([ph Hph] & Hf & Hn).
  destruct (pick (timers w)) as [[[d k] rest]|] eqn:Hpick; [|done].
  destruct (Nat.leb_spec d t) as [Hd|]; [|done].
  injection Hstep as <-.
  pose proof (pick_perm _ _ _ Hpick) as Hperm.
  pose proof (pick_least _ _ _ Hpick) as Hleast. simpl in Hleast.
  assert (Hof : timers_of n w ≡ₚ filter (λ x, subject x.2 = n) ((d, k) :: rest)).
  { unfold timers_of. by rewrite Hperm. }
  set (wm := set_timers rest (set_now (now w `max` d) w)).
  assert (Hbound : ∀ x, x ∈ timers_of n w → (d ≤ x.1)%nat).
  { intros x Hx. apply list_elem_of_filter in Hx as [_ Hx].
    by apply (proj1 (Forall_forall _ _) Hleast). }
  destruct (run_task_queues k wm) as (Hqf & Hqr & Hqn).
  split; [|rewrite Hqn; simpl; lia].
  split; [|by rewrite Hqf, Hqr].
  destruct (decide (subject k = n)) as [Hk|Hk].
  - (* the timer that fires belongs to the toast *)
    rewrite filter_cons_True in Hof by done.
    destruct ph; destruct Hph as (Ha & Ht & Hclock); rewrite Ht in Hof.
    + apply Permutation_singleton_l in Hof. injection Hof as <- <- Hrest.
      exists Leaving. apply exit_fires; [done|by symmetry|simpl; lia].
    + apply Permutation_singleton_l in Hof. injection Hof as <- <- Hrest.
      exists Gone. apply remove_fires; [done|by symmetry|simpl; lia].
    + by apply Permutation_nil_cons in Hof.
  - (* it belongs to something else *)
    rewrite filter_cons_False in Hof by done.
    exists ph. apply (same_for_phase v n due ph wm);
      [apply run_task_same; by left|].
    apply (clock_keeps_phase v n due ph d w); try done.
    change (timers_of n wm) with (filter (λ x, subject x.2 = n) rest).
    destruct ph; destruct Hph as (_ & Ht & _); rewrite Ht in *.
    + symmetry. by apply Permutation_singleton_l.
    + symmetry. by apply Permutation_singleton_l.
    + symmetry. by apply Permutation_nil_l.
Qed.

Lemma run_tracked v n due t fuel w :
  (now w ≤ t)%nat → tracked v n due w →
  tracked v n due (run fuel t w) ∧ (now (run fuel t w) ≤ t)%nat.
Proof.
  revert w. induction fuel as [|fuel IH]; intros w Hnow Htr; simpl; [done|].
  destruct (step t w) as [w'|] eqn:Hstep; [|done].
  destruct (step_tracked v n due t w w' Hstep Hnow Htr). by apply IH.
Qed.

(** *** The fuel of [advance_to] is enough *)

Lemma pick_work (ts : list (nat * task)) x r :
  pick ts = Some (x, r) →
  sum_list ((λ y, work y.2) <$> ts)
  = (work x.2 + sum_list ((λ y, work y.2) <$> r))%nat.
Proof.
  revert x r. induction ts as [|y ts IH]; intros x r; [done|]. csimpl.
  destruct (pick ts) as [[z r']|] eqn:Hp.
  - destruct (y.1 <=? z.1)%nat; intros [= <- <-]; [done|].
    csimpl. rewrite (IH _ _ eq_refl). lia.
  - intros [= <- <-]. by rewrite (pick_None _ Hp).
Qed.

Lemma sum_list_snoc (l : list nat) (a : nat) :
  sum_list (l ++ [a]) = (sum_list l + a)%nat.
Proof. induction l as [|b l IH]; csimpl; lia. Qed.

Lemma setTimeout_work k delay w :
  pending_work (setTimeout k delay w) = (pending_work w + work k)%nat.
Proof.
  unfold pending_work, setTimeout. cbn [timers set_timers].
  rewrite fmap_app. csimpl. apply sum_list_snoc.
Qed.

Lemma removeChild_work parent m w :
  pending_work (state_of (removeChild parent m w)) = pending_work w.
Proof. unfold removeChild. by case_decide. Qed.

Lemma run_task_work k w :
  (pending_work (run_task k w) + 1 ≤ pending_work w + work k)%nat.
Proof.
  assert (∀ m, pending_work
                 match removeChild body m w with
                 | Normal w0 => w0
                 | Throw e w0 => set_uncaught (uncaught w0 ++ [e]) w0
                 end = pending_work w) as Hrm.
  { intros m. rewrite <- (removeChild_work body m w).
    by destruct (removeChild body m w). }
  unfold run_task.
  destruct k as [m|m|m|m|m]; cbn [fire work];
    unfold Script.exit_callback, Script.remove_callback, App.enter_callback,
      App.exit_callback, App.remove_callback.
  - rewrite setTimeout_work.
    change (pending_work (set_property _ _ _ w)) with (pending_work w).
    simpl. lia.
  - rewrite Hrm. lia.
  - change (pending_work (set_property _ _ _ w)) with (pending_work w). lia.
  - rewrite setTimeout_work.
    change (pending_work (set_property _ _ _ w)) with (pending_work w).
    simpl. lia.
  - destruct (parent_of m w); [rewrite Hrm|]; lia.
Qed.

Lemma step_work t w w' :
  step t w = Some w' → (pending_work w' < pending_work w)%nat.
Proof.
  unfold step. intros Hstep.
  destruct (pick (timers w)) as [[[d k] rest]|] eqn:Hpick; [|done].
  destruct (d <=? t)%nat; [|done]. injection Hstep as <-.
  pose proof (pick_work _ _ _ Hpick) as Hw. simpl in Hw.
  pose proof (run_task_work k (set_timers rest (set_now (now w `max` d) w))) as Hr.
  unfold pending_work in *. simpl in *. lia.
Qed.

Lemma work_positive k : (0 < work k)%nat.
Proof. destruct k; simpl; lia. Qed.

Lemma run_settles t fuel w :
  (pending_work w ≤ fuel)%nat → step t (run fuel t w) = None.
Proof.
  revert w. induction fuel as [|fuel IH]; intros w Hw; simpl.
  - unfold step, pending_work in *.
    destruct (timers w) as [|[d k] ts]; [done|]. simpl in Hw.
    pose proof (work_positive k). lia.
  - destruct (step t w) as [w'|] eqn:Hstep; [|done].
    apply IH. pose proof (step_work _ _ _ Hstep). lia.
Qed.

Lemma settled_due t w x :
  step t w = None → x ∈ timers w → (t < x.1)%nat.
Proof.
  unfold step. intros Hstep Hx.
  destruct (pick (timers w)) as [[[d k] rest]|] eqn:Hpick.
  - destruct (Nat.leb_spec d t); [done|].
    pose proof (pick_least _ _ _ Hpick) as Hleast.
    pose proof (proj1 (Forall_forall _ _) Hleast x Hx). simpl in *. lia.
  - rewrite (pick_None _ Hpick) in Hx. by apply elem_of_nil in Hx.
Qed.

(** When the clock has reached [t] the toast is in the phase that [t]
    calls for. *)
Lemma advance_tracked v n due t w :
  (now w ≤ t)%nat → tracked v n due w →
  in_phase v n due (phase_at due t) (advance_to t w)
  ∧ tracked v n due (advance_to t w)
  ∧ now (advance_to t w) = t.
Proof.
  intros Hnow Htr. unfold advance_to.
  set (w' := run (pending_work w) t w).
  destruct (run_tracked v n due t (pending_work w) w Hnow Htr)
    as (([ph Hph] & Hf & Hn) & Hnow').
  fold w' in Hph, Hf, Hn, Hnow'.
  pose proof (run_settles t (pending_work w) w (le_n _)) as Hset.
  fold w' in Hset.
  assert (Hlater : ∀ x, x ∈ timers_of n w' → (t < x.1)%nat).
  { intros x Hx. apply list_elem_of_filter in Hx as [_ Hx].
    by apply (settled_due t w'). }
  assert (Hgoal : in_phase v n due (phase_at due t)
                    (set_now (now w' `max` t) w')).
  { unfold phase_at.
    destruct ph; destruct Hph as (Ha & Ht & Hclock); rewrite Ht in Hlater.
    - specialize (Hlater _ ltac:(by apply list_elem_of_singleton)).
      simpl in Hlater. destruct (Nat.ltb_spec t due); [|lia].
      repeat split; try done. simpl. lia.
    - specialize (Hlater _ ltac:(by apply list_elem_of_singleton)).
      simpl in Hlater.
      destruct (Nat.ltb_spec t due); [lia|].
      destruct (Nat.ltb_spec t (due + 300)); [|lia].
      repeat split; try done; simpl; lia.
    - destruct (Nat.ltb_spec t due); [lia|].
      destruct (Nat.ltb_spec t (due + 300)); [lia|].
      repeat split; try done; simpl; lia. }
  split; [exact Hgoal|]. split; [|simpl; lia].
  split; [by eexists|]. done.
Qed.

Lemma play_tracked v n due t0 history w :
  chronological t0 history → (now w ≤ t0)%nat → tracked v n due w →
  tracked v n due (play history w)
  ∧ (∀ t, Forall (λ x, (x.1 ≤ t)%nat) history → (t0 ≤ t)%nat →
       (now (play history w) ≤ t)%nat).
Proof.
  revert t0 w. unfold play.
  induction history as [|[t ev] h IH]; intros t0 w Hch Hnow Htr; simpl.
  - split; [done|]. intros; lia.
  - destruct Hch as [Ht Hch]. simpl in *.
    destruct (advance_tracked v n due t w ltac:(lia) Htr) as (_ & Htr' & Hn').
    assert (Hs : same_for n (advance_to t w) (handle ev (advance_to t w))).
    { destruct Htr' as (_ & Hf & Hn). by apply handle_same. }
    destruct (IH t (handle ev (advance_to t w)) Hch) as [Hfin Hnowfin].
    { rewrite (same_now _ _ _ Hs). lia. }
    { by eapply same_for_tracked. }
    split; [done|]. intros t' Hall Ht'.
    apply Forall_cons in Hall as [Hle Hall]. simpl in Hle.
    apply Hnowfin; [done|lia].
Qed.

(** *** Showing a toast *)

Lemma no_timers_yet n (ts : list (nat * task)) :
  Forall (λ x, (subject x.2 < n)%nat) ts →
  filter (λ x, subject x.2 = n) ts = [].
Proof.
  induction 1 as [|x ts Hx _ IH]; [done|].
  rewrite filter_cons_False by lia. done.
Qed.

Lemma show_tracked v message type w :
  well_formed w →
  in_phase v (next_ref w) (now w + 3000) Dwell (show v message type w)
  ∧ tracked v (next_ref w) (now w + 3000) (show v message type w)
  ∧ now (show v message type w) = now w.
Proof.
  intros [Hts Hfs].
  assert (Hph : in_phase v (next_ref w) (now w + 3000) Dwell
                  (show v message type w)).
  { unfold in_phase, attached, timers_of, parent_of.
    destruct v; simpl; rewrite ?lookup_alter_eq, lookup_insert_eq; simpl;
      (split; [done|]);
      rewrite filter_app, (no_timers_yet _ _ Hts), filter_cons_True by done;
      (split; [done|lia]). }
  split; [done|]. split; [|by destruct v].
  split; [by exists Dwell|]. split; [|destruct v; simpl; lia].
  destruct v; simpl; [done|]. apply Forall_app. split; [done|].
  by repeat constructor.
Qed.

Lemma exit_callback_style n e w :
  heap w !! n = Some e →
  style_of n "animation" (state_of (Script.exit_callback n w))
    = Some "slideOut 0.3s ease"
  ∧ style_of n "transform" (state_of (App.exit_callback n w))
    = Some "translateX(100%)".
Proof.
  intros He. unfold style_of; simpl.
  rewrite !lookup_alter_eq, He; simpl. by rewrite !lookup_insert_eq.
Qed.

(** C6: a toast shown at time [t0] is in the document from the call
    on.  Whatever else happens on the page afterwards (frames, further
    toasts, copies), at any later time [t]: before [t0 + 3000] the node
    is attached and its exit callback is still pending; from
    [t0 + 3000] the exit callback has run and the removal is pending
    for [t0 + 3300]; from [t0 + 3300] the node is out of the
    document.  The exit callback is the one that writes the exit
    style. *)
Theorem toast_lifecycle (v : variant) (message type : string) (w : world)
    (history : list (nat * event)) (t : nat) :
  well_formed w →
  chronological (now w) history →
  Forall (λ x, (x.1 ≤ t)%nat) history → (now w ≤ t)%nat →
  let n := next_ref w in
  let t0 := now w in
  let shown := show v message type w in
  let w' := advance_to t (play history shown) in
  attached n shown
  ∧ timers_of n shown = [((t0 + 3000)%nat, exit_task v n)]
  ∧ (∀ w1, is_Some (heap w1 !! n) →
       style_of n (exit_style v).1 (run_task (exit_task v n) w1)
       = Some (exit_style v).2)
  ∧ ((t < t0 + 3000)%nat →
       attached n w' ∧ timers_of n w' = [((t0 + 3000)%nat, exit_task v n)])
  ∧ ((t0 + 3000 ≤ t < t0 + 3300)%nat →
       attached n w' ∧ timers_of n w' = [((t0 + 3300)%nat, remove_task v n)])
  ∧ ((t0 + 3300 ≤ t)%nat → detached n w' ∧ timers_of n w' = []).
Proof.
  intros Hwf Hch Hall Hnow n t0 shown w'.
  destruct (show_tracked v message type w Hwf) as (Hph & Htr & Hn).
  fold n t0 shown in Hph, Htr, Hn.
  destruct (play_tracked v n (t0 + 3000) t0 history shown Hch
              ltac:(lia) Htr) as [Htr' Hnow'].
  destruct (advance_tracked v n (t0 + 3000) t (play history shown)
              (Hnow' t Hall Hnow) Htr') as (Hfin & _ & _).
  fold w' in Hfin. unfold phase_at in Hfin.
  destruct Hph as (Ha & Ht & _). split; [done|]. split; [done|].
  split.
  { intros w1 [e He].
    destruct (exit_callback_style n e w1 He) as [Hs Hap]. by destruct v. }
  destruct (Nat.ltb_spec t (t0 + 3000));
    [|destruct (Nat.ltb_spec t (t0 + 3000 + 300))];
    destruct Hfin as (Hp & Htm & _);
    repeat split; intros; try lia; try done.
  - by replace (t0 + 3300)%nat with (t0 + 3000 + 300)%nat by lia.
Qed.

(** *** The removal callbacks *)

(** C10, as amended: the controller's removal callback tests
    [parentNode] first.
    For a toast that is still under [body], or that has already been
    detached, it returns normally and leaves the node detached, and the
    event loop records no uncaught exception. *)
Theorem app_remove_never_throws (n : ref) (w : world) :
  attached n w ∨ detached n w →
  ∃ w', App.remove_callback n w = Normal w'
        ∧ detached n w'
        ∧ (detached n w → w' = w)
        ∧ uncaught (run_task (App_remove n) w) = uncaught w.
Proof.
  unfold attached, detached, run_task; simpl.
  unfold App.remove_callback, removeChild. intros [Hp|Hp]; rewrite Hp.
  - rewrite decide_True by done. eexists. split; [done|].
    repeat split; [|done].
    unfold parent_of in *. simpl. rewrite lookup_alter_eq.
    by destruct (heap w !! n).
  - by exists w.
Qed.

(** The flat script's removal callback has no such test: on a detached
    toast it throws. *)
Lemma script_remove_throws_detached (n : ref) (w : world) :
  detached n w → Script.remove_callback n w = Throw NotFoundError w.
Proof.
  unfold detached, Script.remove_callback, removeChild. intros ->.
  by rewrite decide_False.
Qed.

(** *** Every page history keeps the queues well formed *)

Lemma queues_wf w w' :
  timers w' = timers w → frames w' = frames w → next_ref w' = next_ref w →
  well_formed w → well_formed w'.
Proof. unfold well_formed. by intros -> -> ->. Qed.

Lemma setTimeout_wf k delay w :
  (subject k < next_ref w)%nat → well_formed w →
  well_formed (setTimeout k delay w).
Proof.
  intros Hk [Ht Hf]. split; [|done]. simpl. apply Forall_app. split; [done|].
  by repeat constructor.
Qed.

Lemma requestAnimationFrame_wf m w :
  well_formed w → well_formed (requestAnimationFrame (App_enter m) w).
Proof.
  intros [Ht Hf]. split; [done|]. simpl. apply Forall_app. split; [done|].
  by repeat constructor.
Qed.

Lemma alloc_wf tag w :
  well_formed w →
  well_formed (set_next_ref (S (next_ref w))
                 (set_heap (<[next_ref w := blank tag]> (heap w)) w)).
Proof.
  intros [Ht Hf]. split; [|done]. simpl.
  eapply Forall_impl; [exact Ht|]. simpl. intros; lia.
Qed.

Lemma removeChild_wf parent m w :
  well_formed w → well_formed (state_of (removeChild parent m w)).
Proof. unfold removeChild. case_decide; [by apply queues_wf|done]. Qed.

Lemma copy_selection_wf w : well_formed w → well_formed (copy_selection w).
Proof.
  unfold copy_selection. destruct (selection w ≫= _); [by apply queues_wf|done].
Qed.

Lemma modify_wf m f w : well_formed w → well_formed (modify m f w).
Proof. by apply queues_wf. Qed.

Lemma set_property_wf m prop val w :
  well_formed w → well_formed (set_property m prop val w).
Proof. by apply queues_wf. Qed.

Lemma appendChild_wf parent m w :
  well_formed w → well_formed (appendChild parent m w).
Proof. by apply queues_wf. Qed.

Lemma console_error_wf m w : well_formed w → well_formed (console_error m w).
Proof. by apply queues_wf. Qed.

Lemma select_wf m w : well_formed w → well_formed (select m w).
Proof. by apply queues_wf. Qed.

Lemma focus_wf m w : well_formed w → well_formed (focus m w).
Proof. by apply queues_wf. Qed.

Lemma writeText_wf t w : well_formed w → well_formed (writeText t w).
Proof. by apply queues_wf. Qed.

Lemma set_uncaught_wf x w : well_formed w → well_formed (set_uncaught x w).
Proof. by apply queues_wf. Qed.

(** The same peeling for [well_formed]. *)
Ltac peel_wf :=
  lazymatch goal with
  | |- well_formed (setTimeout _ _ ?w') =>
      apply setTimeout_wf; [simpl; lia|peel_wf]
  | |- well_formed (requestAnimationFrame _ ?w') =>
      apply requestAnimationFrame_wf; peel_wf
  | |- well_formed (set_next_ref _ (set_heap _ ?w')) =>
      apply alloc_wf; peel_wf
  | |- well_formed (state_of (removeChild _ _ ?w')) =>
      apply removeChild_wf; peel_wf
  | |- well_formed (copy_selection ?w') =>
      apply copy_selection_wf; peel_wf
  | |- well_formed (set_property _ _ _ ?w') =>
      apply set_property_wf; peel_wf
  | |- well_formed (appendChild _ _ ?w') => apply appendChild_wf; peel_wf
  | |- well_formed (modify _ _ ?w') => apply modify_wf; peel_wf
  | |- well_formed (console_error _ ?w') => apply console_error_wf; peel_wf
  | |- well_formed (select _ ?w') => apply select_wf; peel_wf
  | |- well_formed (focus _ ?w') => apply focus_wf; peel_wf
  | |- well_formed (writeText _ ?w') => apply writeText_wf; peel_wf
  | |- well_formed (set_uncaught _ ?w') => apply set_uncaught_wf; peel_wf
  | |- well_formed _ => assumption
  end.

Lemma showCopyNotification_wf w :
  well_formed w → well_formed (Script.showCopyNotification w).
Proof.
  intros Hw. unfold Script.showCopyNotification, createElement.
  cbv beta iota zeta. peel_wf.
Qed.

Lemma showNotification_wf m ty w :
  well_formed w → well_formed (App.showNotification m ty w).
Proof.
  intros Hw. unfold App.showNotification, createElement.
  cbv beta iota zeta. peel_wf.
Qed.

Lemma script_fallback_wf text w :
  well_formed w →
  well_formed (state_of (Script.fallbackCopyTextToClipboard text w)).
Proof.
  intros Hw. unfold Script.fallbackCopyTextToClipboard, createElement.
  cbv beta iota zeta.
  destruct (exec_copy _); apply removeChild_wf;
    try apply showCopyNotification_wf; peel_wf.
Qed.

Lemma app_fallback_wf text w :
  well_formed w → well_formed (state_of (App.fallbackCopyText text w)).
Proof.
  intros Hw. unfold App.fallbackCopyText, createElement.
  cbv beta iota zeta. destruct (exec_copy _); simpl bind.
  - peel_wf.
  - peel_wf.
  - match goal with
    | |- context [removeChild body ?m ?w'] =>
        assert (well_formed (state_of (removeChild body m w'))) as Hs
          by peel_wf;
        destruct (removeChild body m w'); exact Hs
    end.
Qed.

Lemma run_task_wf k w :
  (subject k < next_ref w)%nat → well_formed w → well_formed (run_task k w).
Proof.
  intros Hk Hw.
  assert (∀ m, well_formed
                 match removeChild body m w with
                 | Normal w0 => w0
                 | Throw e w0 => set_uncaught (uncaught w0 ++ [e]) w0
                 end) as Hrm.
  { intros m. pose proof (removeChild_wf body m w Hw) as Hs.
    destruct (removeChild body m w); [done|]. by apply set_uncaught_wf. }
  unfold run_task.
  destruct k as [m|m|m|m|m]; cbn [fire];
    unfold Script.exit_callback, Script.remove_callback, App.enter_callback,
      App.exit_callback, App.remove_callback; simpl in Hk.
  - peel_wf.
  - apply Hrm.
  - peel_wf.
  - peel_wf.
  - destruct (parent_of m w); [apply Hrm|done].
Qed.

Lemma step_wf t w w' : step t w = Some w' → well_formed w → well_formed w'.
Proof.
  unfold step. intros Hstep [Ht Hf].
  destruct (pick (timers w)) as [[[d k] rest]|] eqn:Hpick; [|done].
  destruct (d <=? t)%nat; [|done]. injection Hstep as <-.
  rewrite (pick_perm _ _ _ Hpick) in Ht.
  apply Forall_cons in Ht as [Hk Hrest]. by apply run_task_wf.
Qed.

Lemma run_wf fuel t w : well_formed w → well_formed (run fuel t w).
Proof.
  revert w. induction fuel as [|fuel IH]; intros w Hw; simpl; [done|].
  destruct (step t w) as [w'|] eqn:Hstep; [|done].
  apply IH. by eapply step_wf.
Qed.

Lemma advance_wf t w : well_formed w → well_formed (advance_to t w).
Proof.
  intros Hw. unfold advance_to.
  apply (queues_wf (run (pending_work w) t w)); [done..|].
  by apply run_wf.
Qed.

Lemma frame_wf w : well_formed w → well_formed (frame w).
Proof.
  intros [Ht Hf]. unfold frame.
  assert (H0 : well_formed (set_frames [] w)) by (by split).
  assert (Hsub : Forall (λ k, is_enter k) (frames w)) by done.
  revert H0 Hsub. generalize (set_frames [] w) as w0.
  generalize (frames w) as ks. clear.
  induction ks as [|k ks IH]; intros w0 H0 Hks; simpl; [done|].
  apply Forall_cons in Hks as [Hk Hks]. apply IH; [|done].
  by destruct k.
Qed.

Lemma handle_wf ev w : well_formed w → well_formed (handle ev w).
Proof.
  intros Hw. destruct ev; simpl.
  - by apply frame_wf.
  - by apply showCopyNotification_wf.
  - by apply showNotification_wf.
  - unfold Script.copyGiftLink.
    pose proof (script_fallback_wf giftUrl w Hw) as Hs.
    destruct (clipboard w) as [[]|].
    + apply showCopyNotification_wf. by apply writeText_wf.
    + destruct (Script.fallbackCopyTextToClipboard giftUrl w); [done|].
      simpl in *. by apply set_uncaught_wf.
    + destruct (Script.fallbackCopyTextToClipboard giftUrl w); [done|].
      simpl in *. by apply set_uncaught_wf.
  - unfold App.copyGiftLink.
    pose proof (app_fallback_wf giftUrl w Hw) as Hs.
    destruct (clipboard w) as [[]|]; simpl.
    + apply showNotification_wf. by apply writeText_wf.
    + apply showNotification_wf. by apply console_error_wf.
    + destruct (App.fallbackCopyText giftUrl w); simpl in *;
        apply showNotification_wf; [done|]. by apply console_error_wf.
Qed.

(** Every page reached from a fresh load is well formed. *)
Lemma play_wf history w : well_formed w → well_formed (play history w).
Proof.
  revert w. unfold play.
  induction history as [|[t ev] h IH]; intros w Hw; simpl; [done|].
  apply IH. apply handle_wf. by apply advance_wf.
Qed.

Lemma loaded_wf clip ex : well_formed (loaded clip ex).
Proof. split; constructor. Qed.

(** *** Copying the gift link *)

Lemma removeChild_after n w0 w :
  attached n w0 → same_for n w0 w →
  ∃ w', removeChild body n w = Normal w' ∧ detached n w'.
Proof.
  intros Ha Hs. unfold removeChild, attached, detached in *.
  rewrite (same_parent _ _ _ Hs), Ha, decide_True by done.
  eexists. split; [done|].
  pose proof (same_parent _ _ _ Hs) as Hp. rewrite Ha in Hp.
  unfold parent_of in *. simpl. rewrite lookup_alter_eq.
  by destruct (heap w !! n).
Qed.

(** The flat script's fallback returns normally and its temporary
    field is out of the document afterwards, whatever [execCommand]
    does. *)
Lemma script_fallback_releases text w :
  ∃ w', Script.fallbackCopyTextToClipboard text w = Normal w'
        ∧ detached (next_ref w) w'.
Proof.
  unfold Script.fallbackCopyTextToClipboard, createElement.
  cbv beta iota zeta.
  match goal with
  | |- context [focus _ ?W] =>
      set (w0 := W);
      assert (attached (next_ref w) w0) as Ha
        by (unfold attached, parent_of; simpl;
            by rewrite !lookup_alter_eq, lookup_insert_eq);
      assert (next_ref w < next_ref w0)%nat as Hn by (simpl; lia)
  end.
  clearbody w0.
  destruct (exec_copy _); apply (removeChild_after _ w0); try done; peel.
Qed.

(** The controller's fallback: the field is out of the document
    afterwards on both exits of the [try]. *)
Lemma app_fallback_releases text w :
  detached (next_ref w) (state_of (App.fallbackCopyText text w)).
Proof.
  unfold App.fallbackCopyText, createElement. cbv beta iota zeta.
  match goal with
  | |- context [select _ ?W] =>
      set (w0 := W);
      assert (attached (next_ref w) w0) as Ha
        by (unfold attached, parent_of; simpl;
            by rewrite !lookup_alter_eq, lookup_insert_eq);
      assert (next_ref w < next_ref w0)%nat as Hn by (simpl; lia)
  end.
  clearbody w0.
  destruct (exec_copy _);
    match goal with
    | |- context [removeChild body ?n ?W] =>
        destruct (removeChild_after n w0 W Ha ltac:(peel)) as (w' & -> & Hd)
    end; done.
Qed.

(** Neither variant lets an exception reach the caller. *)
Lemma copyGiftLink_contains_errors w :
  throws (Script.copyGiftLink w) = false
  ∧ throws (App.copyGiftLink w) = false.
Proof.
  split.
  - unfold Script.copyGiftLink.
    destruct (script_fallback_releases giftUrl w) as (w' & -> & _).
    by destruct (clipboard w) as [[]|].
  - unfold App.copyGiftLink.
    destruct (clipboard w) as [[]|]; try done.
    by destruct (App.fallbackCopyText giftUrl w).
Qed.

(** The flat script runs the fallback both when the capability is
    missing and when its write fails; the controller runs it when the
    capability is missing. *)
Lemma copyGiftLink_falls_back w :
  clipboard w ≠ Some true →
  state_of (Script.copyGiftLink w)
  = state_of (Script.fallbackCopyTextToClipboard giftUrl w)
  ∧ (clipboard w = None →
     ∃ ty m, state_of (App.copyGiftLink w)
             = App.showNotification m ty
                 ((if throws (App.fallbackCopyText giftUrl w)
                   then console_error "Copy failed:" else id)
                    (state_of (App.fallbackCopyText giftUrl w)))).
Proof.
  intros Hc. split.
  - unfold Script.copyGiftLink.
    destruct (script_fallback_releases giftUrl w) as (w' & -> & _).
    by destruct (clipboard w) as [[]|].
  - intros Hn. unfold App.copyGiftLink. rewrite Hn.
    destruct (App.fallbackCopyText giftUrl w); simpl; by do 2 eexists.
Qed.

(** When the capability exists and its write fails, the controller
    goes straight to the error toast. *)
Lemma app_copyGiftLink_write_fails w :
  clipboard w = Some false →
  App.copyGiftLink w
  = Normal (App.showNotification "Failed to copy link" "error"
              (console_error "Copy failed:" w)).
Proof. intros Hc. unfold App.copyGiftLink. by rewrite Hc. Qed.

(** C4, on the controller, with a clipboard capability whose write is
    rejected while [execCommand('copy')] would have worked: the only
    element created is the error toast, no text field was ever made
    and nothing reached the clipboard, so the fallback did not run.
    The flat script, in the same situation, does run it. *)
Theorem app_copyGiftLink_skips_fallback :
  let w0 := loaded (Some false) Copy_done in
  let w := state_of (App.copyGiftLink w0) in
  let s := state_of (Script.copyGiftLink w0) in
  throws (App.copyGiftLink w0) = false
  ∧ next_ref w = 2%nat
  ∧ tag_of 1%nat w = Some "div"
  ∧ textContent <$> heap w !! 1%nat = Some "Failed to copy link"
  ∧ console w = ["Copy failed:"]
  ∧ system_clipboard w = ""
  ∧ tag_of 1%nat s = Some "textarea"
  ∧ parent_of 1%nat s = None
  ∧ system_clipboard s = giftUrl.
Proof. by vm_compute. Qed.

Lemma toast_lifecycle_witness :
  well_formed (loaded None Copy_done)
  ∧ chronological 0 sample_history
  ∧ Forall (λ x, (x.1 ≤ 3300)%nat) sample_history
  ∧ (now (loaded None Copy_done) ≤ 3300)%nat
  ∧ detached 1%nat
      (advance_to 3300
         (play sample_history
            (show app "Gift link copied to clipboard!" "success"
               (loaded None Copy_done)))).
Proof.
  assert (Hwf : well_formed (loaded None Copy_done)) by (split; constructor).
  assert (Hch : chronological 0 sample_history) by (simpl; lia).
  assert (Hall : Forall (λ x, (x.1 ≤ 3300)%nat) sample_history)
    by (repeat (apply Forall_cons; split; [simpl; lia|]); constructor).
  assert (Hnow : (now (loaded None Copy_done) ≤ 3300)%nat) by (simpl; lia).
  split; [exact Hwf|]. split; [exact Hch|]. split; [exact Hall|].
  split; [exact Hnow|].
  refine (proj1 (proj2 (proj2 (proj2 (proj2 (proj2
            (toast_lifecycle app "Gift link copied to clipboard!" "success"
               (loaded None Copy_done) sample_history 3300
               Hwf Hch Hall Hnow))))) _)).
  simpl; lia.
Defined.

Lemma app_remove_never_throws_witness :
  (attached 1%nat detached_toast ∨ detached 1%nat detached_toast)
  ∧ ∃ w', App.remove_callback 1%nat detached_toast = Normal w'
          ∧ detached 1%nat w'
          ∧ (detached 1%nat detached_toast → w' = detached_toast)
          ∧ uncaught (run_task (App_remove 1%nat) detached_toast)
            = uncaught detached_toast.
Proof.
  assert (H : attached 1%nat detached_toast ∨ detached 1%nat detached_toast)
    by (right; by vm_compute).
  split; [exact H|]. exact (app_remove_never_throws 1%nat detached_toast H).
Defined.

(** C10, as the claim states it: a toast that was taken out of the
    document together with a wrapper still has a parent, so the test
    passes and [body.removeChild] throws; the exception leaves the
    timer callback. *)
Lemma app_remove_throws_wrapped :
  parent_of 1%nat wrapped_toast = Some 2%nat
  ∧ parent_of 2%nat wrapped_toast = None
  ∧ App.remove_callback 1%nat wrapped_toast = Throw NotFoundError wrapped_toast
  ∧ uncaught (run_task (App_remove 1%nat) wrapped_toast)
    = (uncaught wrapped_toast ++ [NotFoundError])%list.
Proof. by vm_compute. Qed.

End PageFacts.

(** ** Rate of the throttled function *)

Section TimingFacts.
Import Throttle Timing.
Context {S A : Type} (func : A → S → completion S) (limit : nat).

(** A call that finds the flag clear and whose function returns opens
    a window that ends [limit] ms after the cell's clock. *)
Lemma throttled_opens (a : A) (c : cell) (s : S) :
  truthy (inThrottle c) = false → resets c = [] →
  func a (target c) = Normal s →
  in_window (clock c + limit) s (state_of (throttled func limit a c)).
Proof.
  intros Hflag Hres Hs. unfold throttled. rewrite Hflag, Hs. cbn.
  unfold in_window. cbn. by rewrite Hres.
Qed.

Lemma advance_idle (t : nat) (c : cell (S := S)) :
  truthy (inThrottle c) = false → resets c = [] →
  truthy (inThrottle (advance_to t c)) = false
  ∧ resets (advance_to t c) = [].
Proof. intros Hflag Hres. unfold advance_to. cbn. by rewrite Hres. Qed.

Lemma run_times_spaced (evs : list (nat * A)) (c : cell) :
  (∀ a s, ∃ s', func a s = Normal s') →
  settled c → in_order (clock c) evs →
  spaced limit (run_times func limit evs c)
  ∧ ∀ due s, in_window due s c →
      Forall (λ u, (due ≤ u)%nat) (run_times func limit evs c).
Proof.
  intros Hfun. revert c.
  induction evs as [|[t a] evs IH]; intros c Hc Hord.
  { split; [done|]. intros; constructor. }
  destruct Hord as [Ht Hord]. cbn [fst snd] in *.
  cbn [run_times fst snd].
  assert (Hclock : clock (advance_to t c) = t).
  { unfold advance_to. cbn. lia. }
  (* the call runs the function from an idle cell *)
  assert (Hrun : ∀ c1, truthy (inThrottle c1) = false → resets c1 = [] →
            clock c1 = t →
            spaced limit (t :: run_times func limit evs
                                (state_of (throttled func limit a c1)))).
  { intros c1 Hf Hr Hcl.
    destruct (Hfun a (target c1)) as [s' Hs'].
    pose proof (throttled_opens a c1 s' Hf Hr Hs') as Hwin.
    destruct (IH (state_of (throttled func limit a c1))) as [Hsp Hlo].
    - right. exists (clock c1 + limit)%nat.
      destruct Hwin as (? & ? & Htg). by rewrite Htg.
    - unfold throttled. rewrite Hf, Hs'. cbn. by rewrite Hcl.
    - split; [|done]. rewrite <- Hcl. by apply (Hlo _ s'). }
  unfold executes, call_at.
  destruct Hc as [[Hflag Hres]|[due0 Hwin]].
  - destruct (advance_idle t c Hflag Hres) as [Hf Hr].
    rewrite Hf. cbn [negb app].
    split; [by apply Hrun|].
    intros due s (Hd & _ & _). rewrite Hd in Hflag. done.
  - destruct (decide (t < due0)%nat) as [Hlt|Hge].
    + pose proof (advance_in_window due0 t _ c Hlt Hwin) as Hwin'.
      rewrite (throttled_in_window func limit due0 (target c)) by done.
      destruct Hwin' as (Hf' & Hr' & Ht').
      rewrite Hf'. cbn [truthy negb app state_of].
      destruct (IH (advance_to t c)) as [Hsp Hlo].
      * right. exists due0. by rewrite Ht'.
      * by rewrite Hclock.
      * split; [done|]. intros due s (_ & Hr & _).
        destruct Hwin as (_ & Hr0 & _). rewrite Hr0 in Hr.
        injection Hr as <-. by apply (Hlo due0 (target c)).
    + destruct (advance_closes_window due0 t _ c ltac:(lia) Hwin)
        as (Hf & Hr & _).
      rewrite Hf. cbn [truthy negb app].
      assert (Hsp : spaced limit
                (t :: run_times func limit evs
                        (state_of (throttled func limit a (advance_to t c)))))
        by (apply Hrun; [by rewrite Hf|done..]).
      split; [done|]. intros due s (_ & Hr' & _).
      destruct Hwin as (_ & Hr0 & _). rewrite Hr0 in Hr'.
      injection Hr' as <-. constructor; [lia|].
      destruct Hsp as [Hall _]. eapply Forall_impl; [exact Hall|].
      cbn. intros; lia.
Qed.

(** The state after a sequence of calls is the state after running the
    wrapped function on the calls that reached it, and on no other. *)
Lemma calls_replay (evs : list (nat * A)) (c : cell) :
  target (calls func limit evs c)
  = replay func (run_args func limit evs c) (target c).
Proof.
  revert c. induction evs as [|[t a] evs IH]; intros c; [done|].
  change (calls func limit ((t, a) :: evs) c)
    with (calls func limit evs (call_at func limit t a c)).
  cbn [run_args fst snd].
  rewrite IH. unfold replay. rewrite foldl_app. f_equal.
  unfold call_at, executes, throttled.
  destruct (truthy (inThrottle (advance_to t c))); cbn; [done|].
  by destruct (func a _).
Qed.

(** X1: whatever the calls, a throttled function that returns normally
    runs at most once per [limit] ms: the calls that reach it are at
    least [limit] ms apart, and the state in the end is the one those
    calls produce. *)
Theorem throttle_rate (evs : list (nat * A)) (now : nat) (s : S) :
  (∀ a s, ∃ s', func a s = Normal s') →
  in_order now evs →
  spaced limit (run_times func limit evs (fresh now s))
  ∧ length (run_args func limit evs (fresh now s))
    = length (run_times func limit evs (fresh now s))
  ∧ target (calls func limit evs (fresh now s))
    = replay func (run_args func limit evs (fresh now s)) s.
Proof.
  intros Hfun Hord. split; [|split].
  - by apply (run_times_spaced evs (fresh now s) Hfun (fresh_settled now s)).
  - generalize (fresh now s). clear.
    induction evs as [|[t a] evs IH]; intros c; [done|].
    cbn [run_args run_times fst snd]. rewrite !length_app, IH.
    by destruct (executes t c).
  - apply calls_replay.
Qed.

(** X2: a wrapped function that throws opens no window: the flag stays
    clear and no timer is set, so the next call runs it again at once,
    however soon it comes. *)
Theorem throttle_throw_opens_no_window (a : A) (c : cell) (e : exn) (s : S) :
  truthy (inThrottle c) = false → resets c = [] →
  func a (target c) = Throw e s →
  let c' := state_of (throttled func limit a c) in
  throws (throttled func limit a c) = true
  ∧ resets c' = [] ∧ target c' = s
  ∧ ∀ t, executes t c' = true.
Proof.
  intros Hflag Hres Hs c'. subst c'. unfold throttled.
  rewrite Hflag, Hs. cbn. repeat split; [done|].
  intros t. unfold executes, advance_to. cbn. rewrite Hres. cbn.
  by rewrite Hflag.
Qed.

End TimingFacts.

Lemma throttle_rate_witness :
  (∀ a s, ∃ s', Throttle.count_run a s = Normal s')
  ∧ Timing.in_order 0 [(0, ()); (5, ()); (16, ()); (20, ()); (40, ())]%nat
  ∧ Timing.spaced 16
      (Timing.run_times Throttle.count_run 16
         [(0, ()); (5, ()); (16, ()); (20, ()); (40, ())]%nat
         (Throttle.fresh 0 0%nat)).
Proof.
  assert (Hf : ∀ a s, ∃ s', Throttle.count_run a s = Normal s')
    by (intros a s; by eexists).
  assert (Ho : Timing.in_order 0
                 [(0, ()); (5, ()); (16, ()); (20, ()); (40, ())]%nat)
    by (cbn; lia).
  split; [exact Hf|]. split; [exact Ho|].
  exact (proj1 (throttle_rate Throttle.count_run 16 _ 0%nat 0%nat Hf Ho)).
Defined.

Lemma throttle_throw_opens_no_window_witness :
  Throttle.truthy (Throttle.inThrottle Throttle.idle_cell) = false
  ∧ Throttle.resets Throttle.idle_cell = []
  ∧ Timing.failing_run () (Throttle.target Throttle.idle_cell)
    = Throw (Error "boom") 1%nat
  ∧ ∀ t, Timing.executes t
           (state_of (Throttle.throttled Timing.failing_run 16 () Throttle.idle_cell))
         = true.
Proof.
  split; [reflexivity|]. split; [reflexivity|]. split; [reflexivity|].
  exact (proj2 (proj2 (proj2
    (throttle_throw_opens_no_window Timing.failing_run 16 () Throttle.idle_cell
       (Error "boom") 1%nat eq_refl eq_refl eq_refl)))).
Defined.

(** ** Debounce wrapper *)

Section DebounceFacts.
Import Debounce.
Context {S A : Type} (func : A → S → completion S) (wait : nat).

Lemma advance_quiet (t : nat) (c : cell (S := S) (A := A)) :
  quiet c →
  quiet (advance_to func t c) ∧ target (advance_to func t c) = target c
  ∧ clock (advance_to func t c) = clock c `max` t.
Proof. unfold quiet, advance_to. intros Hq. by rewrite Hq. Qed.

Lemma advance_waiting_early (t d : nat) (a : A) (c : cell (S := S) (A := A)) :
  (t < d)%nat → waiting d a c →
  waiting d a (advance_to func t c) ∧ target (advance_to func t c) = target c
  ∧ clock (advance_to func t c) = clock c `max` t.
Proof.
  intros Ht (i & Hto & Hp). unfold advance_to, waiting. rewrite Hp. cbn.
  unfold step. rewrite Hp. cbn.
  destruct (Nat.leb_spec d t); [lia|]. cbn. rewrite Hto, Hp.
  split; [by exists i|done].
Qed.

Lemma advance_waiting_due (t d : nat) (a : A) (c : cell (S := S) (A := A)) :
  (d ≤ t)%nat → waiting d a c →
  quiet (advance_to func t c)
  ∧ target (advance_to func t c) = state_of (func a (target c))
  ∧ clock (advance_to func t c) = (clock c `max` d) `max` t.
Proof.
  intros Ht (i & Hto & Hp). unfold advance_to, quiet. rewrite Hp. cbn.
  unfold step. rewrite Hp. cbn.
  destruct (Nat.leb_spec d t); [|lia].
  unfold later. cbn. rewrite Hto. cbn.
  by destruct (func a (target c)).
Qed.

Lemma debounced_waits (a : A) (c : cell (S := S) (A := A)) :
  quiet c ∨ (∃ d (a0 : A), waiting d a0 c) →
  waiting (clock c + wait) a (debounced wait a c)
  ∧ target (debounced wait a c) = target c.
Proof.
  intros Hc. unfold debounced, waiting.
  assert (Hp : pending (clearTimeout (timeout c) c) = []).
  { destruct Hc as [Hq|(d & a0 & i & Hto & Hp)].
    - unfold quiet in Hq. unfold clearTimeout.
      destruct (timeout c); cbn; by rewrite ?Hq.
    - rewrite Hto. cbn. rewrite Hp. rewrite filter_cons_False; [done|].
      cbn. by intros []. }
  rewrite Hp. split.
  - eexists. split; [done|]. cbn. by destruct (timeout c).
  - by destruct (timeout c).
Qed.

Lemma debounced_clock (a : A) (c : cell (S := S) (A := A)) :
  clock (debounced wait a c) = clock c.
Proof. unfold debounced. by destruct (timeout c). Qed.

(** During a burst nothing runs, and the latest call is the one that
    waits. *)
Lemma burst_waits (evs : list (nat * A)) (c : cell (S := S) (A := A)) :
  quiet c ∨ (∃ d (a0 : A), waiting d a0 c
             ∧ match evs with ev :: _ => (ev.1 < d)%nat | [] => True end) →
  burst wait (clock c) evs →
  ∀ tl al, last evs = Some (tl, al) →
    waiting (tl + wait) al (calls func wait evs c)
    ∧ target (calls func wait evs c) = target c.
Proof.
  revert c. induction evs as [|[t a] evs IH]; intros c Hc Hb tl al Hl;
    [done|].
  destruct Hb as (Ht & Hgap & Hb). cbn [fst snd] in *.
  change (calls func wait ((t, a) :: evs) c)
    with (calls func wait evs (call_at func wait t a c)).
  assert (Hadv : (quiet (advance_to func t c)
                  ∨ ∃ d (a0 : A), waiting d a0 (advance_to func t c))
                 ∧ target (advance_to func t c) = target c
                 ∧ clock (advance_to func t c) = t).
  { destruct Hc as [Hq|(d & a0 & Hw & Hlt)].
    - destruct (advance_quiet t c Hq) as (? & ? & ?).
      split; [by left|]. split; [done|lia].
    - destruct (advance_waiting_early t d a0 c Hlt Hw) as (? & ? & ?).
      split; [right; by exists d, a0|]. split; [done|lia]. }
  destruct Hadv as (Hset & Htg & Hcl).
  destruct (debounced_waits a (advance_to func t c) Hset) as [Hw Htg'].
  rewrite Hcl in Hw. fold (call_at func wait t a c) in Hw, Htg'.
  destruct evs as [|ev' evs'].
  - injection Hl as <- <-. unfold calls. cbn [foldl].
    split; [done|]. by rewrite Htg', Htg.
  - rewrite <- Htg, <- Htg'. apply IH.
    + right. exists (t + wait)%nat, a. split; [done|]. done.
    + unfold call_at. by rewrite debounced_clock, Hcl.
    + done.
Qed.

(** X3: trailing edge.  During a burst of calls that follow one another
    in less than [wait] ms the wrapped function does not run; it runs
    once, [wait] ms after the last call of the burst, with that call's
    arguments, and the calls before it are never run. *)
Theorem debounce_trailing_edge (evs : list (nat * A)) (now : nat) (s : S)
    (tl : nat) (al : A) :
  burst wait now evs → last evs = Some (tl, al) →
  let c := calls func wait evs (fresh now s) in
  target c = s
  ∧ (∀ t, (t < tl + wait)%nat → target (advance_to func t c) = s)
  ∧ (∀ t, (tl + wait ≤ t)%nat →
       target (advance_to func t c) = state_of (func al s)
       ∧ pending (advance_to func t c) = []).
Proof.
  intros Hb Hl c.
  destruct (burst_waits evs (fresh now s) ltac:(by left) Hb tl al Hl)
    as [Hw Htg]. fold c in Hw, Htg. cbn in Htg.
  split; [done|]. split.
  - intros t Ht.
    destruct (advance_waiting_early t _ al c Ht Hw) as (_ & -> & _). done.
  - intros t Ht.
    destruct (advance_waiting_due t _ al c Ht Hw) as (Hq & -> & _).
    by rewrite Htg.
Qed.

End DebounceFacts.

Lemma debounce_trailing_edge_witness :
  Debounce.burst 300 0 [(0, ()); (100, ()); (350, ())]%nat
  ∧ last [(0, ()); (100, ()); (350, ())]%nat = Some (350%nat, ())
  ∧ Debounce.target
      (Debounce.advance_to Throttle.count_run 650
         (Debounce.calls Throttle.count_run 300
            [(0, ()); (100, ()); (350, ())]%nat (Debounce.fresh 0 0%nat)))
    = 1%nat.
Proof.
  assert (Hb : Debounce.burst 300 0 [(0, ()); (100, ()); (350, ())]%nat)
    by (cbn; lia).
  split; [exact Hb|]. split; [reflexivity|].
  refine (proj1 (proj2 (proj2
    (debounce_trailing_edge Throttle.count_run 300
       [(0, ()); (100, ()); (350, ())]%nat 0%nat 0%nat 350%nat () Hb eq_refl))
    650%nat _)).
  cbn; lia.
Defined.

(** ** Form validation *)

Section EmailFacts.
Import Email.
Local Open Scope list_scope.

Lemma lang_seq_inv (r1 r2 : regex) (s : list code_unit) :
  lang (Seq r1 r2) s → ∃ s1 s2, s = s1 ++ s2 ∧ lang r1 s1 ∧ lang r2 s2.
Proof. inversion 1; subst. by do 2 eexists. Qed.

Lemma lang_class_inv (p : code_unit → bool) (s : list code_unit) :
  lang (Class p) s → ∃ c, s = [c] ∧ p c = true.
Proof. inversion 1; subst. by eexists. Qed.

Lemma nullable_lang (r : regex) : nullable r = true ↔ lang r [].
Proof.
  induction r as [| |p|r1 IH1 r2 IH2|r1 IH1 r2 IH2|r IH]; cbn.
  - split; [done|]. inversion 1.
  - split; [constructor|done].
  - split; [done|]. inversion 1.
  - rewrite andb_true_iff, IH1, IH2. split.
    + intros [H1 H2]. by apply (lang_seq _ _ [] []).
    + intros H. apply lang_seq_inv in H as (s1 & s2 & Heq & H1 & H2).
      symmetry in Heq. by apply app_eq_nil in Heq as [-> ->].
  - rewrite orb_true_iff, IH1, IH2. split.
    + intros [H|H]; [by apply lang_alt_l|by apply lang_alt_r].
    + inversion 1; subst; [by left|by right].
  - split; [constructor|done].
Qed.

(** A word of [r*] that starts with [c] starts with a word of [r] that
    starts with [c]. *)
Lemma star_unfold (r : regex) (c : code_unit) (s : list code_unit) :
  lang (Star r) (c :: s) →
  ∃ s1 s2, s = s1 ++ s2 ∧ lang r (c :: s1) ∧ lang (Star r) s2.
Proof.
  intros H. remember (Star r) as r' eqn:Hr. remember (c :: s) as w eqn:Hw.
  revert s Hw.
  induction H as [| | | | | |r0 s1 s2 H1 _ H2 IH2]; intros u Hu; try done.
  injection Hr as ->. destruct s1 as [|c' s1]; cbn in Hu.
  - by apply IH2.
  - injection Hu as -> <-. by exists s1, s2.
Qed.

Lemma deriv_lang (c : code_unit) (r : regex) (s : list code_unit) :
  lang (deriv c r) s ↔ lang r (c :: s).
Proof.
  revert s.
  induction r as [| |p|r1 IH1 r2 IH2|r1 IH1 r2 IH2|r IH]; intros s; cbn.
  - split; inversion 1.
  - split; inversion 1.
  - destruct (p c) eqn:Hp; split; inversion 1; subst.
    + by constructor.
    + constructor.
    + congruence.
  - assert (Hseq : lang (Seq (deriv c r1) r2) s
                   ↔ ∃ s1 s2, s = s1 ++ s2 ∧ lang r1 (c :: s1) ∧ lang r2 s2).
    { split.
      - intros H. apply lang_seq_inv in H as (s1 & s2 & -> & H1 & H2).
        exists s1, s2. split; [done|]. by rewrite <- IH1.
      - intros (s1 & s2 & -> & H1 & H2). constructor; [|done]. by apply IH1. }
    assert (Hgoal : lang (Seq r1 r2) (c :: s)
                    ↔ (∃ s1 s2, s = s1 ++ s2 ∧ lang r1 (c :: s1) ∧ lang r2 s2)
                      ∨ (lang r1 [] ∧ lang r2 (c :: s))).
    { split.
      - intros H. apply lang_seq_inv in H as (s1 & s2 & Heq & H1 & H2).
        destruct s1 as [|c' s1]; cbn in Heq.
        + right. by subst.
        + injection Heq as <- ->. left. by exists s1, s2.
      - intros [(s1 & s2 & -> & H1 & H2)|[H1 H2]].
        + by apply (lang_seq _ _ (c :: s1) s2).
        + by apply (lang_seq _ _ [] (c :: s)). }
    rewrite Hgoal. destruct (nullable r1) eqn:Hn.
    + apply nullable_lang in Hn. split.
      * inversion 1; subst; [left; by apply Hseq|right; by rewrite <- IH2].
      * intros [H|[_ H]]; [apply lang_alt_l; by apply Hseq|].
        apply lang_alt_r. by apply IH2.
    + rewrite Hseq. split; [by left|]. intros [H|[H _]]; [done|].
      apply nullable_lang in H. congruence.
  - split.
    + inversion 1; subst; [apply lang_alt_l|apply lang_alt_r];
        by rewrite <- ?IH1, <- ?IH2.
    + inversion 1; subst; [apply lang_alt_l|apply lang_alt_r];
        by rewrite ?IH1, ?IH2.
  - split.
    + intros H. apply lang_seq_inv in H as (s1 & s2 & -> & H1 & H2).
      apply (lang_star_cons _ (c :: s1)); [|done]. by apply IH.
    + intros H. apply star_unfold in H as (s1 & s2 & -> & H1 & H2).
      constructor; [|done]. by apply IH.
Qed.

(** The matcher decides the language. *)
Lemma matches_lang (r : regex) (s : list code_unit) :
  matches r s = true ↔ lang r s.
Proof.
  revert r. induction s as [|c s IH]; intros r; cbn.
  - apply nullable_lang.
  - by rewrite IH, deriv_lang.
Qed.

Lemma star_class (p : code_unit → bool) (s : list code_unit) :
  lang (Star (Class p)) s ↔ Forall (λ c, p c = true) s.
Proof.
  split.
  - intros H. remember (Star (Class p)) as r eqn:Hr.
    induction H as [| | | | | |r0 s1 s2 H1 _ H2 IH2]; try done.
    injection Hr as ->. apply lang_class_inv in H1 as (c & -> & Hc).
    constructor; [done|]. by apply IH2.
  - induction 1 as [|c s Hc _ IH]; [constructor|].
    apply (lang_star_cons _ [c]); [by constructor|done].
Qed.

Lemma plus_class (p : code_unit → bool) (s : list code_unit) :
  lang (Plus (Class p)) s ↔ s ≠ [] ∧ Forall (λ c, p c = true) s.
Proof.
  unfold Plus. split.
  - intros H. apply lang_seq_inv in H as (s1 & s2 & -> & H1 & H2).
    apply lang_class_inv in H1 as (c & -> & Hc).
    split; [done|]. constructor; [done|]. by apply star_class.
  - intros [Hne Hall]. destruct Hall as [|c s Hc Hall]; [done|].
    apply (lang_seq _ _ [c]); [by constructor|by apply star_class].
Qed.

(** What an accepted address is made of. *)
Lemma accepted_parts (email : list code_unit) :
  validateEmail email = true →
  ∃ l d t, email = l ++ [at_sign] ++ d ++ [dot] ++ t
           ∧ l ≠ [] ∧ d ≠ [] ∧ t ≠ []
           ∧ Forall (λ c, atom c = true) (l ++ d ++ t).
Proof.
  unfold validateEmail. rewrite matches_lang. unfold re.
  intros H. apply lang_seq_inv in H as (l & s2 & -> & Hl & H2).
  apply lang_seq_inv in H2 as (a & s3 & -> & Ha & H3).
  apply lang_seq_inv in H3 as (d & s4 & -> & Hd & H4).
  apply lang_seq_inv in H4 as (b & t & -> & Hb & Ht).
  apply lang_class_inv in Ha as (ca & -> & Hat).
  apply lang_class_inv in Hb as (cb & -> & Hdot).
  apply N.eqb_eq in Hat as ->. apply N.eqb_eq in Hdot as ->.
  apply plus_class in Hl as [? ?], Hd as [? ?], Ht as [? ?].
  exists l, d, t. repeat split; try done.
  by rewrite !Forall_app.
Qed.

(** X4: the addresses [validateEmail] accepts are exactly those of the
    form [local@domain.tail] in which the three parts are not empty and
    hold neither white space nor another [@]. *)
Theorem validateEmail_accepts (email : list code_unit) :
  validateEmail email = true
  ↔ ∃ l d t, email = l ++ [at_sign] ++ d ++ [dot] ++ t
             ∧ l ≠ [] ∧ d ≠ [] ∧ t ≠ []
             ∧ Forall (λ c, atom c = true) (l ++ d ++ t).
Proof.
  split; [apply accepted_parts|].
  unfold validateEmail. rewrite matches_lang. unfold re.
  intros (l & d & t & -> & Hl & Hd & Ht & Hall).
  rewrite !Forall_app in Hall. destruct Hall as (Al & Ad & At).
  apply lang_seq; [by apply plus_class|].
  apply (lang_seq _ _ [at_sign]); [by constructor|].
  apply lang_seq; [by apply plus_class|].
  apply (lang_seq _ _ [dot]); [by constructor|].
  by apply plus_class.
Qed.

Lemma atom_count (s : list code_unit) :
  Forall (λ c, atom c = true) s →
  length (filter (λ c, c = at_sign) s) = 0%nat
  ∧ Forall (λ c, is_space c = false) s.
Proof.
  induction 1 as [|c s Hc _ [IHn IHs]]; [done|].
  unfold atom in Hc. apply negb_true_iff, orb_false_iff in Hc as [Hsp Hat].
  apply N.eqb_neq in Hat. rewrite filter_cons_False by done.
  split; [done|]. by constructor.
Qed.

(** X5: an accepted address holds exactly one [@], no white space, and
    at least five code units; it neither starts nor ends with the [@]. *)
Theorem validateEmail_shape (email : list code_unit) :
  validateEmail email = true →
  length (filter (λ c, c = at_sign) email) = 1%nat
  ∧ Forall (λ c, is_space c = false) email
  ∧ (5 ≤ length email)%nat
  ∧ head email ≠ Some at_sign
  ∧ last email ≠ Some at_sign.
Proof.
  intros H. apply accepted_parts in H
    as (l & d & t & -> & Hl & Hd & Ht & Hall).
  rewrite !Forall_app in Hall. destruct Hall as (Al & Ad & At).
  destruct (atom_count l Al) as [Nl Sl], (atom_count d Ad) as [Nd Sd],
    (atom_count t At) as [Nt St].
  split; [|split; [|split; [|split]]].
  - rewrite !filter_app, !length_app, Nl, Nd, Nt. by cbn.
  - rewrite !Forall_app. repeat split; try done; by repeat constructor.
  - rewrite !length_app. cbn.
    destruct l, d, t; cbn; try done; lia.
  - destruct l as [|c l]; [done|]. cbn. intros [= ->].
    apply Forall_cons in Al as [Hc _]. done.
  - assert (Hlast : last (l ++ [at_sign] ++ d ++ [dot] ++ t) = last t).
    { rewrite !app_assoc, last_app.
      destruct (proj2 (last_is_Some t) Ht) as [y ->]. done. }
    rewrite Hlast.
    assert (Hin : ∀ c, last t = Some c → atom c = true).
    { intros c Hc. apply last_Some_elem_of in Hc.
      by apply (proj1 (Forall_forall _ _) At). }
    intros Hc. by apply Hin in Hc.
Qed.

End EmailFacts.

Lemma validateEmail_shape_witness :
  Email.validateEmail (Email.units "user@example.com") = true
  ∧ length (filter (λ c, c = Email.at_sign) (Email.units "user@example.com"))
    = 1%nat.
Proof.
  assert (H : Email.validateEmail (Email.units "user@example.com") = true)
    by (by vm_compute).
  split; [exact H|].
  exact (proj1 (validateEmail_shape (Email.units "user@example.com") H)).
Defined.

(** ** Markup helpers *)

Section MarkupFacts.
Import Markup.
Local Open Scope list_scope.

Lemma elem_of_querySelectorAll (sel : element → bool) (doc : list element) (i : nat) :
  i ∈ querySelectorAll sel doc ↔ ∃ e, doc !! i = Some e ∧ sel e = true.
Proof.
  unfold querySelectorAll. rewrite list_elem_of_filter, elem_of_seq. split.
  - intros [Hs _]. destruct (doc !! i) as [e|]; [by exists e|done].
  - intros (e & He & Hs). rewrite He. split; [done|].
    apply lookup_lt_Some in He. lia.
Qed.

Lemma NoDup_querySelectorAll (sel : element → bool) (doc : list element) :
  NoDup (querySelectorAll sel doc).
Proof. apply NoDup_filter, NoDup_seq. Qed.

(** Altering every listed position once. *)
Lemma lookup_forEach_alter (f : element → element) (ps : list nat)
    (doc : list element) (j : nat) :
  NoDup ps →
  forEach (λ el doc, alter f el doc) ps doc !! j
  = if decide (j ∈ ps) then f <$> doc !! j else doc !! j.
Proof.
  unfold forEach. intros Hnd. revert doc.
  induction Hnd as [|p ps Hp _ IH]; intros doc.
  - cbn. by rewrite decide_False by apply not_elem_of_nil.
  - change (foldl (λ doc el, alter f el doc) (alter f p doc) ps !! j
            = if decide (j ∈ p :: ps) then f <$> doc !! j else doc !! j).
    rewrite IH. destruct (decide (j = p)) as [->|Hne].
    + rewrite decide_False by done. rewrite list_lookup_alter_eq.
      by rewrite decide_True by apply list_elem_of_here.
    + rewrite list_lookup_alter_ne by done.
      destruct (decide (j ∈ ps)) as [Hin|Hout].
      * by rewrite decide_True by by apply list_elem_of_further.
      * rewrite decide_False; [done|].
        intros [?|?]%elem_of_cons; done.
Qed.

Lemma length_forEach_alter (f : element → element) (ps : list nat)
    (doc : list element) :
  length (forEach (λ el doc, alter f el doc) ps doc) = length doc.
Proof.
  unfold forEach. revert doc. induction ps as [|p ps IH]; intros doc;
    [done|].
  change (length (foldl (λ doc el, alter f el doc) (alter f p doc) ps)
          = length doc).
  by rewrite IH, length_alter.
Qed.

(** The indexed loop of [optimizeImages] alters the nodes from the
    fourth on. *)
Lemma forEach_indexed_from (f : element → element) (k : nat) (ps : list nat)
    (doc : list element) :
  foldl (λ doc x, if (2 <? x.1)%nat then alter f x.2 doc else doc) doc
    (zip (seq k (length ps)) ps)
  = forEach (λ el doc, alter f el doc) (drop (3 - k) ps) doc.
Proof.
  unfold forEach. revert k doc. induction ps as [|p ps IH]; intros k doc.
  - by rewrite drop_nil.
  - cbn [length seq zip zip_with foldl fst snd]. rewrite IH.
    destruct (2 <? k)%nat eqn:Hk.
    + apply Nat.ltb_lt in Hk. replace (3 - k) with 0 by lia.
      replace (3 - S k) with 0 by lia. done.
    + apply Nat.ltb_ge in Hk. replace (3 - k) with (S (3 - S k)) by lia.
      done.
Qed.

Lemma optimizeImages_unfold (doc : list element) :
  App.optimizeImages doc
  = forEach (λ el doc, alter (set_loading "lazy") el doc)
      (drop 3 (querySelectorAll unmarked_image doc)) doc.
Proof.
  unfold App.optimizeImages, forEach_indexed.
  apply (forEach_indexed_from (set_loading "lazy") 0).
Qed.

Lemma classList_remove_absent (c : string) (e : element) :
  has_class c e = false → classList_remove c e = e.
Proof.
  unfold has_class, classList_remove. intros Hc.
  apply bool_decide_eq_false in Hc. destruct e as [t cl l]; cbn in *.
  f_equal. induction cl as [|x cl IH]; [done|].
  rewrite filter_cons_True.
  - f_equal. apply IH. intros H. apply Hc. by apply list_elem_of_further.
  - intros ->. apply Hc. apply list_elem_of_here.
Qed.

Lemma has_class_removed (c : string) (e : element) :
  has_class c (classList_remove c e) = false.
Proof.
  unfold has_class, classList_remove. cbn. apply bool_decide_eq_false.
  intros [H _]%list_elem_of_filter. done.
Qed.

Lemma querySelectorAll_none (sel : element → bool) (doc : list element) :
  Forall (λ e, sel e = false) doc → querySelectorAll sel doc = [].
Proof.
  intros Hall. apply elem_of_nil_inv. intros i
    (e & He & Hs)%elem_of_querySelectorAll.
  rewrite Forall_lookup in Hall. specialize (Hall i e He). cbn in Hall.
  congruence.
Qed.

Lemma removeLoadingStates_fmap (doc : list element) :
  App.removeLoadingStates doc = classList_remove "loading" <$> doc.
Proof.
  unfold App.removeLoadingStates. apply list_eq. intros j.
  rewrite lookup_forEach_alter by apply NoDup_querySelectorAll.
  rewrite list_lookup_fmap. destruct (decide _) as [Hin|Hout]; [done|].
  destruct (doc !! j) as [e|] eqn:He; [|done]. cbn. f_equal.
  symmetry. apply classList_remove_absent.
  destruct (has_class "loading" e) eqn:Hc; [|done].
  exfalso. apply Hout. apply elem_of_querySelectorAll. by exists e.
Qed.

(** X6: once the page has loaded no element carries the class
    [loading]: the helper strips it from every element, keeps the
    other classes in order and changes nothing else; the controller's
    [removeLoadingStates] and the script's load listener agree, and
    running the helper again changes nothing. *)
Theorem loading_states_removed (doc : list element) :
  App.removeLoadingStates doc = classList_remove "loading" <$> doc
  ∧ Script.load_listener doc = App.removeLoadingStates doc
  ∧ querySelectorAll (has_class "loading") (App.removeLoadingStates doc) = []
  ∧ App.removeLoadingStates (App.removeLoadingStates doc)
    = App.removeLoadingStates doc.
Proof.
  assert (Hnone : querySelectorAll (has_class "loading")
                    (App.removeLoadingStates doc) = []).
  { rewrite removeLoadingStates_fmap. apply querySelectorAll_none.
    apply Forall_fmap, Forall_forall. intros e _. apply has_class_removed. }
  split; [apply removeLoadingStates_fmap|]. split; [done|].
  split; [done|].
  unfold App.removeLoadingStates at 1. by rewrite Hnone.
Qed.

(** X7: [optimizeImages] leaves the first three images that have no
    [loading] attribute without one, gives every later such image
    [loading = lazy], touches no other element, and does nothing when
    run a second time. *)
Theorem optimizeImages_marks_from_fourth (doc : list element) :
  let images := querySelectorAll unmarked_image doc in
  let doc' := App.optimizeImages doc in
  length doc' = length doc
  ∧ (∀ j, j ∈ drop 3 images → doc' !! j = set_loading "lazy" <$> doc !! j)
  ∧ (∀ j, j ∉ drop 3 images → doc' !! j = doc !! j)
  ∧ (∀ j, j ∈ querySelectorAll unmarked_image doc' ↔ j ∈ take 3 images)
  ∧ length (querySelectorAll unmarked_image doc') = min 3 (length images)
  ∧ App.optimizeImages doc' = doc'.
Proof.
  intros images doc'.
  assert (Hnd : NoDup images) by apply NoDup_querySelectorAll.
  assert (Hnd3 : NoDup (drop 3 images)).
  { rewrite <- (take_drop 3 images) in Hnd. by apply NoDup_app in Hnd as (_ & _ & ?). }
  assert (Hin : ∀ j, j ∈ drop 3 images → doc' !! j = set_loading "lazy" <$> doc !! j).
  { intros j Hj. unfold doc'. rewrite optimizeImages_unfold.
    fold images. rewrite lookup_forEach_alter by done.
    by rewrite decide_True by done. }
  assert (Hout : ∀ j, j ∉ drop 3 images → doc' !! j = doc !! j).
  { intros j Hj. unfold doc'. rewrite optimizeImages_unfold.
    fold images. rewrite lookup_forEach_alter by done.
    by rewrite decide_False by done. }
  assert (Hsel : ∀ j, j ∈ querySelectorAll unmarked_image doc' ↔ j ∈ take 3 images).
  { intros j. rewrite elem_of_querySelectorAll. split.
    - intros (e & He & Hs). destruct (decide (j ∈ drop 3 images)) as [Hj|Hj].
      + rewrite (Hin j Hj) in He. destruct (doc !! j) as [e0|]; [|done].
        cbn in He. injection He as <-.
        unfold unmarked_image, set_loading in Hs. cbn in Hs.
        by rewrite andb_false_r in Hs.
      + rewrite (Hout j Hj) in He.
        assert (Hj' : j ∈ images) by (apply elem_of_querySelectorAll; eauto).
        rewrite <- (take_drop 3 images) in Hj'.
        apply elem_of_app in Hj' as [?|?]; done.
    - intros Hj.
      assert (Hj3 : j ∉ drop 3 images).
      { rewrite <- (take_drop 3 images) in Hnd.
        apply NoDup_app in Hnd as (_ & Hd & _). by apply Hd. }
      rewrite (Hout j Hj3). apply elem_of_querySelectorAll.
      change (j ∈ images).
      rewrite <- (take_drop 3 images). apply elem_of_app. by left. }
  assert (Hlen : length (querySelectorAll unmarked_image doc') = min 3 (length images)).
  { rewrite <- length_take. apply Permutation_length, NoDup_Permutation.
    - apply NoDup_querySelectorAll.
    - rewrite <- (take_drop 3 images) in Hnd. by apply NoDup_app in Hnd as (? & _ & _).
    - done. }
  split. { unfold doc'. rewrite optimizeImages_unfold. apply length_forEach_alter. }
  do 4 (split; [done|]).
  rewrite optimizeImages_unfold. rewrite drop_ge by lia. done.
Qed.

Lemma lookup_querySelector (sel : element → bool) (doc : list element) (i : nat) :
  querySelector sel doc = Some i → ∃ e, doc !! i = Some e ∧ sel e = true.
Proof.
  unfold querySelector. intros H. apply elem_of_querySelectorAll.
  destruct (querySelectorAll sel doc) as [|x l]; [done|].
  injection H as ->. apply list_elem_of_here.
Qed.

(** Changing an element in a way the selector does not see leaves the
    selection as it was. *)
Lemma querySelectorAll_alter (sel : element → bool) (f : element → element)
    (m : nat) (doc : list element) :
  (∀ e, sel (f e) = sel e) →
  querySelectorAll sel (alter f m doc) = querySelectorAll sel doc.
Proof.
  intros Hf. unfold querySelectorAll. rewrite length_alter.
  apply list_filter_iff. intros i. rewrite list_lookup_alter.
  destruct (decide (m = i)) as [->|]; [|done].
  destruct (doc !! i); cbn; [by rewrite Hf|done].
Qed.

Lemma has_class_toggle (c c' : string) (e : element) :
  has_class c' (classList_toggle c e)
  = if decide (c' = c) then negb (has_class c e) else has_class c' e.
Proof.
  unfold classList_toggle. destruct (has_class c e) eqn:Hc.
  - destruct (decide (c' = c)) as [->|Hne]; [apply has_class_removed|].
    unfold has_class, classList_remove. cbn. apply bool_decide_ext.
    rewrite list_elem_of_filter. split; [by intros [_ ?]|by intros ?].
  - unfold has_class in *. apply bool_decide_eq_false in Hc.
    unfold classList_add. cbn. rewrite decide_False by done.
    destruct (decide (c' = c)) as [->|Hne].
    + apply bool_decide_eq_true. apply elem_of_app. right.
      apply list_elem_of_here.
    + apply bool_decide_ext. rewrite elem_of_app, list_elem_of_singleton.
      split; [by intros [?|?]|by left].
Qed.

Lemma toggle_twice (c : string) (e : element) :
  same_classes (classList_toggle c (classList_toggle c e)) e.
Proof.
  split; [|split].
  - unfold classList_toggle. by repeat (destruct (has_class _ _)).
  - unfold classList_toggle. by repeat (destruct (has_class _ _)).
  - intros c'. rewrite has_class_toggle.
    destruct (decide (c' = c)) as [->|Hne].
    + rewrite has_class_toggle, decide_True by done. apply negb_involutive.
    + by rewrite has_class_toggle, decide_False.
Qed.

(** X8: [toggleMobileMenu] flips the class [active] on the first
    element with class [mobile-menu] and on nothing else: its other
    classes, every other element and the size of the page stay as they
    were, and a second call brings every element back to its classes. *)
Theorem toggleMobileMenu_flips_active (doc : list element) (menu : nat)
    (e : element) :
  querySelector (has_class "mobile-menu") doc = Some menu →
  doc !! menu = Some e →
  let doc' := Script.toggleMobileMenu doc in
  doc' !! menu = Some (classList_toggle "active" e)
  ∧ has_class "active" (classList_toggle "active" e)
    = negb (has_class "active" e)
  ∧ (∀ c, c ≠ "active" →
       has_class c (classList_toggle "active" e) = has_class c e)
  ∧ (∀ j, j ≠ menu → doc' !! j = doc !! j)
  ∧ length doc' = length doc
  ∧ Forall2 same_classes (Script.toggleMobileMenu doc') doc.
Proof.
  intros Hq He doc'.
  assert (Hd : doc' = alter (classList_toggle "active") menu doc).
  { unfold doc', Script.toggleMobileMenu. by rewrite Hq. }
  assert (Hq' : querySelector (has_class "mobile-menu") doc' = Some menu).
  { rewrite Hd. unfold querySelector.
    rewrite querySelectorAll_alter; [done|].
    intros e0. rewrite has_class_toggle. by rewrite decide_False. }
  split. { by rewrite Hd, list_lookup_alter_eq, He. }
  split. { rewrite has_class_toggle. by rewrite decide_True. }
  split. { intros c Hc. rewrite has_class_toggle. by rewrite decide_False. }
  split. { intros j Hj. rewrite Hd. by rewrite list_lookup_alter_ne. }
  split. { by rewrite Hd, length_alter. }
  unfold Script.toggleMobileMenu at 1. rewrite Hq'. rewrite Hd.
  apply Forall2_same_length_lookup_2.
  - by rewrite !length_alter.
  - intros i x y Hx Hy. destruct (decide (menu = i)) as [->|].
    + rewrite !list_lookup_alter_eq, Hy in Hx. cbn in Hx.
      injection Hx as <-. apply toggle_twice.
    + rewrite !list_lookup_alter_ne, Hy in Hx by done.
      injection Hx as <-. by repeat split.
Qed.

(** X9: without a [mobile-menu] element, [toggleMobileMenu] changes
    nothing. *)
Theorem toggleMobileMenu_without_menu (doc : list element) :
  Forall (λ e, has_class "mobile-menu" e = false) doc →
  Script.toggleMobileMenu doc = doc.
Proof.
  intros H. unfold Script.toggleMobileMenu, querySelector.
  by rewrite querySelectorAll_none.
Qed.

End MarkupFacts.

Lemma toggleMobileMenu_flips_active_witness :
  Markup.querySelector (Markup.has_class "mobile-menu") Markup.gallery = Some 6
  ∧ Markup.has_class "active"
      (Markup.classList_toggle "active"
         {| Markup.tagName := "nav"; Markup.classList := ["mobile-menu"];
            Markup.loading := None |}) = true.
Proof.
  assert (Hq : Markup.querySelector (Markup.has_class "mobile-menu")
                 Markup.gallery = Some 6) by (vm_compute; reflexivity).
  split; [exact Hq|].
  exact (proj1 (proj2 (toggleMobileMenu_flips_active Markup.gallery 6 _ Hq
                         eq_refl))).
Defined.

Lemma toggleMobileMenu_without_menu_witness :
  Markup.Script.toggleMobileMenu [Markup.img None] = [Markup.img None].
Proof.
  apply toggleMobileMenu_without_menu.
  apply Forall_cons; split; [vm_compute; reflexivity|constructor].
Defined.

(** ** Watchers over a whole visit *)

Section SessionFacts.
Import Watcher Sessions.

(** A fold that moves from [A] to [B] at the first element that hits,
    and stays in [B]. *)
Lemma foldl_flag {X T} (f : T → X → T) (hit : X → bool) (A B : T → Prop)
    (l : list X) (s : T) :
  (∀ x s, A s → hit x = false → A (f s x)) →
  (∀ x s, A s → hit x = true → B (f s x)) →
  (∀ x s, B s → B (f s x)) →
  (A s → if existsb hit l then B (foldl f s l) else A (foldl f s l))
  ∧ (B s → B (foldl f s l)).
Proof.
  intros HA HAB HB. revert s. induction l as [|x l IH]; intros s; [done|].
  cbn [foldl existsb]. split.
  - intros Hs. destruct (hit x) eqn:Hx; cbn [orb].
    + apply IH. by apply HAB.
    + apply IH. by apply HA.
  - intros Hs. apply IH. by apply HB.
Qed.

(** Entries for an observed element pass the browser's filter. *)
Lemma reports_filter (el : ref) (es : list entry) (s : state) :
  el ∈ observed s →
  existsb (reports el) (filter (λ e, target e ∈ observed s) es)
  = existsb (reports el) es.
Proof.
  intros Hel. induction es as [|en es IH]; [done|].
  destruct (decide (target en ∈ observed s)) as [Hin|Hout].
  - rewrite filter_cons_True by done. cbn [existsb]. by rewrite IH.
  - rewrite filter_cons_False by done. cbn [existsb]. rewrite IH.
    assert (Hr : reports el en = false).
    { unfold reports. rewrite bool_decide_eq_false_2; [done|]. by intros <-. }
    by rewrite Hr.
Qed.

Lemma reports_true (el : ref) (en : entry) :
  reports el en = true → target en = el ∧ isIntersecting en = true.
Proof.
  unfold reports. intros [H1 H2]%andb_true_iff.
  by apply bool_decide_eq_true in H1.
Qed.

Lemma reports_false (el : ref) (en : entry) :
  reports el en = false → isIntersecting en = true → target en ≠ el.
Proof.
  unfold reports. intros H Hi Heq.
  rewrite Hi, bool_decide_eq_true_2 in H; done.
Qed.

Lemma style_of_update (r el : ref) (f : element → element) (s : state) :
  style_of el (update r f s)
  = if decide (r = el)
    then (λ e, (opacity (f e), transform (f e), transition (f e)))
           <$> elements s !! el
    else style_of el s.
Proof.
  unfold style_of, update. cbn [elements]. destruct (decide (r = el)) as [->|].
  - rewrite lookup_alter_eq. by destruct (elements s !! el).
  - by rewrite lookup_alter_ne.
Qed.

Lemma hide_waiting (r el : ref) (s : state) :
  waiting el s ∨ (r = el ∧ is_Some (elements s !! el)) →
  waiting el (observe r (update r set_hidden s)).
Proof.
  intros H. unfold waiting.
  change (style_of el (observe r (update r set_hidden s)))
    with (style_of el (update r set_hidden s)).
  rewrite style_of_update. cbn [observed observe update]. split.
  - destruct (decide (r = el)) as [->|Hne].
    + destruct H as [[H _]|[_ [e He]]].
      * unfold style_of in H. destruct (elements s !! el); done.
      * by rewrite He.
    + destruct H as [[H _]|[? _]]; done.
  - destruct H as [[_ H]|[-> _]].
    + apply elem_of_union. by left.
    + apply elem_of_union. right. by apply elem_of_singleton.
Qed.

(** Both set-ups leave every selected element hidden and observed. *)
Lemma setup_waiting (els : list ref) (el : ref) (s : state) :
  el ∈ els → is_Some (elements s !! el) →
  waiting el (App.initializeAnimations els s).
Proof.
  intros Hel Hs. apply list_elem_of_split in Hel as (l1 & l2 & ->).
  unfold App.initializeAnimations, forEach. rewrite foldl_app. cbn [foldl].
  match goal with
  | |- waiting el (foldl ?f ?s0 l2) =>
      apply (forEach_keeps (waiting el) (λ _, True) (λ x s, f s x) l2);
        [|by apply Forall_true|]
  end.
  - intros r s' _ Hw. apply hide_waiting. by left.
  - apply hide_waiting. right. split; [done|].
    match goal with
    | |- is_Some (elements (foldl ?f s l1) !! el) =>
        apply (forEach_keeps (λ s, is_Some (elements s !! el)) (λ _, True)
                 (λ x s, f s x) l1); [|by apply Forall_true|done]
    end.
    intros r s' _ [e He]. cbn [elements observe update].
    destruct (decide (r = el)) as [->|].
    + rewrite lookup_alter_eq, He. by eexists.
    + rewrite lookup_alter_ne by done. by eexists.
Qed.

Lemma reveal_revealed (r el : ref) (s : state) :
  revealed el s ∨ (r = el ∧ waiting el s) →
  revealed el (update r set_revealed s).
Proof.
  intros H. unfold revealed. rewrite style_of_update.
  destruct (decide (r = el)) as [->|Hne].
  - unfold waiting, revealed, style_of in H.
    destruct (elements s !! el) as [e|]; [|by destruct H as [H|[_ [H _]]]].
    cbn in *. destruct H as [H|[_ [H _]]]; injection H as _ _ ->; done.
  - destruct H as [H|[? _]]; done.
Qed.

(** One notification, the flat script's reveal watcher. *)
Lemma script_deliver_reveal (el : ref) (es : list entry) (s : state) :
  (waiting el s →
     if existsb (reports el) es
     then revealed el (deliver Script.observer es s)
          ∧ el ∈ observed (deliver Script.observer es s)
     else waiting el (deliver Script.observer es s))
  ∧ (revealed el s → revealed el (deliver Script.observer es s)).
Proof.
  unfold deliver, Script.observer, forEach.
  set (l := filter _ es).
  set (f := λ (s : state) (en : entry),
              if isIntersecting en then update (target en) set_revealed s
              else s).
  assert (Hkeep : ∀ x s0, revealed el s0 → revealed el (f s0 x)).
  { intros en s0 Hs. unfold f. destruct (isIntersecting en); [|done].
    apply reveal_revealed. by left. }
  split;
    [|intros Hs;
      apply (proj2 (foldl_flag f (reports el) (revealed el) (revealed el) l s
                      ltac:(intros; by apply Hkeep)
                      ltac:(intros; by apply Hkeep)
                      ltac:(intros; by apply Hkeep)) Hs)].
  intros Hw. rewrite <- (reports_filter el es s) by apply Hw. fold l.
  pose proof (proj1 (foldl_flag f (reports el) (waiting el)
                (λ s, revealed el s ∧ el ∈ observed s) l s
                ltac:(intros en s0 Hs Hr; unfold f;
                      destruct (isIntersecting en) eqn:Hi; [|done];
                      pose proof (reports_false _ _ Hr Hi);
                      destruct Hs as [Hst Ho]; split; [|done];
                      by rewrite style_of_update, decide_False)
                ltac:(intros en s0 Hs Hr; unfold f;
                      destruct (reports_true _ _ Hr) as [-> ->];
                      split; [apply reveal_revealed; by right|apply Hs])
                ltac:(intros en s0 [Hs Ho]; split; [by apply Hkeep|];
                      unfold f; by destruct (isIntersecting en))) Hw) as H.
  exact H.
Qed.

(** One notification, the controller's reveal watcher. *)
Lemma app_deliver_reveal (el : ref) (es : list entry) (s : state) :
  (waiting el s →
     if existsb (reports el) es
     then revealed el (deliver App.observer es s)
          ∧ el ∉ observed (deliver App.observer es s)
     else waiting el (deliver App.observer es s))
  ∧ (revealed el s ∧ el ∉ observed s →
     revealed el (deliver App.observer es s)
     ∧ el ∉ observed (deliver App.observer es s)).
Proof.
  split.
  - intros Hw. rewrite <- (reports_filter el es s) by apply Hw.
    unfold deliver, App.observer, forEach.
    set (l := filter _ es).
    set (f := λ (s : state) (en : entry),
                if isIntersecting en
                then unobserve (target en) (App.animateElement (target en) s)
                else s).
    apply (foldl_flag f (reports el) (waiting el)
             (λ s, revealed el s ∧ el ∉ observed s) l s); [| | |done].
    + intros en s0 [Hst Ho] Hr. unfold f.
      destruct (isIntersecting en) eqn:Hi; [|done].
      pose proof (reports_false _ _ Hr Hi) as Hne. split.
      * change (style_of el (update (target en) set_revealed s0)
                = Some hidden_style).
        by rewrite style_of_update, decide_False.
      * cbn. apply elem_of_difference. split; [done|].
        intros ?%elem_of_singleton. done.
    + intros en s0 Hs Hr. unfold f.
      destruct (reports_true _ _ Hr) as [-> ->]. split.
      * apply (reveal_revealed el el s0). by right.
      * apply unobserve_out.
    + intros en s0 [Hs Ho]. unfold f.
      destruct (isIntersecting en); [|done]. split.
      * apply (reveal_revealed (target en) el s0). by left.
      * by apply unobserve_keeps_out.
  - intros [Hs Ho].
    destruct (deliver_unobserved App.observer el es s) as [He Ho'];
      [unfold the_callbacks; do 2 apply list_elem_of_further;
       apply list_elem_of_here|done|].
    split; [|done]. unfold revealed, style_of in *. by rewrite He.
Qed.

(** X10: over a whole visit, with either variant's set-up and reveal
    watcher: an element selected for the reveal animation ends up
    revealed when some notification of the visit reported it as
    intersecting, and hidden, with the transition in place, when none
    did. *)
Theorem reveal_iff_reported
    (setup : list ref → state → state) (cb : list entry → state → state)
    (els : list ref) (batches : list (list entry)) (el : ref) (s : state) :
  (setup, cb) ∈ reveal_watchers →
  el ∈ els → is_Some (elements s !! el) →
  style_of el (deliveries cb batches (setup els s))
  = Some (if reported el batches then revealed_style else hidden_style).
Proof.
  intros Hw Hel Hs. unfold reveal_watchers in Hw.
  apply elem_of_cons in Hw as [[= -> ->]|Hw];
    [|apply list_elem_of_singleton in Hw as [= -> ->]].
  - pose proof (setup_waiting els el s Hel Hs) as H0.
    change (Script.animate_setup els s) with (App.initializeAnimations els s).
    pose proof (proj1 (foldl_flag (λ s es, deliver Script.observer es s)
                  (existsb (reports el)) (waiting el) (revealed el)
                  batches (App.initializeAnimations els s)
                  ltac:(intros es s0 Hs0 Hr;
                        pose proof (proj1 (script_deliver_reveal el es s0) Hs0)
                          as H; by rewrite Hr in H)
                  ltac:(intros es s0 Hs0 Hr;
                        pose proof (proj1 (script_deliver_reveal el es s0) Hs0)
                          as H; rewrite Hr in H; apply H)
                  ltac:(intros es s0 Hs0;
                        by apply script_deliver_reveal)) H0) as H.
    unfold deliveries, reported.
    destruct (existsb (existsb (reports el)) batches); [done|apply H].
  - pose proof (setup_waiting els el s Hel Hs) as H0.
    pose proof (proj1 (foldl_flag (λ s es, deliver App.observer es s)
                  (existsb (reports el)) (waiting el)
                  (λ s, revealed el s ∧ el ∉ observed s)
                  batches (App.initializeAnimations els s)
                  ltac:(intros es s0 Hs0 Hr;
                        pose proof (proj1 (app_deliver_reveal el es s0) Hs0)
                          as H; by rewrite Hr in H)
                  ltac:(intros es s0 Hs0 Hr;
                        pose proof (proj1 (app_deliver_reveal el es s0) Hs0)
                          as H; by rewrite Hr in H)
                  ltac:(intros es s0 Hs0;
                        by apply app_deliver_reveal)) H0) as H.
    unfold deliveries, reported.
    destruct (existsb (existsb (reports el)) batches); [apply H|apply H].
Qed.

Lemma app_observer_in_callbacks : App.observer ∈ the_callbacks.
Proof.
  unfold the_callbacks. do 2 apply list_elem_of_further.
  apply list_elem_of_here.
Qed.

(** One notification and the controller's observed set. *)
Lemma app_deliver_observed (el : ref) (es : list entry) (s : state) :
  (el ∈ observed s →
     if existsb (reports el) es
     then el ∉ observed (deliver App.observer es s)
     else el ∈ observed (deliver App.observer es s))
  ∧ (el ∉ observed s → el ∉ observed (deliver App.observer es s)).
Proof.
  split.
  - intros Ho. rewrite <- (reports_filter el es s Ho).
    unfold deliver, App.observer, forEach.
    generalize (filter (λ e, target e ∈ observed s) es). intros l.
    apply (foldl_flag
             (λ s en, if isIntersecting en
                      then unobserve (target en)
                             (App.animateElement (target en) s)
                      else s)
             (reports el) (λ s, el ∈ observed s) (λ s, el ∉ observed s));
      [| | |done].
    + intros en s1 Hs1 Hr. cbv beta.
      destruct (isIntersecting en) eqn:Hi; [|done].
      pose proof (reports_false _ _ Hr Hi).
      cbn. apply elem_of_difference. split; [done|].
      by intros ?%elem_of_singleton.
    + intros en s1 Hs1 Hr. cbv beta.
      destruct (reports_true _ _ Hr) as [-> ->]. apply unobserve_out.
    + intros en s1 Hs1. cbv beta. destruct (isIntersecting en); [|done].
      by apply unobserve_keeps_out.
  - intros Ho.
    by apply (deliver_unobserved App.observer el es s
                app_observer_in_callbacks).
Qed.

(** X11: the controller's reveal watcher stops observing an element at
    the first notification that reports it as intersecting and never
    observes it again; the flat script's watcher never stops observing
    anything. *)
Theorem reveal_observation_ends (batches : list (list entry)) (el : ref)
    (s : state) :
  (el ∈ observed (deliveries App.observer batches s)
   ↔ el ∈ observed s ∧ reported el batches = false)
  ∧ observed (deliveries Script.observer batches s) = observed s.
Proof.
  split.
  - assert (Hflag :
      (el ∈ observed s →
         if reported el batches
         then el ∉ observed (deliveries App.observer batches s)
         else el ∈ observed (deliveries App.observer batches s))
      ∧ (el ∉ observed s → el ∉ observed (deliveries App.observer batches s))).
    { unfold reported, deliveries.
      apply (foldl_flag (λ s es, deliver App.observer es s)
               (existsb (reports el)) (λ s, el ∈ observed s)
               (λ s, el ∉ observed s)).
      - intros es s0 Hs0 Hr.
        pose proof (proj1 (app_deliver_observed el es s0) Hs0) as H.
        by rewrite Hr in H.
      - intros es s0 Hs0 Hr.
        pose proof (proj1 (app_deliver_observed el es s0) Hs0) as H.
        by rewrite Hr in H.
      - intros es s0 Hs0. by apply app_deliver_observed. }
    destruct Hflag as [Hin Hout].
    destruct (decide (el ∈ observed s)) as [Ho|Ho].
    + specialize (Hin Ho). destruct (reported el batches).
      * split; [done|]. by intros [_ ?].
      * done.
    + specialize (Hout Ho). split; [done|]. by intros [? _].
  - unfold deliveries. revert s.
    induction batches as [|es batches IH]; intros s; [done|].
    cbn [foldl]. rewrite IH. unfold deliver, Script.observer.
    generalize (filter (λ e, target e ∈ observed s) es) as l. intros l.
    apply (forEach_keeps (λ s', observed s' = observed s) (λ _, True));
      [|by apply Forall_true|done].
    intros en s' _ Hs'. by destruct (isIntersecting en).
Qed.

Lemma lookup_update (r el : ref) (f : element → element) (s : state) :
  elements (update r f s) !! el
  = if decide (r = el) then f <$> elements s !! el else elements s !! el.
Proof.
  unfold update. cbn [elements]. destruct (decide (r = el)) as [->|].
  - by rewrite lookup_alter_eq.
  - by rewrite lookup_alter_ne.
Qed.

Lemma classList_remove_twice (c : string) (e : element) :
  classList_remove c (classList_remove c e) = classList_remove c e.
Proof.
  unfold classList_remove. cbn. f_equal.
  induction (classList e) as [|x l IH]; [done|].
  destruct (decide (x = c)) as [->|Hne].
  - by rewrite filter_cons_False by (by intros ?).
  - rewrite filter_cons_True by done. rewrite filter_cons_True by done.
    by rewrite IH.
Qed.

(** Loading an image a second time changes nothing. *)
Lemma load_twice (g : element → element) cb (e : element) :
  (g, cb) ∈ image_watchers → g (g e) = g e.
Proof.
  unfold image_watchers. intros Hg.
  apply elem_of_cons in Hg as [[= -> ->]|Hg];
    [|apply list_elem_of_singleton in Hg as [= -> ->]].
  - destruct e as [o t tr sr d cl]. unfold classList_remove, assign_src. cbn.
    f_equal. change (Watcher.classList
      (classList_remove "lazy" (classList_remove "lazy"
         {| opacity := o; transform := t; transition := tr; src := sr;
            data_src := d; classList := cl |}))
      = Watcher.classList (classList_remove "lazy"
         {| opacity := o; transform := t; transition := tr; src := sr;
            data_src := d; classList := cl |})).
    by rewrite classList_remove_twice.
  - destruct e as [o t tr sr d cl].
    unfold classList_add, classList_remove, assign_src. cbn.
    set (l := filter (λ x, x ≠ "lazy") cl).
    assert (Hl : filter (λ x, x ≠ "lazy") l = l).
    { change (Watcher.classList
        (classList_remove "lazy" (classList_remove "lazy"
           {| opacity := o; transform := t; transition := tr; src := sr;
              data_src := d; classList := cl |})) = l).
      by rewrite classList_remove_twice. }
    destruct (decide ("loaded" ∈ l)) as [Hin|Hout].
    + rewrite Hl. by rewrite decide_True.
    + rewrite filter_app, Hl. rewrite filter_cons_True by done.
      rewrite filter_nil.
      rewrite decide_True; [done|].
      apply elem_of_app. right. apply list_elem_of_here.
Qed.

(** X12: over a whole visit, with the observer class available, a lazy
    image is loaded exactly when some notification reported it as
    intersecting: it then has its [data-src] as source and is no longer
    observed; otherwise it is as it was and still observed.  The flat
    script removes the class [lazy]; the controller also adds
    [loaded]. *)
Theorem lazy_image_loaded_iff_reported
    (g : element → element) (cb : list entry → state → state)
    (imgs : list ref) (batches : list (list entry)) (el : ref) (e : element)
    (s : state) :
  (g, cb) ∈ image_watchers →
  el ∈ imgs → elements s !! el = Some e →
  let s' := deliveries cb batches (setupLazyLoading true imgs s) in
  elements s' !! el = Some (if reported el batches then g e else e)
  ∧ (el ∈ observed s' ↔ reported el batches = false)
  ∧ src (g e) = default "undefined" (data_src e)
  ∧ "lazy" ∉ classList (g e).
Proof.
  intros Hg Hel He s'.
  assert (H0 : elements (setupLazyLoading true imgs s) !! el = Some e
               ∧ el ∈ observed (setupLazyLoading true imgs s)).
  { unfold setupLazyLoading. apply list_elem_of_split in Hel as (l1 & l2 & ->).
    unfold forEach. rewrite foldl_app. cbn [foldl].
    match goal with
    | |- context [foldl ?f (observe el ?s0) l2] =>
        apply (forEach_keeps
                 (λ s, elements s !! el = Some e ∧ el ∈ observed s)
                 (λ _, True) (λ x s, f s x) l2);
          [|by apply Forall_true|]
    end.
    - intros r s0 _ [? ?]. split; [done|]. cbn. apply elem_of_union. by left.
    - split.
      + cbn [elements observe].
        apply (forEach_keeps (λ s, elements s !! el = Some e) (λ _, True)
                 (λ x s, observe x s) l1); [|by apply Forall_true|done].
        by intros r s0 _ ?.
      + cbn. apply elem_of_union. right. by apply elem_of_singleton. }
  assert (Hidem : g (g e) = g e) by by eapply load_twice.
  assert (Hcb : cb ∈ the_callbacks).
  { unfold image_watchers in Hg. unfold the_callbacks.
    apply elem_of_cons in Hg as [[= _ ->]|Hg];
      [|apply list_elem_of_singleton in Hg as [= _ ->]].
    - apply list_elem_of_further, list_elem_of_here.
    - do 3 apply list_elem_of_further. apply list_elem_of_here. }
  assert (Hbody : ∃ f, (∀ l s0, cb l s0 = foldl f s0 l)
            ∧ (∀ en s1, isIntersecting en = false → f s1 en = s1)
            ∧ (∀ en s1, isIntersecting en = true →
                 observed (f s1 en) = observed s1 ∖ {[target en]}
                 ∧ ∀ r, elements (f s1 en) !! r
                        = if decide (target en = r)
                          then g <$> elements s1 !! r
                          else elements s1 !! r)).
  { unfold image_watchers in Hg.
    apply elem_of_cons in Hg as [[= -> ->]|Hg];
      [|apply list_elem_of_singleton in Hg as [= -> ->]].
    - eexists. split; [intros l s0; reflexivity|]. split.
      + intros en s1 Hi. cbv beta. by rewrite Hi.
      + intros en s1 Hi. cbv beta. rewrite Hi. split; [done|].
        intros r. cbn [elements unobserve]. rewrite !lookup_update.
        destruct (decide (target en = r)); [|done].
        by destruct (elements s1 !! r).
    - eexists. split; [intros l s0; reflexivity|]. split.
      + intros en s1 Hi. cbv beta. by rewrite Hi.
      + intros en s1 Hi. cbv beta. rewrite Hi. split; [done|].
        intros r. unfold App.loadImage. cbn [elements unobserve].
        rewrite !lookup_update.
        destruct (decide (target en = r)); [|done].
        by destruct (elements s1 !! r). }
  destruct Hbody as (f & Hcbf & Hmiss & Hhit).
  assert (Hstep : ∀ es s0,
            (elements s0 !! el = Some e ∧ el ∈ observed s0 →
               if existsb (reports el) es
               then elements (deliver cb es s0) !! el = Some (g e)
                    ∧ el ∉ observed (deliver cb es s0)
               else elements (deliver cb es s0) !! el = Some e
                    ∧ el ∈ observed (deliver cb es s0))
            ∧ (elements s0 !! el = Some (g e) ∧ el ∉ observed s0 →
               elements (deliver cb es s0) !! el = Some (g e)
               ∧ el ∉ observed (deliver cb es s0))).
  { intros es s0. split.
    - intros [Hs0 Ho]. rewrite <- (reports_filter el es s0 Ho).
      unfold deliver. generalize (filter (λ e0, target e0 ∈ observed s0) es).
      intros l. rewrite Hcbf.
      apply (foldl_flag f (reports el)
               (λ s, elements s !! el = Some e ∧ el ∈ observed s)
               (λ s, elements s !! el = Some (g e) ∧ el ∉ observed s));
        [| | |done].
      + intros en s1 [Hs1 Ho1] Hr.
        destruct (isIntersecting en) eqn:Hi; [|by rewrite Hmiss].
        pose proof (reports_false _ _ Hr Hi) as Hne.
        destruct (Hhit en s1 Hi) as [Hob Hel']. split.
        * by rewrite Hel', decide_False.
        * rewrite Hob. apply elem_of_difference. split; [done|].
          by intros ?%elem_of_singleton.
      + intros en s1 [Hs1 Ho1] Hr.
        destruct (reports_true _ _ Hr) as [Ht Hi].
        destruct (Hhit en s1 Hi) as [Hob Hel']. split.
        * by rewrite Hel', decide_True, Hs1.
        * rewrite Hob, Ht. apply not_elem_of_difference. right.
          by apply elem_of_singleton.
      + intros en s1 [Hs1 Ho1].
        destruct (isIntersecting en) eqn:Hi; [|by rewrite Hmiss].
        destruct (Hhit en s1 Hi) as [Hob Hel']. split.
        * rewrite Hel'. destruct (decide (target en = el)); [|done].
          rewrite Hs1. cbn. by rewrite Hidem.
        * rewrite Hob. apply not_elem_of_difference. by left.
    - intros [Hs0 Ho].
      destruct (deliver_unobserved cb el es s0 Hcb Ho) as [H1 H2].
      by rewrite H1. }
  pose proof (proj1 (foldl_flag (λ s es, deliver cb es s)
                (existsb (reports el))
                (λ s, elements s !! el = Some e ∧ el ∈ observed s)
                (λ s, elements s !! el = Some (g e) ∧ el ∉ observed s)
                batches (setupLazyLoading true imgs s)
                ltac:(intros es s0 Hs0 Hr;
                      pose proof (proj1 (Hstep es s0) Hs0) as H;
                      by rewrite Hr in H)
                ltac:(intros es s0 Hs0 Hr;
                      pose proof (proj1 (Hstep es s0) Hs0) as H;
                      by rewrite Hr in H)
                ltac:(intros es s0 Hs0; by apply Hstep)) H0) as H.
  fold (deliveries cb batches (setupLazyLoading true imgs s)) in H.
  fold s' in H. fold (reported el batches) in H.
  split; [by destruct (reported el batches); destruct H|].
  split.
  { destruct (reported el batches); destruct H as [_ H]; split; try done.
    }
  unfold image_watchers in Hg.
  apply elem_of_cons in Hg as [[= -> ->]|Hg];
    [|apply list_elem_of_singleton in Hg as [= -> ->]].
  - split; [done|]. cbn. intros [Hx _]%list_elem_of_filter. done.
  - split; [done|]. cbn. case_decide.
    + intros [Hx _]%list_elem_of_filter. done.
    + intros [[Hx _]%list_elem_of_filter|Hx%list_elem_of_singleton]%elem_of_app;
        done.
Qed.

(** X13: without the observer class the lazy-loading block does
    nothing: no image is observed, and whatever is notified no image
    gets its source. *)
Theorem lazy_images_without_observer
    (cb : list entry → state → state) (imgs : list ref)
    (batches : list (list entry)) (s : state) :
  cb ∈ the_callbacks → observed s = ∅ →
  let s' := deliveries cb batches (setupLazyLoading false imgs s) in
  elements s' = elements s ∧ observed s' = ∅.
Proof.
  intros Hcb Ho s'. unfold s', setupLazyLoading, deliveries. clear s'.
  revert s Ho. induction batches as [|es batches IH]; intros s Ho; [done|].
  cbn [foldl].
  assert (Hd : deliver cb es s = s).
  { unfold deliver.
    assert (Hl : filter (λ e, target e ∈ observed s) es = []).
    { apply elem_of_nil_inv. intros en [Hen _]%list_elem_of_filter.
      rewrite Ho in Hen. by apply elem_of_empty in Hen. }
    rewrite Hl. unfold the_callbacks in Hcb.
    repeat (apply elem_of_cons in Hcb as [-> | Hcb]);
      [..|by apply elem_of_nil in Hcb]; done. }
  rewrite Hd. by apply IH.
Qed.

End SessionFacts.

Lemma reveal_iff_reported_witness :
  (Watcher.App.initializeAnimations, Watcher.App.observer)
    ∈ Sessions.reveal_watchers
  ∧ 1%nat ∈ [1%nat]
  ∧ is_Some (Watcher.elements Sessions.two_elements !! 1%nat)
  ∧ Sessions.style_of 1%nat
      (Sessions.deliveries Watcher.App.observer Sessions.visit
         (Watcher.App.initializeAnimations [1%nat] Sessions.two_elements))
    = Some Sessions.revealed_style.
Proof.
  assert (H1 : (Watcher.App.initializeAnimations, Watcher.App.observer)
                 ∈ Sessions.reveal_watchers)
    by (apply list_elem_of_further, list_elem_of_here).
  assert (H2 : 1%nat ∈ [1%nat]) by apply list_elem_of_here.
  assert (H3 : is_Some (Watcher.elements Sessions.two_elements !! 1%nat))
    by (by vm_compute; eexists).
  split; [exact H1|]. split; [exact H2|]. split; [exact H3|].
  exact (reveal_iff_reported _ _ [1%nat] Sessions.visit 1%nat
           Sessions.two_elements H1 H2 H3).
Defined.

Lemma lazy_image_loaded_iff_reported_witness :
  2%nat ∈ [2%nat]
  ∧ Watcher.elements Sessions.two_elements !! 2%nat = Some Sessions.photo
  ∧ Watcher.elements
      (Sessions.deliveries Watcher.App.imageObserver Sessions.visit
         (Sessions.setupLazyLoading true [2%nat] Sessions.two_elements))
      !! 2%nat
    = Some (if Sessions.reported 2%nat Sessions.visit
            then Watcher.classList_add "loaded"
                   (Watcher.classList_remove "lazy"
                      (Watcher.assign_src Sessions.photo))
            else Sessions.photo).
Proof.
  assert (Hg : ((λ e, Watcher.classList_add "loaded"
                        (Watcher.classList_remove "lazy"
                           (Watcher.assign_src e))),
                Watcher.App.imageObserver) ∈ Sessions.image_watchers)
    by (apply list_elem_of_further, list_elem_of_here).
  assert (H2 : 2%nat ∈ [2%nat]) by apply list_elem_of_here.
  assert (H3 : Watcher.elements Sessions.two_elements !! 2%nat
               = Some Sessions.photo) by (by vm_compute).
  split; [exact H2|]. split; [exact H3|].
  exact (proj1 (lazy_image_loaded_iff_reported _ _ [2%nat] Sessions.visit
                  2%nat Sessions.photo Sessions.two_elements Hg H2 H3)).
Defined.

Lemma lazy_images_without_observer_witness :
  Watcher.elements
    (Sessions.deliveries Watcher.App.imageObserver Sessions.visit
       (Sessions.setupLazyLoading false [2%nat] Sessions.two_elements))
  = Watcher.elements Sessions.two_elements.
Proof.
  assert (H1 : Watcher.App.imageObserver ∈ Watcher.the_callbacks)
    by (do 3 apply list_elem_of_further; apply list_elem_of_here).
  exact (proj1 (lazy_images_without_observer _ [2%nat] Sessions.visit
                  Sessions.two_elements H1 eq_refl)).
Defined.

(** ** Dismissing the video modal *)

Section ModalEventFacts.
Import VideoModal ModalEvents.

Lemma app_playVideo_opened (doc : document) :
  present doc → opened (state_of (VideoModal.App.playVideo doc)).
Proof.
  intros [[d Hd] [v Hv]]. unfold VideoModal.App.playVideo. rewrite Hd, Hv.
  cbn. unfold opened. by destruct (playable v); cbn; eauto.
Qed.

Lemma app_closeVideo_shut (doc : document) :
  present doc → shut (state_of (VideoModal.App.closeVideo doc)).
Proof.
  intros [[d Hd] [v Hv]]. unfold VideoModal.App.closeVideo. rewrite Hd, Hv.
  cbn. unfold shut. cbn. eauto 10.
Qed.

Lemma opened_present (doc : document) : opened doc → present doc.
Proof. intros (Hd & _ & Hv). split; [by rewrite Hd|done]. Qed.

Lemma shut_present (doc : document) : shut doc → present doc.
Proof.
  intros (Hd & _ & v & Hv & _). split; [by rewrite Hd|by rewrite Hv].
Qed.

(** One event does what its command says. *)
Lemma dispatch_command (ev : user_event) (doc : document) :
  present doc →
  match command ev with
  | Some true => opened (App.dispatch ev doc)
  | Some false => shut (App.dispatch ev doc)
  | None => App.dispatch ev doc = doc
  end.
Proof.
  intros Hp. destruct ev as [[t a]|key]; cbn [command App.dispatch].
  - cbn [target action].
    assert (Hclicks : present (state_of (App.handleClicks a doc))).
    { unfold App.handleClicks. destruct a as [a|]; [|done].
      destruct (String.eqb a "play-video");
        [by apply opened_present, app_playVideo_opened|].
      destruct (String.eqb a "close-video");
        [by apply shut_present, app_closeVideo_shut|done]. }
    destruct t.
    + unfold App.handleModalClick, modal_element.
      destruct Hclicks as [[d Hd] Hv]. rewrite Hd.
      apply app_closeVideo_shut. split; [by rewrite Hd|done].
    + unfold App.handleModalClick.
      assert (Hsame : ∀ d0 : document,
                state_of match modal_element d0 with
                         | Some Modal_node => Normal d0
                         | _ => Normal d0
                         end = d0).
      { intros d0. by destruct (modal_element d0) as [[]|]. }
      rewrite Hsame. unfold App.handleClicks. destruct a as [a|]; [|done].
      destruct (String.eqb a "play-video"); [by apply app_playVideo_opened|].
      destruct (String.eqb a "close-video"); [by apply app_closeVideo_shut|].
      done.
  - unfold App.handleKeyboard. destruct (String.eqb key "Escape"); [|done].
    by apply app_closeVideo_shut.
Qed.

(** X14: on a page that has the modal and the video, after any sequence
    of clicks and key presses the modal is as the last command left it:
    open, with page scrolling suppressed, after a play click; shut,
    with scrolling restored and the video paused at its start, after a
    close click, a click on the backdrop or Escape; untouched when the
    sequence holds no command. *)
Theorem modal_follows_last_command (evs : list user_event) (doc : document) :
  present doc →
  match last_command evs with
  | Some true =>
      opened (App.events evs doc) ∧ modal_state_of (App.events evs doc) = OPEN
  | Some false =>
      shut (App.events evs doc) ∧ modal_state_of (App.events evs doc) = CLOSED
  | None => App.events evs doc = doc
  end.
Proof.
  intros Hp.
  assert (Hpres : present (App.events evs doc)
                  ∧ match last_command evs with
                    | Some true => opened (App.events evs doc)
                    | Some false => shut (App.events evs doc)
                    | None => App.events evs doc = doc
                    end).
  { induction evs as [|ev evs IH] using rev_ind; [done|].
    destruct IH as [Hp' IH]. unfold App.events, last_command in *.
    rewrite foldl_app, omap_app. cbn [foldl].
    assert (Hone : omap command [ev]
                   = match command ev with Some c => [c] | None => [] end).
    { cbn. by destruct (command ev). }
    rewrite Hone. clear Hone.
    pose proof (dispatch_command ev _ Hp') as Hev.
    destruct (command ev) as [[]|].
    - rewrite last_snoc. split; [by apply opened_present|done].
    - rewrite last_snoc. split; [by apply shut_present|done].
    - rewrite app_nil_r, Hev. done. }
  destruct Hpres as [_ H].
  destruct (last_command evs) as [[]|]; [| |done].
  - split; [done|]. destruct H as (Hd & _). unfold modal_state_of.
    by rewrite Hd.
  - split; [done|]. destruct H as (Hd & _). unfold modal_state_of.
    by rewrite Hd.
Qed.

(** X15: the flat script's [window.onclick] does nothing, and does not
    throw, for a click that does not land on the modal container, also
    on a page without the modal; on the container of a page that has
    modal and video it hides the modal and resets the video, and leaves
    the page's scrolling as it was. *)
Theorem script_backdrop_click (t : node) (doc : document) :
  (t = Other_node ∨ videoModal doc = None →
     Script.window_onclick t doc = Normal doc)
  ∧ (present doc →
     ∃ doc', Script.window_onclick Modal_node doc = Normal doc'
             ∧ videoModal doc' = Some "none"
             ∧ (∃ v, heroVideo doc' = Some v ∧ paused v = true
                     ∧ currentTime v = 0%Q)
             ∧ body_overflow doc' = body_overflow doc).
Proof.
  unfold Script.window_onclick, modal_element. split.
  - intros [->| ->]; [by destruct (videoModal doc)|done].
  - intros [[d Hd] [v Hv]]. rewrite Hd.
    unfold VideoModal.Script.closeVideo. rewrite Hd. cbn. rewrite Hv.
    eexists. split; [done|]. cbn. eauto 10.
Qed.

End ModalEventFacts.

Lemma modal_follows_last_command_witness :
  ModalEvents.present VideoModal.closed_page
  ∧ ModalEvents.shut
      (ModalEvents.App.events ModalEvents.evening VideoModal.closed_page)
  ∧ VideoModal.modal_state_of
      (ModalEvents.App.events ModalEvents.evening VideoModal.closed_page)
    = VideoModal.CLOSED.
Proof.
  assert (Hp : ModalEvents.present VideoModal.closed_page)
    by (split; by eexists).
  split; [exact Hp|].
  exact (modal_follows_last_command ModalEvents.evening
           VideoModal.closed_page Hp).
Defined.

(** ** Housekeeping over a whole page history *)

Section HousekeepingFacts.
Import Page Housekeeping.

Lemma calm_refl w : calm w w.
Proof. by split. Qed.

Lemma calm_trans w1 w2 w3 : calm w1 w2 → calm w2 w3 → calm w1 w3.
Proof. intros [] []. split; [congruence|auto|lia|auto|congruence|auto]. Qed.

Lemma setter_calm w w' :
  heap w' = heap w → next_ref w' = next_ref w → uncaught w' = uncaught w →
  timers w' = timers w → frames w' = frames w → now w' = now w →
  calm w w'.
Proof.
  intros Hh Hn Hu Ht Hfr Hnow.
  split; [done| |lia|by apply queues_wf|done|].
  - unfold heap_fresh. by rewrite Hh, Hn.
  - unfold punctual. by rewrite Ht, Hnow.
Qed.

Lemma modify_calm m f w : calm w (modify m f w).
Proof.
  split; [done| |done|by apply modify_wf|done|done].
  unfold heap_fresh, modify. cbn. intros Hf n Hn.
  destruct (decide (m = n)) as [->|].
  - by rewrite lookup_alter_eq, Hf.
  - rewrite lookup_alter_ne by done. by apply Hf.
Qed.

Lemma alloc_calm tag w :
  calm w (set_next_ref (S (next_ref w))
            (set_heap (<[next_ref w := blank tag]> (heap w)) w)).
Proof.
  split; [done| |cbn; lia|by apply alloc_wf|done|done].
  unfold heap_fresh. cbn. intros Hf n Hn.
  rewrite lookup_insert_ne by lia. apply Hf. lia.
Qed.

Lemma setTimeout_calm k delay w :
  (subject k < next_ref w)%nat → (delay ≤ slack k)%nat →
  calm w (setTimeout k delay w).
Proof.
  intros Hk Hd. split; [done..|by apply setTimeout_wf|done|].
  unfold punctual, setTimeout. cbn. intros Hp. apply Forall_app.
  split; [done|]. apply Forall_cons. split; [cbn; lia|constructor].
Qed.

Lemma requestAnimationFrame_calm m w :
  calm w (requestAnimationFrame (App_enter m) w).
Proof. split; [done..|by apply requestAnimationFrame_wf|done|done]. Qed.

Lemma set_property_calm m prop val w : calm w (set_property m prop val w).
Proof. apply modify_calm. Qed.

Lemma appendChild_calm parent m w : calm w (appendChild parent m w).
Proof. apply modify_calm. Qed.

Lemma console_error_calm m w : calm w (console_error m w).
Proof. by apply setter_calm. Qed.

Lemma select_calm m w : calm w (select m w).
Proof. by apply setter_calm. Qed.

Lemma focus_calm m w : calm w (focus m w).
Proof. by apply setter_calm. Qed.

Lemma writeText_calm t w : calm w (writeText t w).
Proof. by apply setter_calm. Qed.

Lemma copy_selection_calm w : calm w (copy_selection w).
Proof.
  unfold copy_selection.
  destruct (selection w ≫= _); [by apply setter_calm|apply calm_refl].
Qed.

Lemma removeChild_calm parent m w : calm w (state_of (removeChild parent m w)).
Proof.
  unfold removeChild. case_decide; [apply modify_calm|apply calm_refl].
Qed.

(** Peels the outermost primitive off the world on the right. *)
Ltac peel_calm :=
  lazymatch goal with
  | |- calm ?w (setTimeout _ _ ?w') =>
      apply (calm_trans w w');
        [peel_calm|apply setTimeout_calm; simpl; lia]
  | |- calm ?w (requestAnimationFrame _ ?w') =>
      apply (calm_trans w w'); [peel_calm|apply requestAnimationFrame_calm]
  | |- calm ?w (set_property _ _ _ ?w') =>
      apply (calm_trans w w'); [peel_calm|apply set_property_calm]
  | |- calm ?w (appendChild _ _ ?w') =>
      apply (calm_trans w w'); [peel_calm|apply appendChild_calm]
  | |- calm ?w (modify _ _ ?w') =>
      apply (calm_trans w w'); [peel_calm|apply modify_calm]
  | |- calm ?w (state_of (removeChild _ _ ?w')) =>
      apply (calm_trans w w'); [peel_calm|apply removeChild_calm]
  | |- calm ?w (copy_selection ?w') =>
      apply (calm_trans w w'); [peel_calm|apply copy_selection_calm]
  | |- calm ?w (set_next_ref _ (set_heap _ ?w')) =>
      apply (calm_trans w w'); [peel_calm|apply alloc_calm]
  | |- calm ?w (console_error _ ?w') =>
      apply (calm_trans w w'); [peel_calm|apply console_error_calm]
  | |- calm ?w (select _ ?w') =>
      apply (calm_trans w w'); [peel_calm|apply select_calm]
  | |- calm ?w (focus _ ?w') =>
      apply (calm_trans w w'); [peel_calm|apply focus_calm]
  | |- calm ?w (writeText _ ?w') =>
      apply (calm_trans w w'); [peel_calm|apply writeText_calm]
  | |- calm ?w ?w' => first [constr_eq w w'; apply calm_refl | eassumption]
  end.

Lemma show_calm v message type w : calm w (show v message type w).
Proof.
  destruct v; cbn [show];
    unfold Script.showCopyNotification, App.showNotification, createElement;
    cbv beta iota zeta; peel_calm.
Qed.

Lemma show_next v message type w :
  next_ref (show v message type w) = S (next_ref w).
Proof. by destruct v. Qed.

Lemma beyond_kept n w :
  well_formed w → heap_fresh w → (next_ref w ≤ n)%nat → kept n w.
Proof.
  intros [Ht _] Hf Hn. left. split.
  - unfold detached, parent_of. by rewrite Hf.
  - apply no_timers_yet. eapply Forall_impl; [exact Ht|].
    cbn. intros; lia.
Qed.

Lemma same_for_kept n w w' : same_for n w w' → kept n w → kept n w'.
Proof.
  intros [Hp Ht _ _ _]. unfold kept, attached, detached.
  by rewrite Hp, Ht.
Qed.

Lemma show_same v message type n w :
  (n < next_ref w)%nat → same_for n w (show v message type w).
Proof.
  intros Hn. destruct v; cbn [show].
  - by apply showCopyNotification_same.
  - by apply showNotification_same.
Qed.

Lemma show_wf v message type w :
  well_formed w → well_formed (show v message type w).
Proof.
  intros Hw. destruct v; cbn [show].
  - by apply showCopyNotification_wf.
  - by apply showNotification_wf.
Qed.

(** After a toast is shown, every node from the toast on is accounted
    for. *)
Lemma show_kept_new v message type n w :
  well_formed w → heap_fresh w → (next_ref w ≤ n)%nat →
  kept n (show v message type w).
Proof.
  intros Hw Hf Hn. destruct (decide (n = next_ref w)) as [->|Hne].
  - destruct (show_tracked v message type w Hw) as [(Ha & Ht & _) _].
    right. split; [done|]. do 2 eexists. split; [exact Ht|].
    destruct v; cbn; tauto.
  - apply beyond_kept.
    + by apply show_wf.
    + by apply (calm_fresh _ _ (show_calm v message type w)).
    + rewrite show_next. lia.
Qed.

Lemma show_tidy v message type w : tidy w → tidy (show v message type w).
Proof.
  intros (Hw & Hf & Hu & Hk). split; [by apply show_wf|].
  split; [by apply (calm_fresh _ _ (show_calm v message type w))|].
  split; [by rewrite (calm_uncaught _ _ (show_calm v message type w))|].
  intros n. destruct (Nat.lt_ge_cases n (next_ref w)).
  - apply (same_for_kept n w); [by apply show_same|done].
  - by apply show_kept_new.
Qed.

Lemma tidy_transport w w' :
  (∀ n, same_for n w w') → calm w w' → tidy w → tidy w'.
Proof.
  intros Hs Hc (Hw & Hf & Hu & Hk). split; [by apply (calm_wf _ _ Hc)|].
  split; [by apply (calm_fresh _ _ Hc)|].
  split; [by rewrite (calm_uncaught _ _ Hc)|].
  intros n. by apply (same_for_kept n w).
Qed.

Lemma removeChild_timers parent m w :
  timers (state_of (removeChild parent m w)) = timers w.
Proof. unfold removeChild. by case_decide. Qed.

(** Taking a temporary node out again: the node was put under [body]
    at [w0], nothing since touched its parent or scheduled a timer for
    it. *)
Lemma release_kept n0 w0 w2 :
  attached n0 w0 → timers_of n0 w0 = [] → same_for n0 w0 w2 → calm w0 w2 →
  well_formed w0 → heap_fresh w0 →
  (∀ n, n ≠ n0 → (n0 ≤ n)%nat → kept n w2) →
  ∃ w', removeChild body n0 w2 = Normal w'
        ∧ well_formed w' ∧ heap_fresh w' ∧ uncaught w' = uncaught w0
        ∧ (∀ n, (n < n0)%nat → same_for n w2 w')
        ∧ ∀ n, (n0 ≤ n)%nat → kept n w'.
Proof.
  intros Ha Ht Hs Hc Hw Hf Hk.
  destruct (removeChild_after n0 w0 w2 Ha Hs) as (w' & Hrm & Hd).
  pose proof (removeChild_calm body n0 w2) as Hc'.
  pose proof (removeChild_timers body n0 w2) as Htm.
  assert (Hsame : ∀ n, n ≠ n0 → same_for n w2 w').
  { intros n Hn. pose proof (removeChild_same n n0 w2 ltac:(done)) as H.
    by rewrite Hrm in H. }
  rewrite Hrm in Hc', Htm. cbn [state_of] in Hc', Htm.
  exists w'. split; [done|].
  split; [apply (calm_wf _ _ Hc'), (calm_wf _ _ Hc), Hw|].
  split; [apply (calm_fresh _ _ Hc'), (calm_fresh _ _ Hc), Hf|].
  split; [by rewrite (calm_uncaught _ _ Hc'), (calm_uncaught _ _ Hc)|].
  split; [intros n Hn; apply Hsame; lia|].
  intros n Hn. destruct (decide (n = n0)) as [->|Hne].
  - left. split; [done|]. unfold timers_of. rewrite Htm.
    fold (timers_of n0 w2). by rewrite (same_timers _ _ _ Hs).
  - apply (same_for_kept n w2); [by apply Hsame|by apply Hk].
Qed.

(** The flat script's fallback from the point where its text field
    [n0] is in the document, at [w0]. *)
Lemma script_fallback_tail w w0 :
  well_formed w → heap_fresh w → calm w w0 →
  attached (next_ref w) w0 → next_ref w0 = S (next_ref w) →
  timers w0 = timers w →
  ∃ w', removeChild body (next_ref w)
          match exec_copy w0 with
          | Copy_done => Script.showCopyNotification (copy_selection w0)
          | Copy_refused => Script.showCopyNotification w0
          | Copy_throws => console_error "Fallback: Oops, unable to copy" w0
          end = Normal w'
        ∧ well_formed w' ∧ heap_fresh w' ∧ uncaught w' = uncaught w
        ∧ ∀ n, (next_ref w ≤ n)%nat → kept n w'.
Proof.
  intros Hw Hf Hc Ha Hn Ht.
  assert (Ht0 : timers_of (next_ref w) w0 = []).
  { unfold timers_of. rewrite Ht. apply no_timers_yet. apply Hw. }
  pose proof (calm_wf _ _ Hc Hw) as Hw0.
  pose proof (calm_fresh _ _ Hc Hf) as Hf0.
  assert (Hgo : ∀ w2,
            same_for (next_ref w) w0 w2 → calm w0 w2 →
            (∀ n, n ≠ next_ref w → (next_ref w ≤ n)%nat → kept n w2) →
            ∃ w', removeChild body (next_ref w) w2 = Normal w'
                  ∧ well_formed w' ∧ heap_fresh w'
                  ∧ uncaught w' = uncaught w
                  ∧ ∀ n, (next_ref w ≤ n)%nat → kept n w').
  { intros w2 Hs2 Hc2 Hk2.
    destruct (release_kept (next_ref w) w0 w2 Ha Ht0 Hs2 Hc2 Hw0 Hf0 Hk2)
      as (w' & Hrm & Hw' & Hf' & Hu' & _ & Hk').
    exists w'. split; [done|]. split; [done|]. split; [done|].
    split; [by rewrite Hu', (calm_uncaught _ _ Hc)|done]. }
  assert (Hshow : ∀ w1,
            same_for (next_ref w) w0 w1 → calm w0 w1 →
            next_ref w1 = next_ref w0 →
            same_for (next_ref w) w0 (Script.showCopyNotification w1)
            ∧ calm w0 (Script.showCopyNotification w1)
            ∧ ∀ n, n ≠ next_ref w → (next_ref w ≤ n)%nat →
                kept n (Script.showCopyNotification w1)).
  { intros w1 Hs1 Hc1 Hn1. split; [|split].
    - eapply same_for_trans; [exact Hs1|].
      apply showCopyNotification_same. lia.
    - eapply calm_trans; [exact Hc1|]. apply (show_calm script "" "").
    - intros n Hne Hge. apply (show_kept_new script "" "").
      + by apply (calm_wf _ _ Hc1).
      + by apply (calm_fresh _ _ Hc1).
      + lia. }
  destruct (exec_copy w0).
  - destruct (Hshow (copy_selection w0)) as (H1 & H2 & H3);
      [apply copy_selection_same|apply copy_selection_calm| |].
    { unfold copy_selection. by destruct (selection w0 ≫= _). }
    by apply Hgo.
  - destruct (Hshow w0) as (H1 & H2 & H3);
      [apply same_for_refl|apply calm_refl|done|].
    by apply Hgo.
  - apply Hgo; [apply console_error_same|apply console_error_calm|].
    intros n Hne Hge. apply beyond_kept.
    + by apply console_error_wf.
    + by apply (calm_fresh _ _ (console_error_calm _ w0)).
    + cbn. lia.
Qed.

(** The nodes the flat script's fallback creates are accounted for
    when it returns, and it does return. *)
Lemma script_fallback_new text w :
  well_formed w → heap_fresh w →
  ∃ w', Script.fallbackCopyTextToClipboard text w = Normal w'
        ∧ well_formed w' ∧ heap_fresh w' ∧ uncaught w' = uncaught w
        ∧ ∀ n, (next_ref w ≤ n)%nat → kept n w'.
Proof.
  intros Hw Hf.
  unfold Script.fallbackCopyTextToClipboard, createElement.
  cbv beta iota zeta.
  apply script_fallback_tail; [done|done| | |reflexivity|reflexivity].
  - peel_calm.
  - unfold attached, parent_of; simpl.
    by rewrite !lookup_alter_eq, lookup_insert_eq.
Qed.

Lemma script_fallback_tidy text w :
  tidy w →
  ∃ w', Script.fallbackCopyTextToClipboard text w = Normal w' ∧ tidy w'.
Proof.
  intros (Hw & Hf & Hu & Hk).
  destruct (script_fallback_new text w Hw Hf) as (w' & Heq & Hw' & Hf' & Hu' & Hk').
  exists w'. split; [done|]. split; [done|]. split; [done|].
  split; [congruence|].
  intros n. destruct (Nat.lt_ge_cases n (next_ref w)) as [Hlt|Hge].
  - pose proof (script_fallback_same n text w Hlt) as Hs.
    rewrite Heq in Hs. by apply (same_for_kept n w).
  - by apply Hk'.
Qed.

(** The controller's fallback from the point where its text field is
    in the document: the field is taken out on every path. *)
Lemma app_fallback_tail w w0 :
  well_formed w → heap_fresh w → calm w w0 →
  attached (next_ref w) w0 → next_ref w0 = S (next_ref w) →
  timers w0 = timers w →
  let w' :=
    state_of
      match exec_copy w0 with
      | Copy_done => removeChild body (next_ref w) (copy_selection w0)
      | Copy_refused => removeChild body (next_ref w) w0
      | Copy_throws =>
          removeChild body (next_ref w) w0 >>= λ w,
          Throw (Error "Fallback copy failed") w
      end in
  well_formed w' ∧ heap_fresh w' ∧ uncaught w' = uncaught w
  ∧ ∀ n, (next_ref w ≤ n)%nat → kept n w'.
Proof.
  intros Hw Hf Hc Ha Hn Ht.
  assert (Ht0 : timers_of (next_ref w) w0 = []).
  { unfold timers_of. rewrite Ht. apply no_timers_yet. apply Hw. }
  pose proof (calm_wf _ _ Hc Hw) as Hw0.
  pose proof (calm_fresh _ _ Hc Hf) as Hf0.
  assert (Hgo : ∀ w2,
            same_for (next_ref w) w0 w2 → calm w0 w2 →
            next_ref w2 = next_ref w0 →
            ∃ w', removeChild body (next_ref w) w2 = Normal w'
                  ∧ well_formed w' ∧ heap_fresh w'
                  ∧ uncaught w' = uncaught w
                  ∧ ∀ n, (next_ref w ≤ n)%nat → kept n w').
  { intros w2 Hs2 Hc2 Hn2.
    destruct (release_kept (next_ref w) w0 w2 Ha Ht0 Hs2 Hc2 Hw0 Hf0)
      as (w' & Hrm & Hw' & Hf' & Hu' & _ & Hk').
    { intros n Hne Hge. apply beyond_kept.
      - by apply (calm_wf _ _ Hc2).
      - by apply (calm_fresh _ _ Hc2).
      - lia. }
    exists w'. split; [done|]. split; [done|]. split; [done|].
    split; [by rewrite Hu', (calm_uncaught _ _ Hc)|done]. }
  destruct (exec_copy w0); cbv zeta.
  - destruct (Hgo (copy_selection w0)) as (w' & -> & H);
      [apply copy_selection_same|apply copy_selection_calm| |done].
    unfold copy_selection. by destruct (selection w0 ≫= _).
  - destruct (Hgo w0) as (w' & -> & H);
      [apply same_for_refl|apply calm_refl|done|done].
  - destruct (Hgo w0) as (w' & -> & H);
      [apply same_for_refl|apply calm_refl|done|done].
Qed.

Lemma app_fallback_tidy text w :
  tidy w → tidy (state_of (App.fallbackCopyText text w)).
Proof.
  intros (Hw & Hf & Hu & Hk).
  assert (Hnew : well_formed (state_of (App.fallbackCopyText text w))
                 ∧ heap_fresh (state_of (App.fallbackCopyText text w))
                 ∧ uncaught (state_of (App.fallbackCopyText text w))
                   = uncaught w
                 ∧ ∀ n, (next_ref w ≤ n)%nat →
                     kept n (state_of (App.fallbackCopyText text w))).
  { unfold App.fallbackCopyText, createElement. cbv beta iota zeta.
    apply app_fallback_tail; [done|done| | |reflexivity|reflexivity].
    - peel_calm.
    - unfold attached, parent_of; simpl.
      by rewrite !lookup_alter_eq, lookup_insert_eq. }
  destruct Hnew as (Hw' & Hf' & Hu' & Hk').
  split; [done|]. split; [done|]. split; [congruence|].
  intros n. destruct (Nat.lt_ge_cases n (next_ref w)) as [Hlt|Hge].
  - apply (same_for_kept n w); [by apply app_fallback_same|done].
  - by apply Hk'.
Qed.

Lemma writeText_tidy t w : tidy w → tidy (writeText t w).
Proof.
  apply tidy_transport; [intros n; apply writeText_same|apply writeText_calm].
Qed.

Lemma console_error_tidy m w : tidy w → tidy (console_error m w).
Proof.
  apply tidy_transport;
    [intros n; apply console_error_same|apply console_error_calm].
Qed.

Lemma script_copyGiftLink_tidy w :
  tidy w → ∃ w', Script.copyGiftLink w = Normal w' ∧ tidy w'.
Proof.
  intros Hw. unfold Script.copyGiftLink.
  destruct (script_fallback_tidy giftUrl w Hw) as (w' & -> & Hw').
  destruct (clipboard w) as [[]|]; [|by eexists..].
  eexists. split; [done|].
  apply (show_tidy script "" ""). by apply writeText_tidy.
Qed.

Lemma app_copyGiftLink_tidy w : tidy w → tidy (state_of (App.copyGiftLink w)).
Proof.
  intros Hw. unfold App.copyGiftLink.
  destruct (clipboard w) as [[]|]; cbn [state_of].
  - apply (show_tidy app). by apply writeText_tidy.
  - apply (show_tidy app). by apply console_error_tidy.
  - pose proof (app_fallback_tidy giftUrl w Hw) as Hs.
    destruct (App.fallbackCopyText giftUrl w); cbn [state_of] in *.
    + by apply (show_tidy app).
    + apply (show_tidy app). by apply console_error_tidy.
Qed.

Lemma frame_calm w : Forall is_enter (frames w) → calm w (frame w).
Proof.
  intros Hf. unfold frame.
  assert (H0 : calm w (set_frames [] w)).
  { split; [done..| |done|done]. intros [Ht _]. by split. }
  revert H0. generalize (set_frames [] w) as w0.
  induction Hf as [|k ks Hk _ IH]; intros w0 H0; [done|].
  cbn [foldl]. apply IH. eapply calm_trans; [exact H0|].
  destruct k; try done. apply set_property_calm.
Qed.

Lemma frame_tidy w : tidy w → tidy (frame w).
Proof.
  intros Hw. pose proof Hw as ((_ & Hf) & _).
  apply (tidy_transport w); [|by apply frame_calm|done].
  intros n. by apply frame_same.
Qed.

Lemma handle_tidy ev w : tidy w → tidy (handle ev w).
Proof.
  intros Hw. destruct ev; cbn [handle].
  - by apply frame_tidy.
  - by apply (show_tidy script "" "").
  - by apply (show_tidy app).
  - by destruct (script_copyGiftLink_tidy w Hw) as (w' & -> & Hw').
  - by apply app_copyGiftLink_tidy.
Qed.

Lemma run_task_fresh k w : heap_fresh w → heap_fresh (run_task k w).
Proof.
  intros Hf. unfold run_task.
  assert (Hrm : ∀ n, heap_fresh
            match removeChild body n w with
            | Normal w0 => w0
            | Throw e w0 => set_uncaught (uncaught w0 ++ [e]) w0
            end).
  { intros n. pose proof (calm_fresh _ _ (removeChild_calm body n w) Hf) as H.
    by destruct (removeChild body n w). }
  destruct k as [n|n|n|n|n]; cbn [fire];
    unfold Script.exit_callback, Script.remove_callback, App.enter_callback,
      App.exit_callback, App.remove_callback.
  - by apply (calm_fresh _ _ (set_property_calm n _ _ w)).
  - apply Hrm.
  - by apply (calm_fresh _ _ (set_property_calm n _ _ w)).
  - by apply (calm_fresh _ _ (set_property_calm n _ _ w)).
  - destruct (parent_of n w); [apply Hrm|done].
Qed.

(** Firing the one pending timer of an attached node. *)
Lemma fire_own_timer k w :
  attached (subject k) w → timers_of (subject k) w = [] → ¬ is_enter k →
  kept (subject k) (run_task k w)
  ∧ uncaught (run_task k w) = uncaught w.
Proof.
  intros Ha Ht Hk.
  assert (Hrm : ∀ n, attached n w → timers_of n w = [] →
            removeChild body n w = Normal (modify n (set_parent None) w)
            ∧ kept n (modify n (set_parent None) w)).
  { intros n Hn Htn. unfold removeChild. rewrite decide_True by done.
    split; [done|]. left. split; [|done].
    unfold detached, attached, parent_of in *. cbn.
    rewrite lookup_alter_eq. by destruct (heap w !! n). }
  destruct k as [n|n|n|n|n]; cbn [subject] in *; [| |by destruct Hk| |].
  - pose proof (exit_fires script n (now w) w Ha Ht eq_refl) as (H1 & H2 & _).
    split; [right; split; [done|]; do 2 eexists; split; [exact H2|]; cbn; tauto|].
    done.
  - destruct (Hrm n Ha Ht) as [Heq Hkept].
    unfold run_task. cbn [fire]. unfold Script.remove_callback. rewrite Heq.
    done.
  - pose proof (exit_fires app n (now w) w Ha Ht eq_refl) as (H1 & H2 & _).
    split; [right; split; [done|]; do 2 eexists; split; [exact H2|]; cbn; tauto|].
    done.
  - destruct (Hrm n Ha Ht) as [Heq Hkept].
    unfold run_task. cbn [fire]. unfold App.remove_callback.
    unfold attached in Ha. rewrite Ha, Heq.
    done.
Qed.

Lemma step_tidy t w w' : step t w = Some w' → tidy w → tidy w'.
Proof.
  intros Hstep Htidy. pose proof (step_wf t w w' Hstep (proj1 Htidy)) as Hw'.
  destruct Htidy as (Hw & Hf & Hu & Hk).
  unfold step in Hstep.
  destruct (pick (timers w)) as [[[d k] rest]|] eqn:Hpick; [|done].
  destruct (d <=? t)%nat; [|done]. injection Hstep as <-.
  pose proof (pick_perm _ _ _ Hpick) as Hperm.
  set (wm := set_timers rest (set_now (now w `max` d) w)) in *.
  assert (Hof : ∀ m, timers_of m w
                     ≡ₚ filter (λ x, subject x.2 = m) ((d, k) :: rest)).
  { intros m. unfold timers_of. by rewrite Hperm. }
  (* the node of the timer that fires *)
  assert (Hown : attached (subject k) w ∧ timers_of (subject k) wm = []
                 ∧ ¬ is_enter k).
  { specialize (Hof (subject k)). rewrite filter_cons_True in Hof by done.
    destruct (Hk (subject k)) as [[_ Ht]|(Ha & d' & k' & Ht & Hne)];
      rewrite Ht in Hof.
    - by apply Permutation_nil_cons in Hof.
    - pose proof (Permutation_length Hof) as Hlen. cbn in Hlen.
      apply Permutation_singleton_l in Hof.
      injection Hof as -> -> Hrest. done. }
  destruct Hown as (Ha & Ht & Hne).
  assert (Hothers : ∀ m, m ≠ subject k → kept m wm).
  { intros m Hm. specialize (Hof m).
    rewrite filter_cons_False in Hof by (cbn; congruence).
    assert (Heq : timers_of m wm = timers_of m w).
    { change (timers_of m wm) with (filter (λ x, subject x.2 = m) rest).
      destruct (Hk m) as [[_ Htm]|(_ & d' & k' & Htm & _)]; rewrite Htm in *.
      - symmetry. by apply Permutation_nil_l.
      - symmetry. by apply Permutation_singleton_l. }
    specialize (Hk m). unfold kept, attached, detached in *.
    rewrite Heq. exact Hk. }
  destruct (fire_own_timer k wm Ha Ht Hne) as (Hkown & Hun).
  split; [done|]. split; [by apply run_task_fresh|]. split; [by rewrite Hun|].
  intros m. destruct (decide (m = subject k)) as [->|Hm]; [done|].
  apply (same_for_kept m wm); [|by apply Hothers].
  apply run_task_same. left. congruence.
Qed.

Lemma run_tidy fuel t w : tidy w → tidy (run fuel t w).
Proof.
  revert w. induction fuel as [|fuel IH]; intros w Hw; cbn [run]; [done|].
  destruct (step t w) as [w'|] eqn:Hstep; [|done].
  apply IH. by eapply step_tidy.
Qed.

Lemma set_now_tidy x w : tidy w → tidy (set_now x w).
Proof. by intros (Hw & Hf & Hu & Hk). Qed.

Lemma advance_tidy t w : tidy w → tidy (advance_to t w).
Proof.
  intros Hw. unfold advance_to. apply set_now_tidy. by apply run_tidy.
Qed.

Lemma play_tidy history w : tidy w → tidy (play history w).
Proof.
  revert w. unfold play.
  induction history as [|[t ev] h IH]; intros w Hw; cbn [foldl]; [done|].
  apply IH. apply handle_tidy. by apply advance_tidy.
Qed.

Lemma loaded_tidy clip ex : tidy (loaded clip ex).
Proof.
  split; [apply loaded_wf|]. split; [|split; [done|]].
  - intros n Hn.
    change (({[body := blank "body"]} : gmap ref element) !! n = None).
    change (1 ≤ n)%nat in Hn.
    apply lookup_singleton_ne. unfold body. lia.
  - intros n. left. split; [|done]. unfold detached, parent_of.
    change (({[body := blank "body"]} : gmap ref element) !! n ≫= parentNode
            = None).
    destruct (decide (n = body)) as [->|Hne].
    + by rewrite lookup_singleton_eq.
    + by rewrite lookup_singleton_ne.
Qed.

(** *** Every toast goes away *)

(** The same peeling through the composite operations. *)
Ltac peel_shown :=
  lazymatch goal with
  | |- calm ?w (state_of (removeChild _ _ ?w')) =>
      apply (calm_trans w w'); [peel_shown|apply removeChild_calm]
  | |- calm ?w (Script.showCopyNotification ?w') =>
      apply (calm_trans w w'); [peel_shown|apply (show_calm script "" "")]
  | |- calm ?w (App.showNotification ?m ?ty ?w') =>
      apply (calm_trans w w'); [peel_shown|apply (show_calm app m ty)]
  | |- _ => peel_calm
  end.

Lemma script_fallback_calm text w :
  calm w (state_of (Script.fallbackCopyTextToClipboard text w)).
Proof.
  unfold Script.fallbackCopyTextToClipboard, createElement.
  cbv beta iota zeta. destruct (exec_copy _); peel_shown.
Qed.

Lemma app_fallback_calm text w :
  calm w (state_of (App.fallbackCopyText text w)).
Proof.
  unfold App.fallbackCopyText, createElement.
  cbv beta iota zeta. destruct (exec_copy _); simpl bind.
  - peel_shown.
  - peel_shown.
  - match goal with
    | |- context [removeChild body ?m ?w'] =>
        assert (calm w (state_of (removeChild body m w'))) as Hs
          by peel_shown;
        destruct (removeChild body m w'); exact Hs
    end.
Qed.

Lemma handle_calm ev w : Forall is_enter (frames w) → calm w (handle ev w).
Proof.
  intros Hf. destruct ev; cbn [handle].
  - by apply frame_calm.
  - apply (show_calm script "" "").
  - apply (show_calm app).
  - unfold Script.copyGiftLink.
    pose proof (script_fallback_calm giftUrl w) as Hc.
    destruct (script_fallback_releases giftUrl w) as (w' & Heq & _).
    rewrite Heq in *. cbn [state_of] in Hc.
    destruct (clipboard w) as [[]|]; [|done..].
    eapply calm_trans; [apply writeText_calm|apply (show_calm script "" "")].
  - unfold App.copyGiftLink.
    destruct (clipboard w) as [[]|]; cbn [state_of].
    + eapply calm_trans; [apply writeText_calm|apply (show_calm app)].
    + eapply calm_trans; [apply console_error_calm|apply (show_calm app)].
    + pose proof (app_fallback_calm giftUrl w) as Hc.
      destruct (App.fallbackCopyText giftUrl w); cbn [state_of] in *.
      * eapply calm_trans; [exact Hc|apply (show_calm app)].
      * eapply calm_trans; [exact Hc|].
        eapply calm_trans; [apply console_error_calm|apply (show_calm app)].
Qed.

(** The timers a callback leaves: an exit schedules its removal. *)
Lemma run_task_timers k w :
  timers (run_task k w)
  = (timers w ++
     match k with
     | Script_exit n => [((now w + 300)%nat, Script_remove n)]
     | App_exit n => [((now w + 300)%nat, App_remove n)]
     | _ => []
     end)%list.
Proof.
  assert (Hrm : ∀ n, timers
            match removeChild body n w with
            | Normal w0 => w0
            | Throw e w0 => set_uncaught (uncaught w0 ++ [e]) w0
            end = timers w).
  { intros n. unfold removeChild. by case_decide. }
  unfold run_task.
  destruct k as [n|n|n|n|n]; cbn [fire];
    unfold Script.exit_callback, Script.remove_callback, App.enter_callback,
      App.exit_callback, App.remove_callback; rewrite ?app_nil_r.
  - done.
  - apply Hrm.
  - done.
  - done.
  - destruct (parent_of n w); [apply Hrm|done].
Qed.

Lemma run_task_now k w : now (run_task k w) = now w.
Proof. apply run_task_queues. Qed.

Lemma step_punctual t w w' : step t w = Some w' → punctual w → punctual w'.
Proof.
  unfold step, punctual. intros Hstep Hp.
  destruct (pick (timers w)) as [[[d k] rest]|] eqn:Hpick; [|done].
  destruct (d <=? t)%nat; [|done]. injection Hstep as <-.
  rewrite (pick_perm _ _ _ Hpick) in Hp.
  apply Forall_cons in Hp as [_ Hrest].
  rewrite run_task_timers, run_task_now. cbn [timers now set_timers set_now].
  apply Forall_app. split.
  - eapply Forall_impl; [exact Hrest|]. cbn. intros; lia.
  - destruct k; try constructor; cbn; try lia; constructor.
Qed.

Lemma step_now t w w' :
  step t w = Some w' → (now w ≤ now w' ≤ now w `max` t)%nat.
Proof.
  unfold step. intros Hstep.
  destruct (pick (timers w)) as [[[d k] rest]|] eqn:Hpick; [|done].
  destruct (Nat.leb_spec d t); [|done]. injection Hstep as <-.
  rewrite run_task_now. cbn. lia.
Qed.

Lemma run_punctual fuel t w : punctual w → punctual (run fuel t w).
Proof.
  revert w. induction fuel as [|fuel IH]; intros w Hw; cbn [run]; [done|].
  destruct (step t w) as [w'|] eqn:Hstep; [|done].
  apply IH. by eapply step_punctual.
Qed.

Lemma run_now fuel t w :
  (now w ≤ now (run fuel t w) ≤ now w `max` t)%nat.
Proof.
  revert w. induction fuel as [|fuel IH]; intros w; cbn [run]; [lia|].
  destruct (step t w) as [w'|] eqn:Hstep; [|lia].
  pose proof (step_now _ _ _ Hstep). specialize (IH w'). lia.
Qed.

Lemma advance_now t w : now (advance_to t w) = now w `max` t.
Proof.
  unfold advance_to. cbn [now set_now].
  pose proof (run_now (pending_work w) t w). lia.
Qed.

Lemma advance_punctual t w : punctual w → punctual (advance_to t w).
Proof.
  intros Hp. unfold advance_to.
  pose proof (run_punctual (pending_work w) t w Hp) as Hr.
  unfold punctual in *. cbn [timers now set_now].
  eapply Forall_impl; [exact Hr|]. cbn. intros; lia.
Qed.

Lemma play_ready history w :
  tidy w → punctual w →
  tidy (play history w) ∧ punctual (play history w)
  ∧ now (play history w) = now w `max` last_arrival history.
Proof.
  revert w. unfold play, last_arrival.
  induction history as [|[t ev] h IH]; intros w Hw Hp; cbn [foldl fst snd].
  - split; [done|]. split; [done|]. cbn. lia.
  - pose proof (advance_tidy t w Hw) as Hw1.
    pose proof (advance_punctual t w Hp) as Hp1.
    pose proof (handle_calm ev (advance_to t w) (proj2 (proj1 Hw1))) as Hc.
    destruct (IH (handle ev (advance_to t w))) as (H1 & H2 & H3).
    + by apply handle_tidy.
    + by apply (calm_punctual _ _ Hc).
    + split; [done|]. split; [done|]. rewrite H3, (calm_now _ _ Hc).
      rewrite advance_now. csimpl. lia.
Qed.

Lemma punctual_bounded w : punctual w → bounded (now w) w.
Proof.
  unfold punctual, bounded. intros Hp.
  eapply Forall_impl; [exact Hp|]. intros [d k]. cbn.
  destruct k; cbn; lia.
Qed.

Lemma step_bounded B t w w' : step t w = Some w' → bounded B w → bounded B w'.
Proof.
  unfold step, bounded. intros Hstep Hb.
  destruct (pick (timers w)) as [[[d k] rest]|] eqn:Hpick; [|done].
  destruct (d <=? t)%nat; [|done]. injection Hstep as <-.
  pose proof (pick_least _ _ _ Hpick) as Hleast.
  rewrite (pick_perm _ _ _ Hpick) in Hb, Hleast.
  apply Forall_cons in Hb as [[Hd1 Hd2] Hrest].
  apply Forall_cons in Hleast as [_ Hleast]. cbn in Hleast, Hd1, Hd2.
  rewrite run_task_timers, run_task_now. cbn [timers now set_timers set_now].
  apply Forall_app. split.
  - rewrite Forall_forall in Hrest, Hleast. apply Forall_forall.
    intros x Hx. destruct (Hrest x Hx) as [H1 H2]. split; [done|].
    intros Hr. specialize (H2 Hr). specialize (Hleast x Hx). lia.
  - destruct k; try constructor; cbn in *; try constructor;
      first [ lia | split; [specialize (Hd2 eq_refl); lia|done] | idtac ].
Qed.

Lemma run_bounded B fuel t w : bounded B w → bounded B (run fuel t w).
Proof.
  revert w. induction fuel as [|fuel IH]; intros w Hw; cbn [run]; [done|].
  destruct (step t w) as [w'|] eqn:Hstep; [|done].
  apply IH. by eapply step_bounded.
Qed.

(** Once the clock is 3300 ms past it, a punctual page has no timer
    left. *)
Lemma advance_drains t w :
  punctual w → (now w + 3300 ≤ t)%nat → timers (advance_to t w) = [].
Proof.
  intros Hp Ht. unfold advance_to. cbn [timers set_now].
  pose proof (run_bounded (now w) (pending_work w) t w
                (punctual_bounded w Hp)) as Hb.
  pose proof (run_settles t (pending_work w) w (le_n _)) as Hset.
  apply elem_of_nil_inv. intros x Hx.
  pose proof (settled_due t _ x Hset Hx) as Hlate.
  unfold bounded in Hb. rewrite Forall_forall in Hb.
  destruct (Hb x Hx) as [H1 _]. lia.
Qed.

(** X16: over every page history from a fresh load, whatever the
    clipboard capability and [execCommand] do: no callback and no call
    lets an exception escape, and at every moment each node is either
    out of the document with no timer pending, or under [body] with
    exactly one timer pending, which is an exit or a removal. *)
Theorem page_history_tidy (clip : option bool) (ex : exec_outcome)
    (history : list (nat * event)) (t : nat) :
  let w := advance_to t (play history (loaded clip ex)) in
  uncaught w = []
  ∧ ∀ n, (detached n w ∧ timers_of n w = [])
         ∨ (attached n w ∧ ∃ d k, timers_of n w = [(d, k)] ∧ ¬ is_enter k).
Proof.
  intros w.
  assert (Hw : tidy w).
  { apply advance_tidy, play_tidy, loaded_tidy. }
  destruct Hw as (_ & _ & Hu & Hk). split; [done|exact Hk].
Qed.


(** X17: every toast goes away: 3300 ms after the last event of a page
    history no timer is pending, no node is left under [body], and no
    exception has escaped. *)
Theorem page_drains (clip : option bool) (ex : exec_outcome)
    (history : list (nat * event)) (t : nat) :
  (last_arrival history + 3300 ≤ t)%nat →
  let w := advance_to t (play history (loaded clip ex)) in
  timers w = [] ∧ uncaught w = [] ∧ ∀ n, detached n w.
Proof.
  intros Ht w.
  destruct (play_ready history (loaded clip ex) (loaded_tidy clip ex))
    as (Hw & Hp & Hnow); [constructor|].
  assert (Htm : timers w = []).
  { apply advance_drains; [done|]. rewrite Hnow. cbn. lia. }
  destruct (advance_tidy t _ Hw) as (_ & _ & Hu & Hk). fold w in Hu, Hk.
  split; [done|]. split; [done|]. intros n.
  destruct (Hk n) as [[Hd _]|(_ & d & k & Htn & _)]; [done|].
  unfold timers_of in Htn. by rewrite Htm in Htn.
Qed.

End HousekeepingFacts.

Lemma page_drains_witness :
  (Housekeeping.last_arrival Housekeeping.short_visit + 3300 ≤ 3450)%nat
  ∧ Page.timers
      (Page.advance_to 3450
         (Page.play Housekeeping.short_visit
            (Page.loaded None Page.Copy_refused)))
    = [].
Proof.
  assert (H : (Housekeeping.last_arrival Housekeeping.short_visit + 3300
               ≤ 3450)%nat)
    by (vm_compute; lia).
  split; [exact H|].
  exact (proj1 (page_drains None Page.Copy_refused Housekeeping.short_visit
                  3450 H)).
Defined.

(** ** What copying the gift link leaves behind *)

Section CopyOutcomeFacts.
Import Page CopyOutcome.

Lemma show_heap_old v message type n w :
  n ≠ next_ref w → heap (show v message type w) !! n = heap w !! n.
Proof.
  intros Hn. destruct v; simpl;
    by rewrite !lookup_alter_ne, lookup_insert_ne by done.
Qed.

Lemma show_toast_old v message type n w :
  n ≠ next_ref w →
  toast_text n (show v message type w) = toast_text n w.
Proof.
  intros Hn. unfold toast_text, parent_of.
  by rewrite show_heap_old by done.
Qed.

Lemma show_toast_new v message type w :
  toast_text (next_ref w) (show v message type w)
  = Some match v with script => success | app => message end.
Proof.
  assert (H : ∃ e, heap (show v message type w) !! next_ref w = Some e
                   ∧ parentNode e = Some body
                   ∧ textContent e
                     = match v with script => success | app => message end).
  { destruct v; simpl; rewrite !lookup_alter_eq, lookup_insert_eq; simpl;
      by eexists. }
  destruct H as (e & He & Hp & Ht).
  unfold toast_text, parent_of. rewrite He. cbn. rewrite Hp.
  rewrite decide_True by done. by rewrite Ht.
Qed.

Lemma show_clipboard v message type w :
  system_clipboard (show v message type w) = system_clipboard w.
Proof. by destruct v. Qed.

Lemma show_next_ref v message type w :
  next_ref (show v message type w) = S (next_ref w).
Proof. by destruct v. Qed.

(** Taking out a node that is under [body]. *)
Lemma removeChild_attached n w :
  parent_of n w = Some body →
  removeChild body n w = Normal (modify n (set_parent None) w)
  ∧ toast_text n (modify n (set_parent None) w) = None
  ∧ ∀ m, m ≠ n →
      toast_text m (modify n (set_parent None) w) = toast_text m w.
Proof.
  intros Hp. unfold removeChild. rewrite decide_True by done.
  split; [done|]. unfold toast_text, parent_of in *. cbn. split.
  - rewrite lookup_alter_eq. destruct (heap w !! n); [|done]. cbn.
    by rewrite decide_False.
  - intros m Hm. by rewrite lookup_alter_ne.
Qed.

Lemma copy_selection_selected n text w :
  selection w = Some n → value <$> heap w !! n = Some text →
  copy_selection w = set_system_clipboard text w.
Proof.
  intros Hs He. unfold copy_selection. rewrite Hs. cbn.
  destruct (heap w !! n); [|done]. by injection He as ->.
Qed.

(** The flat script's fallback from the point where its text field is
    in the document and selected. *)
Lemma script_outcome_tail n0 text w0 :
  parent_of n0 w0 = Some body → next_ref w0 = S n0 →
  selection w0 = Some n0 → value <$> heap w0 !! n0 = Some text →
  let w' :=
    state_of
      (removeChild body n0
         match exec_copy w0 with
         | Copy_done => Script.showCopyNotification (copy_selection w0)
         | Copy_refused => Script.showCopyNotification w0
         | Copy_throws => console_error "Fallback: Oops, unable to copy" w0
         end) in
  system_clipboard w'
  = (if exec_copies w0 then text else system_clipboard w0)
  ∧ omap (λ n, toast_text n w') (seq n0 (next_ref w' - n0))
    = if exec_throws w0 then [] else [success].
Proof.
  intros Hp Hn Hs He. unfold exec_copies, exec_throws.
  assert (Hshow : ∀ w1,
            parent_of n0 w1 = Some body → next_ref w1 = S n0 →
            let w' := state_of (removeChild body n0
                                  (Script.showCopyNotification w1)) in
            system_clipboard w' = system_clipboard w1
            ∧ omap (λ n, toast_text n w') (seq n0 (next_ref w' - n0))
              = [success]).
  { intros w1 Hp1 Hn1.
    pose proof (show_toast_new script "" "" w1) as Hnew.
    pose proof (show_next_ref script "" "" w1) as Hnext.
    pose proof (show_clipboard script "" "" w1) as Hclip.
    assert (Hp2 : parent_of n0 (show script "" "" w1) = Some body).
    { unfold parent_of. rewrite show_heap_old by lia. exact Hp1. }
    cbn [show] in *.
    destruct (removeChild_attached n0 _ Hp2) as (-> & Hout & Hrest).
    cbn [state_of]. split; [done|].
    change (next_ref (modify n0 (set_parent None)
                        (Script.showCopyNotification w1)))
      with (next_ref (Script.showCopyNotification w1)).
    rewrite Hnext, Hn1. replace (S (S n0) - n0)%nat with 2%nat by lia.
    cbn [seq omap list_omap]. rewrite Hout.
    rewrite Hrest by lia. rewrite <- Hn1, Hnew. done. }
  destruct (exec_copy w0).
  - rewrite (copy_selection_selected n0 text w0 Hs He).
    apply (Hshow (set_system_clipboard text w0)); done.
  - by apply Hshow.
  - assert (Hp2 : parent_of n0 (console_error
                    "Fallback: Oops, unable to copy" w0) = Some body) by done.
    destruct (removeChild_attached n0 _ Hp2) as (-> & Hout & _).
    cbn [state_of]. split; [done|].
    change (next_ref (modify n0 (set_parent None)
                        (console_error "Fallback: Oops, unable to copy" w0)))
      with (next_ref w0).
    rewrite Hn. replace (S n0 - n0)%nat with 1%nat by lia.
    cbn [seq omap list_omap]. by rewrite Hout.
Qed.

Lemma script_fallback_new_returns text w :
  ∃ w', Script.fallbackCopyTextToClipboard text w = Normal w'.
Proof.
  destruct (script_fallback_releases text w) as (w' & Heq & _). by exists w'.
Qed.

Lemma script_fallback_outcome text w :
  let w' := state_of (Script.fallbackCopyTextToClipboard text w) in
  system_clipboard w' = (if exec_copies w then text else system_clipboard w)
  ∧ new_toasts w w' = if exec_throws w then [] else [success].
Proof.
  unfold new_toasts, Script.fallbackCopyTextToClipboard, createElement.
  cbv beta iota zeta.
  match goal with
  | |- context [exec_copy ?W] =>
      pose proof (script_outcome_tail (next_ref w) text W) as H
  end.
  apply H.
  - unfold parent_of; simpl. by rewrite !lookup_alter_eq, lookup_insert_eq.
  - reflexivity.
  - reflexivity.
  - simpl. by rewrite !lookup_alter_eq, lookup_insert_eq.
Qed.

(** The controller's fallback from the point where its text field is
    in the document and selected. *)
Lemma app_outcome_tail n0 text w0 :
  parent_of n0 w0 = Some body → next_ref w0 = S n0 →
  selection w0 = Some n0 → value <$> heap w0 !! n0 = Some text →
  let r :=
    match exec_copy w0 with
    | Copy_done => removeChild body n0 (copy_selection w0)
    | Copy_refused => removeChild body n0 w0
    | Copy_throws =>
        removeChild body n0 w0 >>= λ w, Throw (Error "Fallback copy failed") w
    end in
  throws r = exec_throws w0
  ∧ next_ref (state_of r) = S n0
  ∧ toast_text n0 (state_of r) = None
  ∧ system_clipboard (state_of r)
    = (if exec_copies w0 then text else system_clipboard w0).
Proof.
  intros Hp Hn Hs He. unfold exec_copies, exec_throws.
  destruct (exec_copy w0); cbv zeta.
  - rewrite (copy_selection_selected n0 text w0 Hs He).
    assert (Hp2 : parent_of n0 (set_system_clipboard text w0) = Some body)
      by done.
    by destruct (removeChild_attached n0 _ Hp2) as (-> & Hout & _).
  - by destruct (removeChild_attached n0 _ Hp) as (-> & Hout & _).
  - by destruct (removeChild_attached n0 _ Hp) as (-> & Hout & _).
Qed.

Lemma app_fallback_outcome text w :
  let r := App.fallbackCopyText text w in
  throws r = exec_throws w
  ∧ next_ref (state_of r) = S (next_ref w)
  ∧ toast_text (next_ref w) (state_of r) = None
  ∧ system_clipboard (state_of r)
    = (if exec_copies w then text else system_clipboard w).
Proof.
  unfold App.fallbackCopyText, createElement. cbv beta iota zeta.
  match goal with
  | |- context [exec_copy ?W] =>
      pose proof (app_outcome_tail (next_ref w) text W) as H
  end.
  apply H.
  - unfold parent_of; simpl. by rewrite !lookup_alter_eq, lookup_insert_eq.
  - reflexivity.
  - reflexivity.
  - simpl. by rewrite !lookup_alter_eq, lookup_insert_eq.
Qed.

(** A toast shown right away, and one shown after the fallback has
    used one reference. *)
Lemma show_first v message type w w1 :
  next_ref w1 = next_ref w →
  new_toasts w (show v message type w1)
  = [match v with script => success | app => message end].
Proof.
  intros Hn. unfold new_toasts. rewrite show_next_ref, Hn.
  replace (S (next_ref w) - next_ref w)%nat with 1%nat by lia.
  cbn [seq omap list_omap]. by rewrite <- Hn, show_toast_new.
Qed.

Lemma show_second v message type w w1 :
  next_ref w1 = S (next_ref w) → toast_text (next_ref w) w1 = None →
  new_toasts w (show v message type w1)
  = [match v with script => success | app => message end].
Proof.
  intros Hn Hout. unfold new_toasts. rewrite show_next_ref, Hn.
  replace (S (S (next_ref w)) - next_ref w)%nat with 2%nat by lia.
  cbn [seq omap list_omap]. rewrite show_toast_old by lia. rewrite Hout.
  by rewrite <- Hn, show_toast_new.
Qed.

(** X18: what copying the gift link leaves behind, for every clipboard
    capability and every behaviour of [execCommand('copy')].  The flat
    script: the link is on the clipboard when the capability's write
    resolves or the fallback's copy command succeeds, and a success
    toast is shown unless the fallback's command throws.  The
    controller: the link is on the clipboard when the write resolves,
    or, without the capability, when the command succeeds; one toast
    is shown in every case, a failure toast when the write is rejected
    or the command throws, a success toast otherwise.  So when the
    command returns false, both show the success toast although the
    clipboard was not written. *)
Theorem copyGiftLink_outcome (w : world) :
  let s := state_of (Script.copyGiftLink w) in
  let a := state_of (App.copyGiftLink w) in
  system_clipboard s
  = (if clipboard_writes w || exec_copies w then giftUrl
     else system_clipboard w)
  ∧ new_toasts w s
    = (if clipboard_writes w || negb (exec_throws w) then [success] else [])
  ∧ system_clipboard a
    = match clipboard w with
      | Some true => giftUrl
      | Some false => system_clipboard w
      | None => if exec_copies w then giftUrl else system_clipboard w
      end
  ∧ new_toasts w a
    = [match clipboard w with
       | Some true => success
       | Some false => failure
       | None => if exec_throws w then failure else success
       end].
Proof.
  intros s a.
  assert (Hs : system_clipboard s
               = (if clipboard_writes w || exec_copies w then giftUrl
                  else system_clipboard w)
               ∧ new_toasts w s
                 = (if clipboard_writes w || negb (exec_throws w)
                    then [success] else [])).
  { unfold s, Script.copyGiftLink, clipboard_writes.
    destruct (script_fallback_new_returns giftUrl w) as (w' & Heq).
    pose proof (script_fallback_outcome giftUrl w) as Hout.
    rewrite Heq in *. cbn [state_of] in Hout.
    destruct (clipboard w) as [[]|]; cbn [state_of orb];
      [|destruct Hout as [-> ->]; by destruct (exec_throws w)..].
    split; [done|]. by apply (show_first script "" ""). }
  destruct Hs as [Hs1 Hs2]. split; [done|]. split; [done|].
  unfold a, App.copyGiftLink.
  destruct (clipboard w) as [[]|]; cbn [state_of].
  - split; [done|]. by apply (show_first app).
  - split; [done|]. by apply (show_first app).
  - destruct (app_fallback_outcome giftUrl w) as (Hth & Hn & Hout & Hclip).
    destruct (App.fallbackCopyText giftUrl w) as [wa|e wa];
      cbn [state_of throws] in *; rewrite <- Hth.
    + split; [|by apply (show_second app)].
      by rewrite (show_clipboard app).
    + split; [|by apply (show_second app)].
      by rewrite (show_clipboard app).
Qed.

End CopyOutcomeFacts.

(** ** Start-up *)

Section LifecycleFacts.
Import Lifecycle.
Local Open Scope list_scope.

Lemma registered_listeners (rs : list registration) (p : page) :
  registered rs p = set_listeners (listeners p ++ rs) p.
Proof.
  revert p. induction rs as [|r rs IH]; intros p.
  - cbn. rewrite app_nil_r. by destruct p.
  - unfold registered in *. cbn [foldl]. rewrite IH.
    destruct r as [t ty f]. destruct p. cbn. by rewrite <- app_assoc.
Qed.

Lemma forEach_addEventListener (f : ref → listener) (l : list ref) (p : page) :
  forEach (λ a, addEventListener (Node a) "click" (f a)) l p
  = set_listeners (listeners p ++ click_on f l) p.
Proof.
  rewrite <- registered_listeners. unfold registered, forEach, click_on.
  revert p. induction l as [|a l IH]; intros p; [done|].
  cbn [foldl fmap list_fmap]. by rewrite IH.
Qed.

Lemma forEach_preload (l : list string) (p : page) :
  forEach preload l p = set_requested (requested p ++ l) p.
Proof.
  revert p. induction l as [|a l IH]; intros p.
  - cbn. rewrite app_nil_r. by destruct p.
  - unfold forEach in *. cbn [foldl]. rewrite IH.
    destruct p. cbn. by rewrite <- app_assoc.
Qed.

Lemma forEach_image_observe (l : list ref) (p : page) :
  forEach (λ img p, set_image_observed (image_observed p ∪ {[img]}) p) l p
  = set_image_observed (image_observed p ∪ list_to_set l) p.
Proof.
  revert p. induction l as [|a l IH]; intros p.
  - cbn. rewrite union_empty_r_L. by destruct p.
  - unfold forEach in *. cbn [foldl]. rewrite IH.
    destruct p. cbn. by rewrite (assoc_L (∪)).
Qed.

(** With the observer in place the loop is the watcher's set-up. *)
Lemma initializeAnimations_defined (p : page) :
  observer p = true →
  App.initializeAnimations p
  = Done (set_scene
            (Watcher.App.initializeAnimations (animateElements p) (scene p)) p).
Proof.
  unfold App.initializeAnimations. generalize (animateElements p) as l.
  intros l. revert p. induction l as [|el l IH]; intros p Ho.
  - cbn. by destruct p.
  - cbn [forEach_throwing]. cbv zeta.
    change (observer (set_scene _ p)) with (observer p). rewrite Ho.
    cbn [and_then]. rewrite IH by done. by destruct p.
Qed.

(** Without it the first card is hidden and the loop ends there. *)
Lemma initializeAnimations_undefined (p : page) (el : ref) (rest : list ref) :
  animateElements p = el :: rest → observer p = false →
  App.initializeAnimations p
  = Raised (TypeError_undefined "observe")
      (set_scene (Watcher.update el Watcher.set_hidden (scene p)) p).
Proof.
  intros Ha Ho. unfold App.initializeAnimations. rewrite Ha.
  cbn [forEach_throwing]. cbv zeta.
  change (observer (set_scene _ p)) with (observer p). by rewrite Ho.
Qed.

Lemma onDOMReady_defined (p : page) :
  observer p = true →
  App.onDOMReady p
  = Done
      (set_body_classList (classList_add "loaded" (body_classList p))
         (set_scene
            (Watcher.App.initializeAnimations (animateElements p) (scene p))
            (set_listeners
               (listeners p ++ click_on App_anchor_click (anchors p)) p))).
Proof.
  intros Ho. unfold App.onDOMReady, App.setupSmoothScrolling.
  rewrite forEach_addEventListener.
  rewrite initializeAnimations_defined by exact Ho. reflexivity.
Qed.

Lemma onDOMReady_undefined (p : page) (el : ref) (rest : list ref) :
  animateElements p = el :: rest → observer p = false →
  App.onDOMReady p
  = Raised (TypeError_undefined "observe")
      (set_scene (Watcher.update el Watcher.set_hidden (scene p))
         (set_listeners
            (listeners p ++ click_on App_anchor_click (anchors p)) p)).
Proof.
  intros Ha Ho. unfold App.onDOMReady, App.setupSmoothScrolling.
  rewrite forEach_addEventListener.
  rewrite (initializeAnimations_undefined _ el rest) by done. reflexivity.
Qed.

Lemma onDOMReady_no_cards (p : page) :
  animateElements p = [] →
  App.onDOMReady p
  = Done
      (set_body_classList (classList_add "loaded" (body_classList p))
         (set_listeners
            (listeners p ++ click_on App_anchor_click (anchors p)) p)).
Proof.
  intros Ha. unfold App.onDOMReady, App.setupSmoothScrolling.
  rewrite forEach_addEventListener. unfold App.initializeAnimations.
  change (animateElements (set_listeners _ p)) with (animateElements p).
  rewrite Ha. reflexivity.
Qed.

Lemma bindEvents_loading (p : page) :
  readyState p = loading →
  App.bindEvents p = Done (set_listeners (listeners p ++ bound_events true) p).
Proof.
  rewrite <- registered_listeners.
  destruct p as [r io an ae li cb sc ob im ls bc rq kf uh].
  cbn [readyState]. intros ->. vm_compute. reflexivity.
Qed.

Lemma bindEvents_parsed (p : page) :
  readyState p ≠ loading →
  App.bindEvents p
  = App.onDOMReady p >>> λ q,
    Done (set_listeners (listeners q ++ bound_events false) q).
Proof.
  intros Hr. unfold App.bindEvents.
  assert (Hready : match readyState p with
                   | loading =>
                       Done (addEventListener Document
                               "DOMContentLoaded" App_onDOMReady p)
                   | _ => App.onDOMReady p
                   end = App.onDOMReady p) by (by destruct (readyState p)).
  rewrite Hready. destruct (App.onDOMReady p) as [q|e q]; [|done].
  cbn [and_then]. rewrite <- registered_listeners.
  destruct q. vm_compute. reflexivity.
Qed.

(** What [init] does after binding the events. *)
Lemma init_after_binding (p : page) :
  (App.setupIntersectionObserver p >>> λ p,
   Done (App.setupAnalytics
           (App.preloadCriticalAssets (App.setupLazyLoading p))))
  = if IntersectionObserver_in_window p
    then Done
           (set_listeners
              (listeners p ++ click_on App_trackCTAClick (cta_buttons p))
              (set_requested (requested p ++ App.criticalImages)
                 (set_image_observed
                    (image_observed p ∪ list_to_set (lazy_images p))
                    (set_observer true p))))
    else Raised (ReferenceError "IntersectionObserver") p.
Proof.
  unfold App.setupIntersectionObserver, new_IntersectionObserver.
  destruct (IntersectionObserver_in_window p) eqn:Hio; [|done].
  cbn [and_then].
  unfold App.setupAnalytics, App.preloadCriticalAssets, App.setupLazyLoading.
  change (IntersectionObserver_in_window (set_observer true p))
    with (IntersectionObserver_in_window p). rewrite Hio.
  rewrite forEach_image_observe, forEach_preload, forEach_addEventListener.
  clear Hio. destruct p. vm_compute. reflexivity.
Qed.

Lemma filter_click_on (f : ref → listener) (l : list ref) :
  filter (λ r, on_document r && String.eqb (type r) "DOMContentLoaded" = true)
    (click_on f l) = [].
Proof.
  induction l as [|a l IH]; [done|].
  change (click_on f (a :: l))
    with ({| on := Node a; type := "click"; callback := f a |}
          :: click_on f l).
  rewrite filter_cons_False by done. exact IH.
Qed.

(** The event on a page whose only listener for it is the
    controller's. *)
Lemma DOMContentLoaded_controller (p : page) (l : list ref) :
  listeners p = bound_events true ++ click_on App_trackCTAClick l →
  DOMContentLoaded p
  = match App.onDOMReady (set_readyState interactive p) with
    | Done q => q
    | Raised e q => set_unhandled (unhandled q ++ [e]) q
    end.
Proof.
  intros Hl. unfold DOMContentLoaded. rewrite Hl.
  cbn [bound_events app].
  rewrite filter_cons_True by done.
  rewrite !filter_cons_False by (cbn; done).
  rewrite filter_click_on. reflexivity.
Qed.


(** X19: constructed while the document is still loading, in a browser
    with the observer class, the controller returns normally, hides
    nothing yet, registers the DOMContentLoaded listener, the five
    others and one click listener per call-to-action button, creates
    its observer, observes every lazy image and requests the three
    critical images.  When the document has been parsed, its listener
    registers the anchor listeners, hides and observes every card and
    marks [body] as loaded, and nothing is thrown. *)
Theorem controller_start_while_loading (p : page) :
  readyState p = loading → IntersectionObserver_in_window p = true →
  listeners p = [] →
  ∃ p', App.constructor p = Done p'
        ∧ listeners p'
          = bound_events true ++ click_on App_trackCTAClick (cta_buttons p)
        ∧ observer p' = true
        ∧ image_observed p' = image_observed p ∪ list_to_set (lazy_images p)
        ∧ requested p' = requested p ++ App.criticalImages
        ∧ scene p' = scene p
        ∧ body_classList p' = body_classList p
        ∧ unhandled (DOMContentLoaded p') = unhandled p
        ∧ scene (DOMContentLoaded p')
          = Watcher.App.initializeAnimations (animateElements p) (scene p)
        ∧ body_classList (DOMContentLoaded p')
          = classList_add "loaded" (body_classList p)
        ∧ listeners (DOMContentLoaded p')
          = listeners p' ++ click_on App_anchor_click (anchors p).
Proof.
  intros Hr Hio Hl. unfold App.constructor, App.init.
  rewrite (bindEvents_loading p Hr). cbn [and_then].
  rewrite init_after_binding.
  change (IntersectionObserver_in_window (set_listeners _ p))
    with (IntersectionObserver_in_window p). rewrite Hio.
  eexists. split; [reflexivity|].
  match goal with |- listeners ?P = _ ∧ _ => set (p' := P) end.
  assert (H1 : listeners p'
               = bound_events true ++ click_on App_trackCTAClick (cta_buttons p)).
  { unfold p'. clear p'. revert Hl.
    destruct p as [r io an ae li cb sc ob im ls bc rq kf uh].
    cbn [listeners]. intros ->. vm_compute. reflexivity. }
  split; [exact H1|].
  assert (H2 : observer p' = true
               ∧ image_observed p'
                 = image_observed p ∪ list_to_set (lazy_images p)
               ∧ requested p' = requested p ++ App.criticalImages
               ∧ scene p' = scene p
               ∧ body_classList p' = body_classList p).
  { unfold p'. clear. destruct p. vm_compute. done. }
  destruct H2 as (H2 & H3 & H4 & H5 & H6).
  do 5 (split; [assumption|]).
  rewrite (DOMContentLoaded_controller p' (cta_buttons p) H1).
  rewrite onDOMReady_defined by exact H2.
  assert (H7 : unhandled p' = unhandled p
               ∧ animateElements p' = animateElements p
               ∧ anchors p' = anchors p).
  { unfold p'. clear. destruct p. vm_compute. done. }
  destruct H7 as (H7 & H8 & H9).
  clearbody p'. destruct p'. cbn in *. subst. done.
Qed.

(** X20: constructed after the document has been parsed, the controller
    runs its DOM-ready step at once, before its observer exists.  With
    at least one card on the page the constructor throws a TypeError:
    the first card has been hidden and the anchor listeners
    registered, and that is all: no card is observed, [body] is not
    marked as loaded, none of the load, scroll, click and keydown
    listeners is registered, no observer is created and nothing is
    preloaded.  Without cards it returns normally with everything in
    place. *)
Theorem controller_start_after_parsing (p : page) :
  readyState p ≠ loading → observer p = false →
  match animateElements p with
  | el :: _ =>
      App.constructor p
      = Raised (TypeError_undefined "observe")
          (set_scene (Watcher.update el Watcher.set_hidden (scene p))
             (set_listeners
                (listeners p ++ click_on App_anchor_click (anchors p)) p))
  | [] =>
      IntersectionObserver_in_window p = true →
      ∃ p', App.constructor p = Done p'
            ∧ listeners p'
              = ((listeners p ++ click_on App_anchor_click (anchors p))
                 ++ bound_events false)
                ++ click_on App_trackCTAClick (cta_buttons p)
            ∧ observer p' = true
            ∧ body_classList p' = classList_add "loaded" (body_classList p)
            ∧ requested p' = requested p ++ App.criticalImages
  end.
Proof.
  intros Hr Ho. unfold App.constructor, App.init.
  rewrite (bindEvents_parsed p Hr).
  destruct (animateElements p) as [|el rest] eqn:Ha.
  - intros Hio. rewrite (onDOMReady_no_cards p Ha). cbn [and_then].
    rewrite init_after_binding.
    match goal with
    | |- context [IntersectionObserver_in_window ?P] =>
        change (IntersectionObserver_in_window P)
          with (IntersectionObserver_in_window p)
    end.
    rewrite Hio. eexists. split; [reflexivity|].
    clear. destruct p. vm_compute. done.
  - by rewrite (onDOMReady_undefined p el rest Ha Ho).
Qed.

(** X21: in a browser without the observer class the controller's
    constructor throws a ReferenceError after binding its events: the
    listeners are registered, but there is no observer, no image is
    observed or preloaded and no call-to-action button is tracked.
    When the document is then parsed, the DOM-ready listener throws on
    the first card: that card is hidden, nothing else, and [body] is
    never marked as loaded. *)
Theorem controller_without_IntersectionObserver (p : page) (el : ref)
    (rest : list ref) :
  IntersectionObserver_in_window p = false → readyState p = loading →
  observer p = false → listeners p = [] → animateElements p = el :: rest →
  let p' := set_listeners (bound_events true) p in
  App.constructor p = Raised (ReferenceError "IntersectionObserver") p'
  ∧ unhandled (DOMContentLoaded p')
    = unhandled p ++ [TypeError_undefined "observe"]
  ∧ scene (DOMContentLoaded p')
    = Watcher.update el Watcher.set_hidden (scene p)
  ∧ body_classList (DOMContentLoaded p') = body_classList p.
Proof.
  intros Hio Hr Ho Hl Ha p'. split.
  - unfold App.constructor, App.init.
    rewrite (bindEvents_loading p Hr). cbn [and_then].
    rewrite init_after_binding.
    change (IntersectionObserver_in_window (set_listeners _ p))
      with (IntersectionObserver_in_window p). rewrite Hio, Hl. done.
  - rewrite (DOMContentLoaded_controller p' []) by reflexivity.
    rewrite (onDOMReady_undefined _ el rest) by done.
    unfold p'. clear p'. destruct p. cbn in *. done.
Qed.

(** X22: the flat script, in a browser without the observer class, stops
    with a ReferenceError at its observer: only [window.onclick] and
    the anchor listeners are in place.  With the class it always
    returns normally and itself hides nothing, whatever the document's
    state; its two DOMContentLoaded listeners, when the event comes,
    hide and observe the cards, request the five images and mark
    [body] as loaded. *)
Theorem script_start (p : page) :
  listeners p = [] →
  if IntersectionObserver_in_window p then
    ∃ p', Script.main p = Done p'
          ∧ scene p' = scene p ∧ body_classList p' = body_classList p
          ∧ requested p' = requested p ∧ keyframes p' = true
          ∧ image_observed p'
            = image_observed p ∪ list_to_set (lazy_images p)
          ∧ scene (DOMContentLoaded p')
            = Watcher.Script.animate_setup (animateElements p) (scene p)
          ∧ requested (DOMContentLoaded p') = requested p ++ Script.imageUrls
          ∧ body_classList (DOMContentLoaded p')
            = classList_add "loaded" (body_classList p)
          ∧ unhandled (DOMContentLoaded p') = unhandled p
  else
    Script.main p
    = Raised (ReferenceError "IntersectionObserver")
        (set_listeners
           ({| on := Window; type := "click";
               callback := Script_window_onclick |}
            :: click_on Script_anchor_click (anchors p)) p).
Proof.
  intros Hl. destruct (IntersectionObserver_in_window p) eqn:Hio.
  - assert (Hmain : Script.main p
              = Done
                  (set_listeners
                     (script_listeners (anchors p) (cta_buttons p))
                     (set_keyframes true
                        (set_image_observed
                           (image_observed p ∪ list_to_set (lazy_images p))
                           (set_observer true p))))).
    { unfold Script.main. cbv zeta.
      rewrite forEach_addEventListener.
      unfold new_IntersectionObserver.
      match goal with
      | |- context [IntersectionObserver_in_window ?P] =>
          change (IntersectionObserver_in_window P)
            with (IntersectionObserver_in_window p)
      end.
      rewrite Hio. cbn [and_then]. rewrite forEach_addEventListener.
      match goal with
      | |- context [IntersectionObserver_in_window ?P] =>
          change (IntersectionObserver_in_window P)
            with (IntersectionObserver_in_window p)
      end.
      rewrite Hio. rewrite forEach_image_observe.
      revert Hl. clear Hio.
      destruct p as [r io an ae li cb sc ob im ls bc rq kf uh].
      cbn [listeners]. intros ->. vm_compute. reflexivity. }
    rewrite Hmain. eexists. split; [reflexivity|].
    do 5 (split; [clear; destruct p; vm_compute; reflexivity|]).
    assert (Hev : ∀ q ls1 ls2,
              listeners q = script_listeners ls1 ls2 →
              DOMContentLoaded q
              = Script.preload_loaded
                  (Script.animate_setup (set_readyState interactive q))).
    { intros q ls1 ls2 Hq. unfold DOMContentLoaded. rewrite Hq.
      unfold script_listeners.
      rewrite !filter_app. rewrite filter_cons_False by (cbn; done).
      rewrite !filter_click_on. cbn [app].
      rewrite filter_cons_True by done. rewrite filter_nil.
      rewrite filter_cons_False by (cbn; done). rewrite filter_nil.
      rewrite filter_cons_True by done. rewrite filter_nil.
      rewrite filter_cons_False by (cbn; done). rewrite filter_nil.
      reflexivity. }
    rewrite (Hev _ (anchors p) (cta_buttons p)) by reflexivity.
    unfold Script.preload_loaded, Script.preloadImages. cbv zeta.
    rewrite forEach_preload. unfold Script.animate_setup.
    clear. destruct p. vm_compute. done.
  - unfold Script.main. cbv zeta. rewrite forEach_addEventListener.
    unfold new_IntersectionObserver.
    match goal with
    | |- context [IntersectionObserver_in_window ?P] =>
        change (IntersectionObserver_in_window P)
          with (IntersectionObserver_in_window p)
    end.
    rewrite Hio. revert Hl. clear Hio.
    destruct p as [r io an ae li cb sc ob im ls bc rq kf uh].
    cbn [listeners]. intros ->. vm_compute. reflexivity.
Qed.

End LifecycleFacts.

Lemma controller_start_while_loading_witness :
  Lifecycle.readyState (Lifecycle.sample Lifecycle.loading true)
  = Lifecycle.loading
  ∧ ∃ p', Lifecycle.App.constructor (Lifecycle.sample Lifecycle.loading true)
          = Lifecycle.Done p'
          ∧ Lifecycle.listeners p'
            = (Lifecycle.bound_events true
               ++ Lifecycle.click_on Lifecycle.App_trackCTAClick [4%nat])%list.
Proof.
  split; [reflexivity|].
  destruct (controller_start_while_loading
              (Lifecycle.sample Lifecycle.loading true)
              eq_refl eq_refl eq_refl) as (p' & H1 & H2 & _).
  exists p'. split; [exact H1|exact H2].
Defined.

Lemma controller_start_after_parsing_witness :
  Lifecycle.App.constructor (Lifecycle.sample Lifecycle.interactive true)
  = Lifecycle.Raised (Lifecycle.TypeError_undefined "observe")
      (Lifecycle.set_scene
         (Watcher.update 1%nat Watcher.set_hidden
            (Lifecycle.scene (Lifecycle.sample Lifecycle.interactive true)))
         (Lifecycle.set_listeners
            (Lifecycle.click_on Lifecycle.App_anchor_click [5%nat])
            (Lifecycle.sample Lifecycle.interactive true))).
Proof.
  exact (controller_start_after_parsing
           (Lifecycle.sample Lifecycle.interactive true)
           ltac:(discriminate) eq_refl).
Defined.

Lemma controller_without_IntersectionObserver_witness :
  Lifecycle.App.constructor (Lifecycle.sample Lifecycle.loading false)
  = Lifecycle.Raised (Lifecycle.ReferenceError "IntersectionObserver")
      (Lifecycle.set_listeners (Lifecycle.bound_events true)
         (Lifecycle.sample Lifecycle.loading false)).
Proof.
  exact (proj1 (controller_without_IntersectionObserver
                  (Lifecycle.sample Lifecycle.loading false) 1%nat [3%nat]
                  eq_refl eq_refl eq_refl eq_refl eq_refl)).
Defined.

Lemma script_start_witness :
  Lifecycle.Script.main (Lifecycle.sample Lifecycle.complete false)
  = Lifecycle.Raised (Lifecycle.ReferenceError "IntersectionObserver")
      (Lifecycle.set_listeners
         ({| Lifecycle.on := Lifecycle.Window; Lifecycle.type := "click";
             Lifecycle.callback := Lifecycle.Script_window_onclick |}
          :: Lifecycle.click_on Lifecycle.Script_anchor_click [5%nat])
         (Lifecycle.sample Lifecycle.complete false)).
Proof.
  exact (script_start (Lifecycle.sample Lifecycle.complete false) eq_refl).
Defined.

(** ** Sharing: every platform *)

Section PlatformFacts.
Import Share Platforms.
Local Open Scope list_scope.

Lemma Object_prototype_builtin (k : string) (v : value) :
  Object_prototype !! k = Some v → v = Builtin k.
Proof.
  unfold Object_prototype. intros H.
  apply elem_of_list_to_map_2 in H.
  apply list_elem_of_fmap in H as (k' & [= -> ->] & _). done.
Qed.

(** X23: [shareGift] for every platform name.  For the three platforms
    both variants make one [window.open] call, to a blank target, with
    a URL that carries the percent-encoded gift link; for Facebook the
    two URLs are the same.  For any other name the flat script opens
    nothing; the controller opens nothing either unless the name is a
    property every object inherits, in which case it passes that
    inherited value to [window.open]. *)
Theorem shareGift_every_platform (platform : string) (w : window) :
  (platform ∈ platforms →
     ∃ us ua,
       opened (Script.shareGift platform w)
       = opened w ++ [(Str us, "_blank", "width=600,height=400")]
       ∧ opened (App.shareGift platform w)
         = opened w
           ++ [(Str ua, "_blank", "width=600,height=400,noopener,noreferrer")]
       ∧ contains (encodeURIComponent giftUrl) us
       ∧ contains (encodeURIComponent giftUrl) ua
       ∧ (platform = "facebook" → us = ua))
  ∧ (platform ∉ platforms →
     Script.shareGift platform w = w
     ∧ match Object_prototype !! platform with
       | Some v =>
           opened (App.shareGift platform w)
           = opened w
             ++ [(v, "_blank", "width=600,height=400,noopener,noreferrer")]
       | None => App.shareGift platform w = w
       end).
Proof.
  split.
  - unfold platforms. intros Hp.
    repeat (apply elem_of_cons in Hp as [->|Hp]);
      [| | |by apply elem_of_nil in Hp].
    + do 2 eexists. split; [by vm_compute|]. split; [by vm_compute|].
      split; [|split; [|done]].
      * exists ("https://twitter.com/intent/tweet?text="
                ++ encodeURIComponent Script.text ++ "&url=")%string, "".
        by vm_compute.
      * exists ("https://twitter.com/intent/tweet?text="
                ++ encodeURIComponent App.text ++ "&url=")%string, "".
        by vm_compute.
    + do 2 eexists. split; [by vm_compute|]. split; [by vm_compute|].
      split; [|split; [|done]].
      * exists "https://www.facebook.com/sharer/sharer.php?u=", "".
        by vm_compute.
      * exists "https://www.facebook.com/sharer/sharer.php?u=", "".
        by vm_compute.
    + do 2 eexists. split; [by vm_compute|]. split; [by vm_compute|].
      split; [|split; [|done]].
      * exists "https://social-plugins.line.me/lineit/share?url=",
          ("&text=" ++ encodeURIComponent Script.text)%string.
        by vm_compute.
      * exists "https://social-plugins.line.me/lineit/share?url=",
          ("&text=" ++ encodeURIComponent App.text)%string.
        by vm_compute.
  - intros Hp. split; [by apply script_shareGift_unknown|].
    destruct (Object_prototype !! platform) as [v|] eqn:Hproto;
      [|by apply app_shareGift_unknown].
    pose proof (Object_prototype_builtin _ _ Hproto) as ->.
    unfold App.shareGift, get, App.shareUrls.
    rewrite !lookup_insert_ne, lookup_empty
      by (intros <-; apply Hp; unfold platforms; repeat constructor).
    rewrite Hproto. done.
Qed.

End PlatformFacts.

(** ** Call-to-action tracking *)

Section AnalyticsFacts.
Import Analytics.
Local Open Scope list_scope.

Lemma dropwhile_split (s : list Email.code_unit) :
  ∃ a, s = a ++ trimStart s ∧ Forall (λ c, Email.is_space c = true) a
       ∧ head (Email.is_space <$> trimStart s) ≠ Some true.
Proof.
  induction s as [|c s (a & Hs & Ha & Hh)].
  - by exists [].
  - cbn. destruct (Email.is_space c) eqn:Hc.
    + exists (c :: a). split; [by rewrite <- app_comm_cons, <- Hs|].
      split; [by constructor|done].
    + exists []. split; [done|]. split; [constructor|]. cbn.
      rewrite Hc. done.
Qed.

(** [trim] keeps a contiguous part of the text: what it drops at
    either end is white space, and what it keeps neither starts nor
    ends with white space. *)
Lemma trim_middle (s : list Email.code_unit) :
  ∃ a b, s = a ++ trim s ++ b
         ∧ Forall (λ c, Email.is_space c = true) a
         ∧ Forall (λ c, Email.is_space c = true) b
         ∧ head (Email.is_space <$> trim s) ≠ Some true
         ∧ last (Email.is_space <$> trim s) ≠ Some true.
Proof.
  destruct (dropwhile_split s) as (a & Hs & Ha & Hh).
  destruct (dropwhile_split (reverse (trimStart s))) as (b & Hr & Hb & Hl).
  exists a, (reverse b). unfold trim.
  set (t := trimStart (reverse (trimStart s))) in *.
  assert (Hmid : trimStart s = reverse t ++ reverse b).
  { rewrite <- reverse_app, <- Hr. by rewrite reverse_involutive. }
  split; [by rewrite <- Hmid|]. split; [done|].
  split; [by apply Forall_reverse|]. split.
  - (* the kept part starts where the left-trimmed text starts, unless
       nothing is kept *)
    destruct (reverse t) as [|c r] eqn:Ht; [done|].
    rewrite Hmid in Hh. exact Hh.
  - rewrite fmap_reverse, last_reverse. exact Hl.
Qed.

(** X24: the entry [trackCTAClick] writes holds the button's text less
    the white space around it, and nothing else of the text is lost:
    what is cut at either end is white space only, and the text kept
    neither starts nor ends with white space.  The link is the
    button's, or the empty string for an element without one. *)
Theorem trackCTAClick_text (now : string) (button : element)
    (log : list entry) :
  ∃ a t b, App.trackCTAClick now button log
           = log ++ [App_entry t (default "" (href button)) now]
           ∧ textContent button = a ++ t ++ b
           ∧ Forall (λ c, Email.is_space c = true) a
           ∧ Forall (λ c, Email.is_space c = true) b
           ∧ head (Email.is_space <$> t) ≠ Some true
           ∧ last (Email.is_space <$> t) ≠ Some true.
Proof.
  destruct (trim_middle (textContent button)) as (a & b & H).
  by exists a, (trim (textContent button)), b.
Qed.

Lemma foldl_tracking {X} (f : element → X) (p : list element) (log : list X) :
  foldl (λ log e, if has_class "cta-button" e then log ++ [f e] else log) log p
  = log ++ (f <$> buttons_on p).
Proof.
  unfold buttons_on. revert log. induction p as [|e p IH]; intros log.
  - cbn. by rewrite app_nil_r.
  - cbn [foldl]. rewrite IH. destruct (has_class "cta-button" e) eqn:He.
    + rewrite (filter_cons_True (λ e0, has_class "cta-button" e0 = true))
        by done.
      by rewrite <- app_assoc.
    + rewrite (filter_cons_False (λ e0, has_class "cta-button" e0 = true));
        [done|]. by rewrite He.
Qed.

(** The button listeners of the controller, as the click bubbles. *)
Lemma app_buttons_logged (now : string) (p : list element) (log : list entry) :
  foldl (λ log e,
           if has_class "cta-button" e then App.trackCTAClick now e log
           else log) log p
  = log ++ (app_entry now <$> buttons_on p).
Proof. apply (foldl_tracking (app_entry now)). Qed.

(** X25: the log after one click.  The controller writes one entry for
    every call-to-action button the click bubbles through, and one
    more for the closest element with a [data-action] when that action
    is [track-cta]; each entry holds the trimmed text, the link or the
    empty string, and the time.  The flat script writes the untrimmed
    text of every button on the path. *)
Theorem click_log (now : string) (p : list element) (log : list entry) :
  App.click now p log
  = log ++ (app_entry now <$> (buttons_on p ++ tracked_by_action p))
  ∧ Script.click p log
    = log ++ ((λ e, Script_entry (textContent e)) <$> buttons_on p).
Proof.
  split.
  - unfold App.click. rewrite app_buttons_logged.
    unfold App.handleClicks, tracked_by_action.
    rewrite fmap_app, app_assoc.
    destruct (closest_action p) as [t|]; [|by rewrite app_nil_r].
    destruct (bool_decide _); [done|by rewrite app_nil_r].
  - apply foldl_tracking.
Qed.

(** X26: a call-to-action button that also carries the action
    [track-cta] is logged twice by the controller for one click on it,
    with the same entry, and once by the flat script. *)
Theorem cta_button_logged_twice (now : string) (button : element)
    (ancestors : list element) (log : list entry) :
  has_class "cta-button" button = true →
  data_action button = Some "track-cta" →
  buttons_on ancestors = [] →
  App.click now (button :: ancestors) log
  = log ++ [app_entry now button; app_entry now button]
  ∧ Script.click (button :: ancestors) log
    = log ++ [Script_entry (textContent button)].
Proof.
  intros Hc Ha Hn.
  assert (Hb : buttons_on (button :: ancestors) = [button]).
  { unfold buttons_on in *.
    rewrite (filter_cons_True (λ e0, has_class "cta-button" e0 = true))
      by done.
    by rewrite Hn. }
  split.
  - unfold App.click. rewrite app_buttons_logged, Hb.
    unfold App.handleClicks, closest_action.
    rewrite (filter_cons_True (λ e0, has_action e0 = true))
      by (unfold has_action; by rewrite Ha).
    cbn [head]. rewrite bool_decide_eq_true_2 by done.
    unfold App.trackCTAClick. fold (app_entry now button).
    by rewrite <- app_assoc.
  - unfold Script.click.
    rewrite (foldl_tracking (λ e, Script_entry (textContent e))). by rewrite Hb.
Qed.

End AnalyticsFacts.

Lemma cta_button_logged_twice_witness :
  Analytics.App.click "2025-04-14T00:00:00.000Z" [Analytics.gift_button] []
  = [Analytics.app_entry "2025-04-14T00:00:00.000Z" Analytics.gift_button;
     Analytics.app_entry "2025-04-14T00:00:00.000Z" Analytics.gift_button].
Proof.
  exact (proj1 (cta_button_logged_twice "2025-04-14T00:00:00.000Z"
                  Analytics.gift_button [] [] eq_refl eq_refl eq_refl)).
Defined.
